(** * primesieve: pre-sieving and small-prime crossing-off

    A shallow embedding of [src/EratSmall.cpp] and [src/PreSieve.cpp].

    Conventions of the embedding.
    - [uint64_t] values are integers of [Z]; the wrap-around of an unsigned
      64-bit expression is written [u64 e].
    - A byte array (a [uint8_t] pointer, a [pod_vector<uint8_t>]) is a [list Z] of
      values in [0, 256).  A pointer into an array is the offset from the
      start of the array, an integer of [Z].  The array is taken to lie in
      the low addresses of a 64-bit address space (below [2^60]), where the
      address [sieve + x] does not wrap for [x < 2^63]; the one offset that
      the code takes from a stored value without a bound, [multipleIndex], is
      wrapped in [EratSmall.crossOff_prime].
    - A read or write through an index outside the array, which is undefined
      behaviour in C++, is the error [OutOfBounds]; a loop that exhausts its
      fuel is the error [OutOfFuel]; a thrown [primesieve_error] is the error
      [primesieve_error], a failed allocation the error [bad_alloc]. *)

From Stdlib Require Import ZArith Lia Bool String.
From stdpp Require Import base list.

Local Open Scope Z_scope.

(** ** Machine integers, errors *)

Definition u64 (x : Z) : Z := x mod 2 ^ 64.

Inductive error : Type :=
| OutOfBounds (i : Z)
| OutOfFuel
| primesieve_error (msg : string)
| bad_alloc.

Inductive result (A : Type) : Type :=
| Ok (a : A)
| Err (e : error).

Arguments Ok {A} a.
Arguments Err {A} e.

#[global] Instance result_ret : MRet result := fun A a => Ok a.
#[global] Instance result_bind : MBind result := fun A B f m =>
  match m with
  | Ok a => f a
  | Err e => Err e
  end.

(** ** Byte arrays *)

(** [s[i]], with the index checked. *)
Definition load (s : list Z) (i : Z) : result Z :=
  if 0 <=? i then
    match s !! Z.to_nat i with
    | Some b => Ok b
    | None => Err (OutOfBounds i)
    end
  else Err (OutOfBounds i).

(** [s[i] = v], with the index checked. *)
Definition store (s : list Z) (i v : Z) : result (list Z) :=
  if (0 <=? i) && (i <? Z.of_nat (length s)) then Ok (<[Z.to_nat i := v]> s)
  else Err (OutOfBounds i).

(** [s[i] &= mask]. *)
Definition and_assign (s : list Z) (i mask : Z) : result (list Z) :=
  b ← load s i; store s i (Z.land b mask).

(** The bit of the byte at index [j]; [false] outside the array. *)
Definition bit_at (s : list Z) (j b : Z) : bool :=
  match s !! Z.to_nat j with
  | Some x => Z.testbit x b
  | None => false
  end.

(** Modelled from the spec: the masks [BIT0] .. [BIT7] of [bits.hpp], which is
    not part of the sources at hand: "the bitwise complements of the single
    bits 1<<0..1<<7 (ANDing clears the bit)", as constants of the byte type. *)
Definition BIT (k : Z) : Z := Z.lxor 255 (Z.shiftl 1 k).

(** ** The bit layout of the code

    The strike tables of [EratSmall::crossOff], the static table
    [buffer_7_11_13] and the constants [bit49] .. [bit121] of
    [PreSieve::preSieve] all use the layout in which bit [b] of the byte at
    offset [k] of a segment stands for [segmentLow + 30 * k + bit_value b]. *)
Definition bitValues : list Z := [7; 11; 13; 17; 19; 23; 29; 31].
Definition bit_value (b : Z) : Z := nth (Z.to_nat b) bitValues 0.

(** The residue-to-bit table of section 3 of the specification. *)
Definition spec_residues : list Z := [1; 7; 11; 13; 17; 19; 23; 29].
Definition spec_residue (b : Z) : Z := nth (Z.to_nat b) spec_residues 0.

(** ** SievingPrime *)

(** Modelled from the spec: the class [SievingPrime] of [Bucket.hpp], which
    is not part of the sources at hand: "a record holding sievingPrime (the
    prime divided by 30), multipleIndex and wheelIndex".  The getters are the
    fields. *)
Record SievingPrime : Type := mkSievingPrime {
  getSievingPrime : Z;
  getMultipleIndex : Z;
  getWheelIndex : Z
}.

(** Modelled from the spec: [SievingPrime::set] of [Bucket.hpp], which
    "updates (multipleIndex, wheelIndex) in place". *)
Definition set (prime : SievingPrime) (multipleIndex wheelIndex : Z) : SievingPrime :=
  mkSievingPrime (getSievingPrime prime) multipleIndex wheelIndex.

(** ** EratSmall *)

Module EratSmall.

(** The per-strike part of the switch: for [case w], the bit of the mask
    [BITb] that [*p &= BITb] clears, and the [m], [a] of the advance
    [p += sievingPrime * m + a]. *)
Definition strikes : list (Z * Z * Z) :=
  (* sievingPrime % 30 == 7 *)
  [ (0, 6, 1); (4, 4, 1); (3, 2, 0); (7, 4, 1); (6, 2, 1); (2, 4, 1); (1, 6, 1); (5, 2, 1);
  (* sievingPrime % 30 == 11 *)
    (1, 6, 2); (3, 4, 1); (7, 2, 1); (5, 4, 2); (0, 2, 0); (6, 4, 2); (2, 6, 2); (4, 2, 1);
  (* sievingPrime % 30 == 13 *)
    (2, 6, 2); (7, 4, 2); (5, 2, 1); (4, 4, 2); (1, 2, 1); (0, 4, 1); (6, 6, 3); (3, 2, 1);
  (* sievingPrime % 30 == 17 *)
    (3, 6, 3); (6, 4, 3); (0, 2, 1); (1, 4, 2); (4, 2, 1); (5, 4, 2); (7, 6, 4); (2, 2, 1);
  (* sievingPrime % 30 == 19 *)
    (4, 6, 4); (2, 4, 2); (6, 2, 2); (0, 4, 2); (5, 2, 1); (7, 4, 3); (3, 6, 4); (1, 2, 1);
  (* sievingPrime % 30 == 23 *)
    (5, 6, 5); (1, 4, 3); (2, 2, 1); (6, 4, 3); (7, 2, 2); (3, 4, 3); (4, 6, 5); (0, 2, 1);
  (* sievingPrime % 30 == 29 *)
    (6, 6, 6); (5, 4, 4); (4, 2, 2); (3, 4, 4); (2, 2, 2); (1, 4, 4); (0, 6, 5); (7, 2, 2);
  (* sievingPrime % 30 == 1 *)
    (7, 6, 1); (0, 4, 0); (1, 2, 0); (2, 4, 0); (3, 2, 0); (4, 4, 0); (5, 6, 0); (6, 2, 0) ].

Definition strike (w : Z) : Z * Z * Z := nth (Z.to_nat w) strikes (0, 0, 0).

(** The unrolled loops at [case 0], [case 8], ..., [case 56]: the eight
    statements [p[sievingPrime * m + a] &= BITb] as triples [(m, a, b)], and
    the [r] of the increment [p += sievingPrime * 30 + r]. *)
Definition unrolled : list (list (Z * Z * Z) * Z) :=
  [ ([ (0, 0, 0); (6, 1, 4); (10, 2, 3); (12, 2, 7); (16, 3, 6); (18, 4, 2); (22, 5, 1); (28, 6, 5) ], 7);
    ([ (0, 0, 1); (6, 2, 3); (10, 3, 7); (12, 4, 5); (16, 6, 0); (18, 6, 6); (22, 8, 2); (28, 10, 4) ], 11);
    ([ (0, 0, 2); (6, 2, 7); (10, 4, 5); (12, 5, 4); (16, 7, 1); (18, 8, 0); (22, 9, 6); (28, 12, 3) ], 13);
    ([ (0, 0, 3); (6, 3, 6); (10, 6, 0); (12, 7, 1); (16, 9, 4); (18, 10, 5); (22, 12, 7); (28, 16, 2) ], 17);
    ([ (0, 0, 4); (6, 4, 2); (10, 6, 6); (12, 8, 0); (16, 10, 5); (18, 11, 7); (22, 14, 3); (28, 18, 1) ], 19);
    ([ (0, 0, 5); (6, 5, 1); (10, 8, 2); (12, 9, 6); (16, 12, 7); (18, 14, 3); (22, 17, 4); (28, 22, 0) ], 23);
    ([ (0, 0, 6); (6, 6, 5); (10, 10, 4); (12, 12, 3); (16, 16, 2); (18, 18, 1); (22, 22, 0); (28, 27, 7) ], 29);
    ([ (0, 0, 7); (6, 1, 0); (10, 1, 1); (12, 1, 2); (16, 1, 3); (18, 1, 4); (22, 1, 5); (28, 1, 6) ], 1) ].

Definition unrolled_loop (c : Z) : list (Z * Z * Z) * Z := nth (Z.to_nat c) unrolled ([], 0).

(** The case that control reaches after the strike of [case w]: the next
    label, or, after the last statement of the [for (;;)] body, the first
    label of the same body. *)
Definition next_case (w : Z) : Z := if w mod 8 =? 7 then w - 7 else w + 1.

(** The body of an unrolled loop: [p[sievingPrime * m + a] &= BITb], in order. *)
Fixpoint unrolled_body (sieve : list Z) (p sievingPrime : Z) (body : list (Z * Z * Z))
  : result (list Z) :=
  match body with
  | [] => Ok sieve
  | (m, a, b) :: rest =>
      s ← and_assign sieve (p + u64 (sievingPrime * m + a)) (BIT b);
      unrolled_body s p sievingPrime rest
  end.

(** The switch of the inner [crossOff(sieve, sieveEnd)] for one sieving prime, from
    the entry at [case w] to the [break] of [CHECK_FINISHED].  [sieve] is the
    array from [sieve] to [sieveEnd], [p] and [loopEnd] are offsets from its
    start.  The result is the array, [multipleIndex] and [wheelIndex]. *)
Fixpoint switch_loop (fuel : nat) (sievingPrime sieveEnd loopEnd : Z)
    (sieve : list Z) (p w : Z) : result (list Z * Z * Z) :=
  match fuel with
  | O => Err OutOfFuel
  | S fuel =>
      if (w mod 8 =? 0) && (p <? loopEnd) then
        let '(body, r) := unrolled_loop (w / 8) in
        s ← unrolled_body sieve p sievingPrime body;
        switch_loop fuel sievingPrime sieveEnd loopEnd s (p + u64 (sievingPrime * 30 + r)) w
      else if sieveEnd <=? p then
        (* CHECK_FINISHED(w) *)
        Ok (sieve, u64 (p - sieveEnd), w)
      else
        let '(b, m, a) := strike w in
        s ← and_assign sieve p (BIT b);
        switch_loop fuel sievingPrime sieveEnd loopEnd s (p + u64 (sievingPrime * m + a)) (next_case w)
  end.

(** The body of [for (auto& prime : primes_)].  [p = &sieve[multipleIndex]]
    is the 64-bit address [sieve + multipleIndex]: for an index below [2^63]
    it does not wrap, and [p] is the offset [multipleIndex]; an index of
    [2^63] or more is taken to wrap, to the offset [multipleIndex - 2^64]
    before the array, as the address does at [2^64 - 1] for every array and
    at the indexes from [2^64 - sieve] on in general. *)
Definition crossOff_prime (sieve : list Z) (prime : SievingPrime)
  : result (list Z * SievingPrime) :=
  let sievingPrime := getSievingPrime prime in
  let multipleIndex := getMultipleIndex prime in
  let wheelIndex := getWheelIndex prime in
  let sieveEnd := Z.of_nat (length sieve) in
  let maxLoopDist := u64 (sievingPrime * 28 + 27) in
  let loopEnd := Z.max sieveEnd (0 + maxLoopDist) - maxLoopDist in
  let p := if multipleIndex <? 2 ^ 63 then multipleIndex else multipleIndex - 2 ^ 64 in
  let fuel := Z.to_nat (8 * (sieveEnd + maxLoopDist) + 9) in
  '(s, multipleIndex, wheelIndex) ←
    switch_loop fuel sievingPrime sieveEnd loopEnd sieve p (Z.land wheelIndex 63);
  Ok (s, set prime multipleIndex wheelIndex).

(** The inner [crossOff(sieve, sieveEnd)]: every prime of [primes_] in
    turn, each record updated in place. *)
Fixpoint crossOff_inner (sieve : list Z) (primes : list SievingPrime)
  : result (list Z * list SievingPrime) :=
  match primes with
  | [] => Ok (sieve, [])
  | prime :: rest =>
      '(s, prime') ← crossOff_prime sieve prime;
      '(s', rest') ← crossOff_inner s rest;
      Ok (s', prime' :: rest')
  end.

(** Modelled from the spec: the class, declared in [EratSmall.hpp] and
    [Wheel.hpp], which are not part of the sources at hand.  The fields are
    those that [init] and [storeSievingPrime] write, and [stop_] for the
    parameter that [Wheel::init] records ("record parameters"). *)
Record t : Type := mk {
  enabled_ : bool;
  maxPrime_ : Z;
  l1CacheSize_ : Z;
  stop_ : Z;
  primes_ : list SievingPrime
}.

(** A default-constructed object, as in [EratSmall eratSmall;]. *)
Definition new : t := mk false 0 0 0 [].

(** [EratSmall::init]: the object after the call, and whether the call
    returned or threw.  [Wheel::init(stop, l1CacheSize)] records [stop].
    [primes_.reserve(primeCountApprox(maxPrime))] changes the capacity of the
    vector, which a list does not have, or throws when the memory for the
    records is not to be had: [reserves maxPrime] tells whether the
    environment of the call provides it ([primeCountApprox] is a function of
    [pmath.hpp], which is not part of the sources at hand).  By then the
    fields are written. *)
Definition init (reserves : Z -> bool) (e : t) (stop l1CacheSize maxPrime : Z)
  : t * result unit :=
  if maxPrime >? u64 (l1CacheSize * 3) then
    (e, Err (primesieve_error "EratSmall: maxPrime > l1CacheSize * 3"))
  else
    let e := mk true maxPrime l1CacheSize stop (primes_ e) in
    if reserves maxPrime then (e, Ok tt) else (e, Err bad_alloc).

(** [EratSmall::storeSievingPrime]; the [assert] is compiled out ([config.hpp]
    defines [NDEBUG]). *)
Definition storeSievingPrime (e : t) (prime multipleIndex wheelIndex : Z) : t :=
  let sievingPrime := prime / 30 in
  mk (enabled_ e) (maxPrime_ e) (l1CacheSize_ e) (stop_ e)
     (primes_ e ++ [mkSievingPrime sievingPrime multipleIndex wheelIndex]).

(** The bytes from [&sieve[i]] to [&sieve[e]] as an array of their own. *)
Definition view (sieve : list Z) (i e : Z) : result (list Z) :=
  if (0 <=? i) && (i <=? e) && (e <=? Z.of_nat (length sieve)) then
    Ok (take (Z.to_nat (e - i)) (drop (Z.to_nat i) sieve))
  else Err (OutOfBounds e).

(** The array with the bytes from index [i] on replaced by those of [seg]. *)
Definition write_back (sieve : list Z) (i : Z) (seg : list Z) : list Z :=
  take (Z.to_nat i) sieve ++ seg ++ drop (Z.to_nat i + length seg) sieve.

(** The loop of [crossOff(uint8_t* sieve, uint64_t sieveSize)]. *)
Fixpoint crossOff_loop (fuel : nat) (l1CacheSize : Z) (sieve : list Z) (sieveSize : Z)
    (primes : list SievingPrime) (i : Z) : result (list Z * list SievingPrime) :=
  match fuel with
  | O => Err OutOfFuel
  | S fuel =>
      if i <? sieveSize then
        let e := u64 (i + l1CacheSize) in
        let e := Z.min e sieveSize in
        seg ← view sieve i e;
        '(seg', primes') ← crossOff_inner seg primes;
        crossOff_loop fuel l1CacheSize (write_back sieve i seg') sieveSize primes'
          (u64 (i + l1CacheSize))
      else Ok (sieve, primes)
  end.

Definition crossOff (e : t) (sieve : list Z) (sieveSize : Z) : result (list Z * t) :=
  '(s, primes) ← crossOff_loop (S (Z.to_nat sieveSize)) (l1CacheSize_ e) sieve sieveSize
                   (primes_ e) 0;
  Ok (s, mk (enabled_ e) (maxPrime_ e) (l1CacheSize_ e) (stop_ e) primes).

(** Modelled from the spec: [crossOff(pod_vector<uint8_t>& sieve)], an
    inline function of [EratSmall.hpp], which is not part of the sources at
    hand: [crossOff(sieve, sieveSize)] with "sieveSize = sieve.len". *)
Definition crossOff_vector (e : t) (sieve : list Z) : result (list Z * t) :=
  crossOff e sieve (Z.of_nat (length sieve)).

End EratSmall.

(** ** Wheel *)

Module Wheel.

(** The residue of the prime modulo 30 of each of the eight [for (;;)] bodies
    of the switch of [EratSmall::crossOff], in the order of the bodies (the
    comments [sievingPrime % 30 == 7] and the increments
    [p += sievingPrime * 30 + 7] of the source). *)
Definition families : list Z := [7; 11; 13; 17; 19; 23; 29; 1].

Definition coprime30 (q : Z) : bool :=
  negb (q mod 2 =? 0) && negb (q mod 3 =? 0) && negb (q mod 5 =? 0).

(** The least integer from [q] on that is coprime to 30, among [fuel + 1]
    candidates. *)
Fixpoint next_coprime (fuel : nat) (q : Z) : Z :=
  match fuel with
  | O => q
  | S fuel => if coprime30 q then q else next_coprime fuel (q + 1)
  end.

Fixpoint index_of (x : Z) (l : list Z) : Z :=
  match l with
  | [] => 0
  | y :: l => if x =? y then 0 else 1 + index_of x l
  end.

(** The bits that the eight cases of family [f] clear, in the order of the
    cases. *)
Definition family_bits (f : Z) : list Z :=
  map (fun k => (EratSmall.strike (8 * f + k)).1.1) [0; 1; 2; 3; 4; 5; 6; 7].

(** Modelled from the spec: [Wheel::addSievingPrime] of [Wheel.hpp], which is
    not part of the sources at hand.  "Given (prime, segmentLow), return
    (multipleIndex, wheelIndex) such that segmentLow + 30·multipleIndex +
    residue(wheelIndex) is the least multiple of prime >= segmentLow that is
    coprime to 30", where the top three bits of wheelIndex select the family
    (the residue of the prime modulo 30) and [residue(wheelIndex)] is the
    integer offset of the bit that the case [wheelIndex] clears.  The offsets
    of the bits are those of the layout of the code, 7 .. 31, so that the
    least multiple that a segment can hold is the least one from
    [segmentLow + 7] on. *)
Definition addSievingPrime (e : EratSmall.t) (prime segmentLow : Z) : EratSmall.t :=
  let quotient := next_coprime 6 ((segmentLow + 6) / prime + 1) in
  let multiple := prime * quotient in
  let multipleIndex := (multiple - segmentLow - 7) / 30 in
  let bit := index_of (multiple - segmentLow - 30 * multipleIndex) bitValues in
  let family := index_of (prime mod 30) families in
  let wheelIndex := 8 * family + index_of bit (family_bits family) in
  EratSmall.storeSievingPrime e prime multipleIndex wheelIndex.

End Wheel.

(** ** PreSieve *)

Module PreSieve.

(** Pre-sieve with the primes <= 13 *)
Definition buffer_7_11_13 : list Z :=
[
  0xf8; 0xef; 0x77; 0x3f; 0xdb; 0xed; 0x9e; 0xfc; 0xea; 0x37;
  0xaf; 0xf9; 0xf5; 0xd3; 0x7e; 0x4f; 0x77; 0x9e; 0xeb; 0xf9;
  0xdd; 0xee; 0xad; 0x77; 0xb7; 0x73; 0xd9; 0xdf; 0x3e; 0xef;
  0x53; 0xaf; 0xeb; 0xfd; 0xde; 0xb6; 0x6f; 0x57; 0xb7; 0xba;
  0xfd; 0x5b; 0xfe; 0xcf; 0x65; 0xbf; 0xf1; 0x7c; 0x9f; 0xfe;
  0xae; 0x77; 0xbb; 0xfb; 0x6d; 0xdd; 0xde; 0xe7; 0x77; 0x9d;
  0xfa; 0xbc; 0xdf; 0xfa; 0xe7; 0x63; 0xbd; 0x7b; 0xf5; 0x5f;
  0xce; 0xef; 0x34; 0xbe; 0xbb; 0xfd; 0xcf; 0xf4; 0xeb; 0x77;
  0x3f; 0xdb; 0xdd; 0x8e; 0xfe; 0xe9; 0x76; 0xaf; 0xf9; 0xfd;
  0xd7; 0x7a; 0xcf; 0x77; 0xbe; 0xdb; 0xe9; 0xdf; 0xec; 0xec;
  0x37; 0xb7; 0x7b; 0xd5; 0xdb; 0xbe; 0x6f; 0x73; 0x9f; 0xeb;
  0xfd; 0xdd; 0xf6; 0x2f; 0x57; 0xbf; 0xb2; 0xf9; 0xdb; 0x7e;
  0xef; 0x55; 0xaf; 0xf3; 0x7d; 0xde; 0xbe; 0xae; 0x77; 0xb3;
  0xfb; 0xed; 0x5d; 0xfe; 0xc7; 0x67; 0x9f; 0xf9; 0xbc; 0x9f;
  0xfa; 0xef; 0x67; 0xb9; 0xfb; 0x75; 0x5f; 0xde; 0xef; 0x36;
  0xbd; 0xfa; 0xbd; 0xcf; 0xfc; 0xe7; 0x73; 0x3f; 0x5b; 0xfd;
  0x9e; 0xee; 0xeb; 0x75; 0xae; 0xb9; 0xfd; 0xd7; 0x76; 0xcb;
  0x77; 0x3e; 0xfb; 0xd9; 0xcf; 0xee; 0xed; 0x76; 0xb7; 0x7b;
  0xdd; 0xd7; 0xba; 0xef; 0x73; 0xbf; 0xcb; 0xed; 0xdf; 0xf4;
  0x6e; 0x17; 0xbf; 0xba; 0xf5; 0xdb; 0xfe; 0x6f; 0x75; 0x9f;
  0xe3; 0x7d; 0xdd; 0xfe; 0xae; 0x77; 0xbb; 0xf3; 0xe9; 0xdd;
  0x7e; 0xe7; 0x57; 0x8f; 0xfb; 0xbc; 0xde; 0xba; 0xef; 0x67;
  0xb5; 0xfb; 0xf5; 0x5f; 0xde; 0xcf; 0x26; 0xbf; 0xf9; 0xfc;
  0x8f; 0xfc; 0xef; 0x77; 0x3b; 0xdb; 0x7d; 0x9e; 0xde; 0xeb;
  0x77; 0xad; 0xf8; 0xbd; 0xd7; 0x7e; 0xc7; 0x73; 0xbe; 0x7b;
  0xf9; 0xdf; 0xee; 0xed; 0x75; 0xb6; 0x3b; 0xdd; 0xdf; 0xb6;
  0xeb; 0x73; 0x3f; 0xeb; 0xdd; 0xcf; 0xf6; 0x6d; 0x56; 0xbf;
  0xba; 0xfd; 0xd3; 0xfa; 0xef; 0x75; 0xbf; 0xd3; 0x6d; 0xdf;
  0xfc; 0xae; 0x37; 0xbb; 0xfb; 0xe5; 0xd9; 0xfe; 0x67; 0x77;
  0x9f; 0xeb; 0xbc; 0xdd; 0xfa; 0xaf; 0x67; 0xbd; 0xf3; 0xf1;
  0x5f; 0x5e; 0xef; 0x16; 0xaf; 0xfb; 0xfd; 0xce; 0xbc; 0xef;
  0x77; 0x37; 0xdb; 0xfd; 0x1e; 0xfe; 0xcb; 0x67; 0xaf; 0xf9;
  0xfc; 0x97; 0x7e; 0xcf; 0x77; 0xba; 0xfb; 0x79; 0xdf; 0xce;
  0xed; 0x77; 0xb5; 0x7a; 0x9d; 0xdf; 0xbe; 0xe7; 0x73; 0xbf;
  0x6b; 0xfd; 0xdf; 0xe6; 0x6f; 0x55; 0xbe; 0xba; 0xfd; 0xdb;
  0xf6; 0xeb; 0x75; 0x3f; 0xf3; 0x5d; 0xcf; 0xfe; 0xac; 0x76;
  0xbb; 0xfb; 0xed; 0xd5; 0xfa; 0xe7; 0x77; 0x9f; 0xdb; 0xac;
  0xdf; 0xf8; 0xee; 0x27; 0xbd; 0xfb; 0xf5; 0x5b; 0xde; 0x6f;
  0x36; 0x9f; 0xeb; 0xfd; 0xcd; 0xfc; 0xaf; 0x77; 0x3f; 0xd3;
  0xf9; 0x9e; 0x7e; 0xeb; 0x57; 0xaf; 0xf9; 0xfd; 0xd6; 0x3e;
  0xcf; 0x77; 0xb6; 0xfb; 0xf9; 0x5f; 0xee; 0xcd; 0x67; 0xb7;
  0x79; 0xdc; 0x9f; 0xbe; 0xef; 0x73; 0xbb; 0xeb; 0x7d; 0xdf;
  0xd6; 0x6f; 0x57; 0xbd; 0xba; 0xbd; 0xdb; 0xfe; 0xe7; 0x71;
  0xbf; 0x73; 0x7d; 0xdf; 0xee; 0xae; 0x75; 0xba; 0xbb; 0xed;
  0xdd; 0xf6; 0xe3; 0x77; 0x1f; 0xfb; 0x9c; 0xcf; 0xfa; 0xed;
  0x66; 0xbd; 0xfb; 0xf5; 0x57; 0xda; 0xef; 0x36; 0xbf; 0xdb;
  0xed; 0xcf; 0xfc; 0xee; 0x37; 0x3f; 0xdb; 0xf5; 0x9a; 0xfe;
  0x6b; 0x77; 0x8f; 0xe9; 0xfd; 0xd5; 0x7e; 0x8f; 0x77; 0xbe;
  0xf3; 0xf9; 0xdf; 0x6e; 0xed; 0x57; 0xa7; 0x7b; 0xdd; 0xde;
  0xbe; 0xef; 0x73; 0xb7; 0xeb; 0xfd; 0x5f; 0xf6; 0x4f; 0x47;
  0xbf; 0xb8; 0xfc; 0x9b; 0xfe; 0xef; 0x75; 0xbb; 0xf3; 0x7d;
  0xdf; 0xde; 0xae; 0x77; 0xb9; 0xfa; 0xad; 0xdd; 0xfe; 0xe7;
  0x73; 0x9f; 0x7b; 0xbc; 0xdf; 0xea; 0xef; 0x65; 0xbc; 0xbb;
  0xf5; 0x5f; 0xd6; 0xeb; 0x36; 0x3f; 0xfb; 0xdd; 0xcf; 0xfc;
  0xed; 0x76; 0x3f; 0xdb; 0xfd; 0x96; 0xfa; 0xeb; 0x77; 0xaf;
  0xd9; 0xed; 0xd7; 0x7c; 0xce; 0x37; 0xbe; 0xfb; 0xf1; 0xdb;
  0xee; 0x6d; 0x77; 0x97; 0x6b; 0xdd; 0xdd; 0xbe; 0xaf; 0x73;
  0xbf; 0xe3; 0xf9; 0xdf; 0x76; 0x6f; 0x57; 0xaf; 0xba; 0xfd;
  0xda; 0xbe; 0xef; 0x75; 0xb7; 0xf3; 0x7d; 0x5f; 0xfe; 0x8e;
  0x67; 0xbb; 0xf9; 0xec; 0x9d; 0xfe; 0xe7; 0x77; 0x9b; 0xfb;
  0x3c; 0xdf; 0xda; 0xef; 0x67; 0xbd; 0xfa; 0xb5; 0x5f; 0xde;
  0xe7; 0x32; 0xbf; 0x7b; 0xfd; 0xcf; 0xec; 0xef; 0x75; 0x3e;
  0x9b; 0xfd; 0x9e; 0xf6; 0xeb; 0x77; 0x2f; 0xf9; 0xdd; 0xc7;
  0x7e; 0xcd; 0x76; 0xbe; 0xfb; 0xf9; 0xd7; 0xea; 0xed; 0x77;
  0xb7; 0x5b; 0xcd; 0xdf; 0xbc; 0xee; 0x33; 0xbf; 0xeb; 0xf5;
  0xdb; 0xf6; 0x6f; 0x57; 0x9f; 0xaa; 0xfd; 0xd9; 0xfe; 0xaf;
  0x75; 0xbf; 0xf3; 0x79; 0xdf; 0x7e; 0xae; 0x57; 0xab; 0xfb;
  0xed; 0xdc; 0xbe; 0xe7; 0x77; 0x97; 0xfb; 0xbc; 0x5f; 0xfa;
  0xcf; 0x67; 0xbd; 0xf9; 0xf4; 0x1f; 0xde; 0xef; 0x36; 0xbb;
  0xfb; 0x7d; 0xcf; 0xdc; 0xef; 0x77; 0x3d; 0xda; 0xbd; 0x9e;
  0xfe; 0xe3; 0x73; 0xaf; 0x79; 0xfd; 0xd7; 0x6e; 0xcf; 0x75;
  0xbe; 0xbb; 0xf9; 0xdf; 0xe6; 0xe9; 0x77; 0x37; 0x7b; 0xdd;
  0xcf; 0xbe; 0xed; 0x72; 0xbf; 0xeb; 0xfd; 0xd7; 0xf2; 0x6f;
  0x57; 0xbf; 0x9a; 0xed; 0xdb; 0xfc; 0xee; 0x35; 0xbf; 0xf3;
  0x75; 0xdb; 0xfe; 0x2e; 0x77; 0x9b; 0xeb; 0xed; 0xdd; 0xfe;
  0xa7; 0x77; 0x9f; 0xf3; 0xb8; 0xdf; 0x7a; 0xef; 0x47; 0xad;
  0xfb; 0xf5; 0x5e; 0x9e; 0xef; 0x36; 0xb7; 0xfb; 0xfd; 0x4f;
  0xfc; 0xcf; 0x67; 0x3f; 0xd9; 0xfc; 0x9e; 0xfe; 0xeb; 0x77;
  0xab; 0xf9; 0x7d; 0xd7; 0x5e; 0xcf; 0x77; 0xbc; 0xfa; 0xb9;
  0xdf; 0xee; 0xe5; 0x73; 0xb7; 0x7b; 0xdd; 0xdf; 0xae; 0xef;
  0x71; 0xbe; 0xab; 0xfd; 0xdf; 0xf6; 0x6b; 0x57; 0x3f; 0xba;
  0xdd; 0xcb; 0xfe; 0xed; 0x74; 0xbf; 0xf3; 0x7d; 0xd7; 0xfa;
  0xae; 0x77; 0xbb; 0xdb; 0xed; 0xdd; 0xfc; 0xe6; 0x37; 0x9f;
  0xfb; 0xb4; 0xdb; 0xfa; 0x6f; 0x67; 0x9d; 0xeb; 0xf5; 0x5d;
  0xde; 0xaf; 0x36; 0xbf; 0xf3; 0xf9; 0xcf; 0x7c; 0xef; 0x57;
  0x2f; 0xdb; 0xfd; 0x9e; 0xbe; 0xeb; 0x77; 0xa7; 0xf9; 0xfd;
  0x57; 0x7e; 0xcf; 0x67; 0xbe; 0xf9; 0xf8; 0x9f; 0xee; 0xed;
  0x77; 0xb3; 0x7b; 0x5d; 0xdf; 0x9e; 0xef; 0x73; 0xbd; 0xea;
  0xbd; 0xdf; 0xf6; 0x67; 0x53; 0xbf; 0x3a; 0xfd; 0xdb; 0xee;
  0xef; 0x75; 0xbe; 0xb3; 0x7d; 0xdf; 0xf6; 0xaa; 0x77; 0x3b;
  0xfb; 0xcd; 0xcd; 0xfe; 0xe5; 0x76; 0x9f; 0xfb; 0xbc; 0xd7;
  0xfa; 0xef; 0x67; 0xbd; 0xdb; 0xe5; 0x5f; 0xdc; 0xee; 0x36;
  0xbf; 0xfb; 0xf5; 0xcb; 0xfc; 0x6f; 0x77; 0x1f; 0xcb; 0xfd;
  0x9c; 0xfe; 0xab; 0x77; 0xaf; 0xf1; 0xf9; 0xd7; 0x7e; 0xcf;
  0x57; 0xae; 0xfb; 0xf9; 0xde; 0xae; 0xed; 0x77; 0xb7; 0x7b;
  0xdd; 0x5f; 0xbe; 0xcf; 0x63; 0xbf; 0xe9; 0xfc; 0x9f; 0xf6;
  0x6f; 0x57; 0xbb; 0xba; 0x7d; 0xdb; 0xde; 0xef; 0x75; 0xbd;
  0xf2; 0x3d; 0xdf; 0xfe; 0xa6; 0x73; 0xbb; 0x7b; 0xed; 0xdd;
  0xee; 0xe7; 0x75; 0x9e; 0xbb; 0xbc; 0xdf; 0xf2; 0xeb; 0x67;
  0x3d; 0xfb; 0xd5; 0x4f; 0xde; 0xed; 0x36; 0xbf; 0xfb; 0xfd;
  0xc7
].

(** Pre-sieve with the primes < 100 *)
Definition bufferPrimes : list (list Z) :=
  [ [  7; 67; 71 ];
    [ 11; 41; 73 ];
    [ 13; 43; 59 ];
    [ 17; 37; 53 ];
    [ 19; 29; 61 ];
    [ 23; 31; 47 ];
        [ 79; 97 ];
        [ 83; 89 ] ].

(** Each byte represents an interval of 30 integers *)
Definition buffersDist : Z :=
  ( 7 * 67 * 71) * 30 +
  (11 * 41 * 73) * 30 +
  (13 * 43 * 59) * 30 +
  (17 * 37 * 53) * 30 +
  (19 * 29 * 61) * 30 +
  (23 * 31 * 47) * 30 +
       (79 * 97) * 30 +
       (83 * 89) * 30.

(** Modelled from the spec: the class, declared in [PreSieve.hpp], which is
    not part of the sources at hand: "eight byte buffers", "a cumulative
    totalDist counter", and the [maxPrime_] that [initBuffers] writes. *)
Record t : Type := mk {
  buffers_ : list (list Z);
  totalDist_ : Z;
  maxPrime_ : Z
}.

(** [buffers_[i]] *)
Definition buffer (ps : t) (i : nat) : list Z := default [] (buffers_ ps !! i).

Definition size (v : list Z) : Z := Z.of_nat (length v).

(** [buf1[i] & buf2[i] & ... & buf8[i]], each [bufk] the pointer
    [&buffers_[k][pos[k]]]; the AND of no byte is the integer with all bits
    set. *)
Fixpoint and_at (bufs : list (list Z)) (pos : list Z) (i : Z) : result Z :=
  match bufs, pos with
  | buf :: bufs, p :: pos =>
      x ← load buf (p + i);
      y ← and_at bufs pos i;
      Ok (Z.land x y)
  | _, _ => Ok (-1)
  end.

(** The loop of [andBuffers], [count] iterations from [i] on; [output] is the
    pointer [&sieve[offset]]. *)
Fixpoint andBuffers_loop (count : nat) (bufs : list (list Z)) (pos : list Z)
    (sieve : list Z) (offset i : Z) : result (list Z) :=
  match count with
  | O => Ok sieve
  | S count =>
      x ← and_at bufs pos i;
      s ← store sieve (offset + i) x;
      andBuffers_loop count bufs pos s offset (i + 1)
  end.

Definition andBuffers (bufs : list (list Z)) (pos : list Z) (sieve : list Z)
    (offset bytes : Z) : result (list Z) :=
  andBuffers_loop (Z.to_nat bytes) bufs pos sieve offset 0.

(** [std::copy_n(&src[from], count, &dst[to])] *)
Definition copy_n (src : list Z) (from count : Z) (dst : list Z) (to : Z) : result (list Z) :=
  if (0 <=? from) && (0 <=? count) && (from + count <=? size src) then
    if (0 <=? to) && (to + count <=? size dst) then
      Ok (take (Z.to_nat to) dst ++ take (Z.to_nat count) (drop (Z.to_nat from) src)
            ++ drop (Z.to_nat (to + count)) dst)
    else Err (OutOfBounds (to + count))
  else Err (OutOfBounds (from + count)).

(** The [for] loop of [preSieveSmall]; the result is the array and [i]. *)
Fixpoint preSieveSmall_loop (fuel : nat) (buffer sieve : list Z) (i : Z)
  : result (list Z * Z) :=
  match fuel with
  | O => Err OutOfFuel
  | S fuel =>
      if u64 (i + size buffer) <? size sieve then
        s ← copy_n buffer 0 (size buffer) sieve i;
        preSieveSmall_loop fuel buffer s (u64 (i + size buffer))
      else Ok (sieve, i)
  end.

(** Pre-sieve with the primes <= 13 *)
Definition preSieveSmall (sieve : list Z) (segmentLow : Z) : result (list Z) :=
  let size_ := size buffer_7_11_13 in
  let primeProduct := u64 (size_ * 30) in
  let i := (segmentLow mod primeProduct) / 30 in
  let sizeLeft := u64 (size_ - i) in
  let buffer := buffer_7_11_13 in
  if size sieve <=? sizeLeft then
    copy_n buffer i (size sieve) sieve 0
  else
    (* Copy the last remaining bytes of buffer
       to the beginning of the sieve array *)
    s ← copy_n buffer i sizeLeft sieve 0;
    (* Restart copying at the beginning of buffer *)
    '(s, i) ← preSieveSmall_loop (length sieve) buffer s sizeLeft;
    (* Copy the last remaining bytes *)
    copy_n buffer 0 (u64 (size s - i)) s i.

(** [pos[i] = (segmentLow % (buffers_[i].size() * 30)) / 30]; the remainder of
    a division by zero is undefined behaviour, reported as out of bounds. *)
Fixpoint initial_pos (bufs : list (list Z)) (segmentLow : Z) : result (list Z) :=
  match bufs with
  | [] => Ok []
  | buf :: bufs =>
      if u64 (size buf * 30) =? 0 then Err (OutOfBounds 0)
      else
        pos ← initial_pos bufs segmentLow;
        Ok ((segmentLow mod u64 (size buf * 30)) / 30 :: pos)
  end.

(** [for (i ...) bytesToCopy = std::min(buffers_[i].size() - pos[i], bytesToCopy)] *)
Fixpoint min_left (bufs : list (list Z)) (pos : list Z) (bytesToCopy : Z) : Z :=
  match bufs, pos with
  | buf :: bufs, p :: pos =>
      let left := u64 (size buf - p) in
      min_left bufs pos (Z.min left bytesToCopy)
  | _, _ => bytesToCopy
  end.

(** [for (i ...) { pos[i] += bytesToCopy; if (pos[i] >= buffers_[i].size()) pos[i] = 0; }] *)
Fixpoint advance_pos (bufs : list (list Z)) (pos : list Z) (bytesToCopy : Z) : list Z :=
  match bufs, pos with
  | buf :: bufs, p :: pos =>
      let p := u64 (p + bytesToCopy) in
      (if p >=? size buf then 0 else p) :: advance_pos bufs pos bytesToCopy
  | _, _ => []
  end.

(** One iteration of the [while] loop of [preSieveLarge], on the state
    [(sieve, offset, pos)]. *)
Definition preSieveLarge_step (bufs : list (list Z)) (st : list Z * Z * list Z)
  : result (list Z * Z * list Z) :=
  let '(sieve, offset, pos) := st in
  let bytesToCopy := u64 (size sieve - offset) in
  let bytesToCopy := min_left bufs pos bytesToCopy in
  s ← andBuffers bufs pos sieve offset bytesToCopy;
  Ok (s, u64 (offset + bytesToCopy), advance_pos bufs pos bytesToCopy).

Fixpoint preSieveLarge_loop (fuel : nat) (bufs : list (list Z)) (st : list Z * Z * list Z)
  : result (list Z) :=
  match fuel with
  | O => Err OutOfFuel
  | S fuel =>
      if st.1.2 <? size st.1.1 then
        st' ← preSieveLarge_step bufs st;
        preSieveLarge_loop fuel bufs st'
      else Ok st.1.1
  end.

(** Pre-sieve with the primes < 100 *)
Definition preSieveLarge (ps : t) (sieve : list Z) (segmentLow : Z) : result (list Z) :=
  let offset := 0 in
  pos ← initial_pos (buffers_ ps) segmentLow;
  preSieveLarge_loop (S (length sieve)) (buffers_ ps) (sieve, offset, pos).

(** [if (cond) sieve[i++] = v;] *)
Definition store_if (cond : bool) (v : Z) (st : list Z * Z) : result (list Z * Z) :=
  let '(sieve, i) := st in
  if cond then s ← store sieve i v; Ok (s, i + 1) else Ok (sieve, i).

Definition preSieve (ps : t) (sieve : list Z) (segmentLow : Z) : result (list Z) :=
  sieve ← (if bool_decide (buffer ps 0 = []) then preSieveSmall sieve segmentLow
           else preSieveLarge ps sieve segmentLow);
  (* Pre-sieving removes the primes < 100. We
     have to undo that work and reset these bits
     to 1 (but 49 = 7 * 7 is not a prime). *)
  let bit49 := Z.shiftl 1 4 in
  let bit77 := Z.shiftl 1 3 in
  let bit91 := Z.shiftl 1 7 in
  let bit119 := Z.shiftl 1 6 in
  let bit121 := Z.shiftl 1 7 in
  let i := 0 in
  st ← store_if (segmentLow <? 30) 0xff (sieve, i);
  st ← store_if (segmentLow <? 60) (Z.lxor 0xff bit49) st;
  st ← store_if (segmentLow <? 90) (Z.lxor (Z.lxor 0xff bit77) bit91) st;
  st ← store_if (segmentLow <? 120) (Z.lxor (Z.lxor 0xff bit119) bit121) st;
  Ok st.1.

(** The body of the loop of [initBuffers] for the primes of one buffer: the
    buffer and [maxPrime].  The allocations of the body, [resize] and the
    [reserve] of [eratSmall.init] for the records of at most three primes,
    are taken to succeed. *)
Definition initBuffer (primes : list Z) : result (list Z * Z) :=
  let product := fold_left (fun product prime => u64 (product * prime)) primes 30 in
  let start := product in
  let stop := u64 (start + product) in
  let buf := replicate (Z.to_nat (product / 30)) 0xff in
  let maxPrime := List.last primes 0 in
  let '(eratSmall, thrown) :=
    EratSmall.init (fun _ => true) EratSmall.new stop (size buf) maxPrime in
  _ ← thrown;
  let eratSmall :=
    fold_left (fun e prime => Wheel.addSievingPrime e prime start) primes eratSmall in
  '(buf, _) ← EratSmall.crossOff_vector eratSmall buf;
  Ok (buf, maxPrime).

Fixpoint initBuffers_loop (i : nat) (todo : list (list Z)) (ps : t) : result t :=
  match todo with
  | [] => Ok ps
  | primes :: todo =>
      '(buf, maxPrime) ← initBuffer primes;
      initBuffers_loop (S i) todo
        (mk (<[i := buf]> (buffers_ ps)) (totalDist_ ps) (Z.max (maxPrime_ ps) maxPrime))
  end.

(** We are sieving a large interval, we have to
    initialize all pre-sieve buffers. *)
Definition initBuffers (ps : t) : result t :=
  initBuffers_loop 0 bufferPrimes ps.

(** [(double) x] for a [uint64_t]: [x] rounded to 53 significant bits, to
    the nearest, ties to the even significand. *)
Definition to_double (x : Z) : Z :=
  let e := Z.log2 x - 52 in
  if e <=? 0 then x
  else
    let q := Z.shiftr x e in
    let r := Z.land x (Z.ones e) in
    let half := Z.shiftl 1 (e - 1) in
    let q := if (half <? r) || ((r =? half) && Z.odd q) then q + 1 else q in
    Z.shiftl q e.

(** [(uint64_t) std::sqrt(stop)]: [stop] converted to a [double], the
    square root of the [double] rounded to the nearest [double], and the
    integer part of that.  With [f] the number of bits of the significand of
    the root below the binary point, the significand is the integer nearest
    to the square root of the integer [d * 4^f]; that square root is an
    integer or irrational, so that there is no tie. *)
Definition uint64_sqrt (stop : Z) : Z :=
  let d := to_double stop in
  if d =? 0 then 0
  else
    let f := 52 - Z.log2 (Z.sqrt d) in
    let x := d * 4 ^ f in
    let r := Z.sqrt x in
    let m := if x - r * r >? r then r + 1 else r in
    Z.shiftr m f.

(** [PreSieve::init]. *)
Definition init (ps : t) (start stop : Z) : result t :=
  (* Already initialized *)
  if negb (bool_decide (buffer ps 0 = [])) then Ok ps
  else
    let dist := u64 (Z.max start stop - start) in
    let sqrtStop := uint64_sqrt stop in
    let dist := Z.max dist sqrtStop in
    let ps := mk (buffers_ ps) (u64 (totalDist_ ps + dist)) (maxPrime_ ps) in
    if totalDist_ ps <? u64 (buffersDist * 20) then Ok ps
    else initBuffers ps.

End PreSieve.

(** * Specification-level definitions *)

(** ** Strike sequences *)

(** [clear s i b]: the array [s] with bit [b] of the byte at [i] cleared. *)
Definition clear (s : list Z) (i b : Z) : list Z :=
  match s !! Z.to_nat i with
  | Some x => <[Z.to_nat i := Z.land x (BIT b)]> s
  | None => s
  end.

(** The strike sequence of one sieving prime over an array of [n] bytes, one
    strike at a time: from the pending strike at offset [p] in case [w] to
    the first pending strike at or beyond the end. *)
Inductive strikes_to (sp n : Z) : Z -> Z -> list Z -> list Z * Z * Z -> Prop :=
| strikes_done p w s :
    n <= p -> strikes_to sp n p w s (s, p - n, w)
| strikes_step p w s b m a r :
    p < n ->
    EratSmall.strike w = (b, m, a) ->
    strikes_to sp n (p + (sp * m + a)) (EratSmall.next_case w) (clear s p b) r ->
    strikes_to sp n p w s r.

(** A record as [storeSievingPrime] and [CHECK_FINISHED] leave it: the three
    fields are [uint64_t] values, the prime that the record stands for,
    [30 * sievingPrime + 29] at most, is one too, and [multipleIndex] is
    below [2^63], so that the address [sieve + multipleIndex] does not
    wrap. *)
Definition stored (prime : SievingPrime) : Prop :=
  0 <= getSievingPrime prime /\ getSievingPrime prime * 30 + 29 < 2 ^ 64 /\
  0 <= getMultipleIndex prime < 2 ^ 63 /\
  0 <= getWheelIndex prime.

(** ** The tables of the switch *)

(** The statement of the unrolled loop that belongs to [case w], and the
    increment of that loop. *)
Definition in_body (w : Z) : Z * Z * Z :=
  nth (Z.to_nat (w mod 8)) (EratSmall.unrolled_loop (w / 8)).1 (0, 0, 0).
Definition family_residue (w : Z) : Z := (EratSmall.unrolled_loop (w / 8)).2.

(** The offset of the strike of [case w] from the first strike of its
    revolution. *)
Definition cum (sp w : Z) : Z := sp * (in_body w).1.1 + (in_body w).1.2.

(** The check of [case w]: the strike of the case is the statement of the
    unrolled loop of its family, the advances add up to the offsets of the
    unrolled loop, and the strikes agree with the layout of the bits. *)
Definition case_ok (w : Z) : bool :=
  let '(b, m, a) := EratSmall.strike w in
  let '(M, A, b2) := in_body w in
  let r := family_residue w in
  let w' := EratSmall.next_case w in
  let '(b', _, _) := EratSmall.strike w' in
  let '(M', A', _) := in_body w' in
  (0 <=? b) && (b <? 8) && (b2 =? b) && (2 <=? m) && (m <=? 6) && (0 <=? a) && (a <=? 6)
  && (0 <=? M) && (M <=? 28) && (0 <=? A) && (A <=? 27)
  && (0 <=? w') && (w' <? 64) && (w' / 8 =? w / 8)
  && (1 <=? r) && (r <=? 29) && (nth (Z.to_nat (w / 8)) Wheel.families 0 =? r)
  && (if w mod 8 =? 7
      then (M + m =? 30) && (A + a =? r) && (M' =? 0) && (A' =? 0) && (w' mod 8 =? 0)
      else (M' =? M + m) && (A' =? A + a) && (w' mod 8 =? w mod 8 + 1))
  && (bit_value b + r * m =? 30 * a + bit_value b')
  && ((r * (1 + M)) mod 30 =? bit_value b mod 30)
  && (nth (Z.to_nat (w mod 8)) spec_residues 0 =? 1 + M)
  && (negb (w mod 8 =? 0) || ((M =? 0) && (A =? 0)))
  && Wheel.coprime30 (1 + M) && (0 <=? M') && (M' <=? 28) && (0 <=? A') && (A' <=? 27)
  && forallb (fun d => (m <=? d) || negb (Wheel.coprime30 (1 + M + d))) [1; 2; 3; 4; 5].

(** What [case_ok] checks, as propositions. *)
Record case_facts (w b m a M A r b' M' A' : Z) : Prop := {
  cf_bit : 0 <= b < 8;
  cf_mul : 2 <= m <= 6;
  cf_add : 0 <= a <= 6;
  cf_M : 0 <= M <= 28;
  cf_A : 0 <= A <= 27;
  cf_next : 0 <= EratSmall.next_case w < 64;
  cf_family : EratSmall.next_case w / 8 = w / 8;
  cf_r : 1 <= r <= 29;
  cf_families : nth (Z.to_nat (w / 8)) Wheel.families 0 = r;
  cf_cum : (w mod 8 = 7 /\ M + m = 30 /\ A + a = r /\ M' = 0 /\ A' = 0
            /\ EratSmall.next_case w mod 8 = 0)
           \/ (w mod 8 <> 7 /\ M' = M + m /\ A' = A + a
               /\ EratSmall.next_case w mod 8 = w mod 8 + 1);
  cf_value : bit_value b + r * m = 30 * a + bit_value b';
  cf_residue : (r * (1 + M)) mod 30 = bit_value b mod 30;
  cf_quotient : nth (Z.to_nat (w mod 8)) spec_residues 0 = 1 + M;
  cf_first : w mod 8 = 0 -> M = 0 /\ A = 0;
  cf_coprime : Wheel.coprime30 (1 + M) = true;
  cf_M' : 0 <= M' <= 28;
  cf_A' : 0 <= A' <= 27;
  cf_gap : forall d, 1 <= d < m -> Wheel.coprime30 (1 + M + d) = false
}.

(** The array after the statements of an unrolled loop. *)
Fixpoint clear_all (s : list Z) (p sp : Z) (body : list (Z * Z * Z)) : list Z :=
  match body with
  | [] => s
  | (m, a, b) :: rest => clear_all (clear s (p + (sp * m + a)) b) p sp rest
  end.

(** ** Strikes and the integers of a segment *)

(** The prime of a record with [sievingPrime = sp], from the family of its
    case [w]. *)
Definition prime_of (sp w : Z) : Z := 30 * sp + family_residue w.

(** In a segment that starts at the integer [base], the pending strike at
    offset [p] in case [w] is the strike of the multiple [prime * q]. *)
Definition designates (base sp p w q : Z) : Prop :=
  prime_of sp w * q = base + 30 * p + bit_value (EratSmall.strike w).1.1 /\
  q mod 30 = 1 + (in_body w).1.1.

(** [prime * q] is the least multiple of [prime] from [lo] on whose quotient
    is coprime to 30. *)
Definition first_multiple (prime lo q : Z) : Prop :=
  Wheel.coprime30 q = true /\ lo <= prime * q /\
  forall x, Wheel.coprime30 x = true -> lo <= prime * x -> q <= x.

(** ** The checks of the Wheel *)

(** The check of the case that [addSievingPrime] chooses, for a prime and a
    quotient of given residues modulo 30. *)
Definition wheel_index_ok (pr qr : Z) : bool :=
  negb (Wheel.coprime30 pr && Wheel.coprime30 qr)
  || (let res := 7 + (pr * qr - 7) mod 30 in
      let bit := Wheel.index_of res bitValues in
      let family := Wheel.index_of pr Wheel.families in
      let w := 8 * family + Wheel.index_of bit (Wheel.family_bits family) in
      (bit_value bit =? res) && (0 <=? w) && (w <? 64) && (family_residue w =? pr)
      && ((EratSmall.strike w).1.1 =? bit) && (1 + (in_body w).1.1 =? qr)).

(** The check of [next_coprime] from a residue modulo 30 on. *)
Definition next_coprime_ok (r : Z) : bool :=
  let d := Wheel.next_coprime 6 r - r in
  (0 <=? d) && (d <=? 5) && Wheel.coprime30 (r + d)
  && forallb (fun e => (d <=? e) || negb (Wheel.coprime30 (r + e))) [0; 1; 2; 3; 4].

(** ** Records *)

(** The case that the switch enters for a record. *)
Definition case_of (prime : SievingPrime) : Z := Z.land (getWheelIndex prime) 63.

(** The prime that a record stands for. *)
Definition prime_value (prime : SievingPrime) : Z :=
  prime_of (getSievingPrime prime) (case_of prime).

(** In a segment that starts at the integer [base], the pending strike of
    the record is that of the multiple [prime_value prime * q]. *)
Definition pending (base : Z) (prime : SievingPrime) (q : Z) : Prop :=
  designates base (getSievingPrime prime) (getMultipleIndex prime) (case_of prime) q.

(** The pending strike of the record is that of the first multiple of its
    prime that the segment at [base] and its successors hold: the least one
    from [base + 7] on whose quotient is coprime to 30. *)
Definition first_pending (base : Z) (prime : SievingPrime) : Prop :=
  exists q, pending base prime q /\ first_multiple (prime_value prime) (base + 7) q.

(** ** The pre-sieve *)

(** The byte that [preSieveLarge] writes at offset [j]: the AND over the
    buffers of the byte at [(pos0 + j) mod size], from the initial cursors. *)
Fixpoint and_spec (bufs : list (list Z)) (pos0 : list Z) (j : Z) : Z :=
  match bufs, pos0 with
  | buf :: bufs, p :: pos0 =>
      Z.land (nth (Z.to_nat ((p + j) mod PreSieve.size buf)) buf 0) (and_spec bufs pos0 j)
  | _, _ => -1
  end.

(** Built buffers: none is empty, and [size * 30] is a [uint64_t]. *)
Definition buffers_ok (bufs : list (list Z)) : Prop :=
  Forall (fun buf => 0 < PreSieve.size buf /\ PreSieve.size buf * 30 < 2 ^ 64) bufs.

(** After [offset] bytes, each cursor is the initial one advanced by [offset]
    modulo the size of its buffer. *)
Fixpoint cursors (bufs : list (list Z)) (pos0 pos : list Z) (offset : Z) : Prop :=
  match bufs, pos0, pos with
  | buf :: bufs, p0 :: pos0, p :: pos =>
      0 <= p0 /\ p = (p0 + offset) mod PreSieve.size buf /\ cursors bufs pos0 pos offset
  | [], [], [] => True
  | _, _, _ => False
  end.

(** Each cursor is inside its buffer. *)
Fixpoint cursors_inside (bufs : list (list Z)) (pos : list Z) : Prop :=
  match bufs, pos with
  | buf :: bufs, p :: pos => 0 <= p < PreSieve.size buf /\ cursors_inside bufs pos
  | [], [] => True
  | _, _ => False
  end.

(** [count] more bytes are left in every buffer. *)
Fixpoint fits (bufs : list (list Z)) (pos : list Z) (count : Z) : Prop :=
  match bufs, pos with
  | buf :: bufs, p :: pos => p + count <= PreSieve.size buf /\ fits bufs pos count
  | _, _ => True
  end.

(** The bytes before [lim] are those of [and_spec]. *)
Definition presieved_to (bufs : list (list Z)) (pos0 : list Z) (s : list Z) (lim : Z) : Prop :=
  forall j, 0 <= j < lim -> s !! Z.to_nat j = Some (and_spec bufs pos0 j).

(** The bytes before [lim] are those of the periodic extension of [buffer]
    from its index [i0] on. *)
Definition tiled (buffer : list Z) (i0 : Z) (s : list Z) (lim : Z) : Prop :=
  forall j, 0 <= j < lim ->
    s !! Z.to_nat j = buffer !! Z.to_nat ((i0 + j) mod PreSieve.size buffer).

(** The buffer removes the multiples of its primes from the integers of a
    period: its size is a common multiple of the primes, and the bit of an
    integer of its first period is set exactly when none of the primes
    divides it. *)
Definition buffer_of (primes : list Z) (buf : list Z) : Prop :=
  0 < PreSieve.size buf /\ PreSieve.size buf * 30 < 2 ^ 64
  /\ Forall (fun p => 1 <= p /\ (p | PreSieve.size buf)) primes
  /\ forall j b, 0 <= j < PreSieve.size buf -> 0 <= b < 8 ->
       (bit_at buf j b = true <-> Forall (fun p => ~ (p | 30 * j + bit_value b)) primes).

(** The large buffers are built: one buffer for each list of [bufferPrimes]. *)
Definition built (ps : PreSieve.t) : Prop :=
  Forall2 buffer_of PreSieve.bufferPrimes (PreSieve.buffers_ ps).

(** One of [primes] divides [n]. *)
Definition divides_any (primes : list Z) (n : Z) : bool :=
  existsb (fun p => n mod p =? 0) primes.

(** The bit of [n] after pre-sieving with [primes]: set when none of the
    primes divides [n], and when [n] is one of the primes. *)
Definition presieved (primes : list Z) (n : Z) : bool :=
  negb (divides_any primes n) || existsb (Z.eqb n) primes.

(** The check of a buffer against the divisibility by [primes], byte by byte
    from the byte of index [j] on. *)
Fixpoint check_buffer (primes : list Z) (j : Z) (buf : list Z) : bool :=
  match buf with
  | [] => true
  | x :: rest =>
      forallb (fun b => Bool.eqb (Z.testbit x b)
                          (negb (divides_any primes (30 * j + bit_value b))))
        [0; 1; 2; 3; 4; 5; 6; 7]
      && check_buffer primes (j + 1) rest
  end.

(** The state of a [PreSieve] between calls: no large buffer yet, or all of
    them built. *)
Definition initialized (ps : PreSieve.t) : Prop :=
  PreSieve.buffers_ ps = replicate 8 [] \/ built ps.

(** The primes from 7 to 97, those of the eight large buffers. *)
Definition primes_below_100 : list Z :=
  [7; 11; 13; 17; 19; 23; 29; 31; 37; 41; 43; 47; 53; 59; 61; 67; 71; 73; 79; 83; 89; 97].

(** The primes that [preSieve] pre-sieves with: those of the static buffer
    while the large buffers are not built, then those of the large buffers. *)
Definition presieve_primes (ps : PreSieve.t) : list Z :=
  if bool_decide (PreSieve.buffer ps 0 = []) then [7; 11; 13]
  else primes_below_100.

(** The bytes that [preSieve] stores for the integers below 120. *)
Definition corrections : list Z := [255; 239; 119; 63].

(** The check of the corrected bytes against [presieved]. *)
Definition corrections_ok (primes : list Z) : bool :=
  forallb (fun t =>
    forallb (fun b => Bool.eqb (Z.testbit (nth (Z.to_nat t) corrections 0) b)
                        (presieved primes (30 * t + bit_value b)))
      [0; 1; 2; 3; 4; 5; 6; 7])
    [0; 1; 2; 3].

(** The states at the start of the iterations of the [while] loop, from the
    state before the loop on. *)
Inductive loop_state (bufs : list (list Z)) (sieve : list Z) (pos0 : list Z)
  : list Z * Z * list Z -> Prop :=
| loop_start : loop_state bufs sieve pos0 (sieve, 0, pos0)
| loop_next st st' :
    loop_state bufs sieve pos0 st ->
    st.1.2 < PreSieve.size st.1.1 ->
    PreSieve.preSieveLarge_step bufs st = Ok st' ->
    loop_state bufs sieve pos0 st'.

(** The sieving distance that a call of [init] adds to [totalDist_]. *)
Definition init_dist (start stop : Z) : Z :=
  Z.max (u64 (Z.max start stop - start)) (PreSieve.uint64_sqrt stop).

(** ** The two parts of [preSieve] *)

(** The first statement of [preSieve]: the pre-sieve pass, by the static
    buffer or by the large buffers. *)
Definition presieve_pass_of (ps : PreSieve.t) (sieve : list Z) (segmentLow : Z)
  : result (list Z) :=
  if bool_decide (PreSieve.buffer ps 0 = []) then PreSieve.preSieveSmall sieve segmentLow
  else PreSieve.preSieveLarge ps sieve segmentLow.

(** The rest of [preSieve]: the four conditional stores
    [if (segmentLow < ...) sieve[i++] = ...]. *)
Definition store_corrections (segmentLow : Z) (sieve : list Z) : result (list Z) :=
  let bit49 := Z.shiftl 1 4 in
  let bit77 := Z.shiftl 1 3 in
  let bit91 := Z.shiftl 1 7 in
  let bit119 := Z.shiftl 1 6 in
  let bit121 := Z.shiftl 1 7 in
  let i := 0 in
  st ← PreSieve.store_if (segmentLow <? 30) 0xff (sieve, i);
  st ← PreSieve.store_if (segmentLow <? 60) (Z.lxor 0xff bit49) st;
  st ← PreSieve.store_if (segmentLow <? 90) (Z.lxor (Z.lxor 0xff bit77) bit91) st;
  st ← PreSieve.store_if (segmentLow <? 120) (Z.lxor (Z.lxor 0xff bit119) bit121) st;
  Ok st.1.

(** The byte that the pre-sieve pass writes for the byte of absolute index
    [k], the byte of the integers [30 * k + 7 .. 30 * k + 31]: that of the
    static buffer at [k mod 1001], or the AND over the large buffers of the
    byte at [k mod size]. *)
Definition pattern_byte (ps : PreSieve.t) (k : Z) : Z :=
  if bool_decide (PreSieve.buffer ps 0 = []) then
    nth (Z.to_nat (k mod 1001)) PreSieve.buffer_7_11_13 0
  else and_spec (PreSieve.buffers_ ps) (map (fun _ => 0) (PreSieve.buffers_ ps)) k.

(** The states of the buffers in which the pre-sieve pass completes: the
    first buffer is empty, so that the static buffer is used, or no buffer is
    empty. *)
Definition usable (ps : PreSieve.t) : Prop :=
  PreSieve.buffer ps 0 = [] \/ buffers_ok (PreSieve.buffers_ ps).

(** [buf1[i] & buf2[i] & ... & buf8[i]] as the AND of the bytes, each [bufk]
    the pointer [&buffers_[k][pos[k]]]. *)
Definition and_bytes (bufs : list (list Z)) (pos : list Z) (i : Z) : Z :=
  fold_right Z.land (-1) (zip_with (fun buf p => nth (Z.to_nat (p + i)) buf 0) bufs pos).

(** * Properties *)

(** ** Machine integers and byte arrays *)

Lemma u64_small x : 0 <= x < 2 ^ 64 -> u64 x = x.
Proof. intros H. unfold u64. apply Z.mod_small. exact H. Qed.

Lemma bind_Ok {A B} (m : result A) (f : A -> result B) b :
  m ≫= f = Ok b -> exists a, m = Ok a /\ f a = Ok b.
Proof. destruct m as [a|e]; cbn; [eauto | discriminate]. Qed.

Lemma lookup_Z_lt (s : list Z) i :
  0 <= i < Z.of_nat (length s) -> exists x, s !! Z.to_nat i = Some x.
Proof.
  intros H. apply lookup_lt_is_Some. lia.
Qed.

Lemma and_assign_clear s i b :
  0 <= i < Z.of_nat (length s) -> and_assign s i (BIT b) = Ok (clear s i b).
Proof.
  intros H. destruct (lookup_Z_lt s i H) as [x Hx].
  unfold and_assign, load, clear, store. rewrite Hx.
  replace (0 <=? i) with true by lia. cbn.
  replace (0 <=? i) with true by lia.
  replace (i <? Z.of_nat (length s)) with true by lia. reflexivity.
Qed.

Lemma length_clear s i b : length (clear s i b) = length s.
Proof. unfold clear. destruct (s !! Z.to_nat i); [apply length_insert | reflexivity]. Qed.

Lemma clear_app_l s1 s2 i b :
  0 <= i < Z.of_nat (length s1) -> clear (s1 ++ s2) i b = clear s1 i b ++ s2.
Proof.
  intros H. destruct (lookup_Z_lt s1 i H) as [x Hx]. unfold clear.
  rewrite lookup_app_l by lia. rewrite Hx.
  apply insert_app_l. lia.
Qed.

Lemma clear_app_r s1 s2 i b :
  0 <= i -> clear (s1 ++ s2) (i + Z.of_nat (length s1)) b = s1 ++ clear s2 i b.
Proof.
  intros H. unfold clear.
  replace (Z.to_nat (i + Z.of_nat (length s1))) with (length s1 + Z.to_nat i)%nat by lia.
  rewrite lookup_app_r by lia.
  replace (length s1 + Z.to_nat i - length s1)%nat with (Z.to_nat i) by lia.
  destruct (s2 !! Z.to_nat i); [|reflexivity].
  apply insert_app_r.
Qed.

Lemma testbit_BIT b b' :
  0 <= b < 8 -> 0 <= b' < 8 -> Z.testbit (BIT b) b' = negb (b' =? b).
Proof.
  intros Hb Hb'.
  assert (b = 0 \/ b = 1 \/ b = 2 \/ b = 3 \/ b = 4 \/ b = 5 \/ b = 6 \/ b = 7) as Hc by lia.
  assert (b' = 0 \/ b' = 1 \/ b' = 2 \/ b' = 3 \/ b' = 4 \/ b' = 5 \/ b' = 6 \/ b' = 7) as Hc' by lia.
  repeat (destruct Hc as [-> | Hc]); [.. | subst b];
    repeat (destruct Hc' as [-> | Hc']); try subst b'; reflexivity.
Qed.

Lemma bit_at_clear s i b j b' :
  0 <= i -> 0 <= j -> 0 <= b < 8 -> 0 <= b' < 8 ->
  bit_at (clear s i b) j b' = bit_at s j b' && negb ((j =? i) && (b' =? b)).
Proof.
  intros Hi Hj Hb Hb'. unfold bit_at, clear.
  destruct (s !! Z.to_nat i) as [x|] eqn:Hx.
  - destruct (Z.eq_dec j i) as [-> | Hne].
    + rewrite list_lookup_insert_eq by (eapply lookup_lt_Some; eauto).
      rewrite Hx, Z.land_spec, testbit_BIT by assumption.
      rewrite Z.eqb_refl. reflexivity.
    + rewrite list_lookup_insert_ne by lia.
      replace (j =? i) with false by lia. cbn. rewrite andb_true_r. reflexivity.
  - destruct (Z.eq_dec j i) as [-> | Hne].
    + rewrite Hx. reflexivity.
    + replace (j =? i) with false by lia. cbn. rewrite andb_true_r. reflexivity.
Qed.

(** ** The tables of the switch *)

Lemma cases_ok : forallb case_ok (map Z.of_nat (seq 0 64)) = true.
Proof. vm_compute. reflexivity. Qed.

Lemma case_ok_true w : 0 <= w < 64 -> case_ok w = true.
Proof.
  intros H. pose proof cases_ok as Hall.
  rewrite forallb_forall in Hall. apply Hall.
  apply in_map_iff. exists (Z.to_nat w). split; [lia|].
  apply in_seq. lia.
Qed.

Lemma strike_facts w :
  0 <= w < 64 ->
  exists b m a M A b' m' a' M' A',
    EratSmall.strike w = (b, m, a) /\ in_body w = (M, A, b) /\
    EratSmall.strike (EratSmall.next_case w) = (b', m', a') /\
    in_body (EratSmall.next_case w) = (M', A', b') /\
    case_facts w b m a M A (family_residue w) b' M' A'.
Proof.
  intros H. pose proof (case_ok_true w H) as Hok. unfold case_ok in Hok.
  destruct (EratSmall.strike w) as [[b m] a].
  destruct (in_body w) as [[M A] b2].
  pose proof (case_ok_true (EratSmall.next_case w)) as Hok'. unfold case_ok in Hok'.
  destruct (EratSmall.strike (EratSmall.next_case w)) as [[b' m'] a'].
  destruct (in_body (EratSmall.next_case w)) as [[M' A'] b2'].
  repeat (apply andb_prop in Hok; destruct Hok as [Hok ?]).
  assert (b2 = b) as -> by lia.
  assert (b2' = b') as ->.
  { assert (0 <= EratSmall.next_case w < 64) as Hn by lia.
    specialize (Hok' Hn).
    destruct (EratSmall.strike (EratSmall.next_case (EratSmall.next_case w))) as [[? ?] ?].
    destruct (in_body (EratSmall.next_case (EratSmall.next_case w))) as [[? ?] ?].
    repeat (apply andb_prop in Hok'; destruct Hok' as [Hok' ?]). lia. }
  exists b, m, a, M, A, b', m', a', M', A'.
  split; [reflexivity|]. split; [reflexivity|]. split; [reflexivity|]. split; [reflexivity|].
  split; try lia; try assumption.
  - destruct (w mod 8 =? 7) eqn:E.
    + left. repeat (match goal with H : _ && _ = true |- _ => apply andb_prop in H; destruct H end). lia.
    + right. repeat (match goal with H : _ && _ = true |- _ => apply andb_prop in H; destruct H end). lia.
  - intros d Hd.
    match goal with H : forallb _ _ = true |- _ => rename H into Hgap end.
    rewrite forallb_forall in Hgap.
    assert (In d [1; 2; 3; 4; 5]) as Hin by (cbn; lia).
    specialize (Hgap d Hin). apply orb_prop in Hgap. destruct Hgap as [Hgap | Hgap]; [lia|].
    destruct (Wheel.coprime30 (1 + M + d)); [discriminate | reflexivity].
Qed.

(** ** The switch and the strike sequence *)

Lemma unrolled_body_clear body : forall s p sp,
  Forall (fun x => 0 <= x.1.1 <= 28 /\ 0 <= x.1.2 <= 27) body ->
  0 <= sp -> sp * 30 + 29 < 2 ^ 64 ->
  0 <= p -> p + (sp * 28 + 27) < Z.of_nat (length s) ->
  EratSmall.unrolled_body s p sp body = Ok (clear_all s p sp body).
Proof.
  induction body as [|[[m a] b] rest IH]; intros s p sp Hall Hsp Hsp' Hp Hlen; [reflexivity|].
  inversion Hall as [|? ? [Hm Ha] Hrest]; subst. cbn in Hm, Ha.
  cbn [EratSmall.unrolled_body clear_all].
  rewrite u64_small by nia.
  rewrite and_assign_clear by nia. cbn.
  apply IH; try assumption. rewrite length_clear. exact Hlen.
Qed.

Lemma unrolled_loop_bounds c :
  0 <= c < 8 ->
  Forall (fun x => 0 <= x.1.1 <= 28 /\ 0 <= x.1.2 <= 27) (EratSmall.unrolled_loop c).1.
Proof.
  intros H.
  assert (c = 0 \/ c = 1 \/ c = 2 \/ c = 3 \/ c = 4 \/ c = 5 \/ c = 6 \/ c = 7) as Hc by lia.
  repeat (destruct Hc as [-> | Hc]); [.. | subst c];
    cbn; repeat constructor; cbn; lia.
Qed.

Lemma strikes_to_eq sp n p p' w s s' r :
  p = p' -> s = s' -> strikes_to sp n p w s r -> strikes_to sp n p' w s' r.
Proof. intros -> ->. exact id. Qed.

Ltac strike_once :=
  eapply strikes_step; [lia | vm_compute; reflexivity | ];
  match goal with
  | |- strikes_to _ _ _ ?w _ _ =>
      let w' := eval vm_compute in w in change w with w'
  end.

(** One pass of an unrolled loop is eight strikes of the sequence. *)
Lemma strikes_unrolled sp n p c s r :
  0 <= c < 8 -> 0 <= p -> p + (sp * 28 + 27) < n -> 0 <= sp ->
  strikes_to sp n (p + (sp * 30 + (EratSmall.unrolled_loop c).2)) (8 * c)
    (clear_all s p sp (EratSmall.unrolled_loop c).1) r ->
  strikes_to sp n p (8 * c) s r.
Proof.
  intros H Hp Hn Hsp.
  assert (c = 0 \/ c = 1 \/ c = 2 \/ c = 3 \/ c = 4 \/ c = 5 \/ c = 6 \/ c = 7) as Hc by lia.
  repeat (destruct Hc as [-> | Hc]); [.. | subst c];
    match goal with
    | |- context [EratSmall.unrolled_loop ?c] =>
        let t := eval vm_compute in (EratSmall.unrolled_loop c) in
        change (EratSmall.unrolled_loop c) with t
    end;
    cbn [fst snd clear_all]; intros Hr;
    match goal with
    | |- strikes_to _ _ _ ?w _ _ => let w' := eval vm_compute in w in change w with w'
    end;
    do 8 strike_once;
    (eapply strikes_to_eq; [ | | exact Hr]; [lia | repeat (f_equal; try lia)]).
Qed.

(** The switch performs the strike sequence, within the array and within
    its fuel. *)
Lemma switch_loop_strikes fuel : forall sp n s p w,
  0 <= sp -> sp * 30 + 29 < 2 ^ 64 ->
  n = Z.of_nat (length s) ->
  0 <= w < 64 -> 0 <= p -> p - n < 2 ^ 64 ->
  8 * Z.max 0 (n - (p - cum sp w)) + 8 - w mod 8 < Z.of_nat fuel ->
  exists r,
    EratSmall.switch_loop fuel sp n
      (Z.max n (0 + u64 (sp * 28 + 27)) - u64 (sp * 28 + 27)) s p w = Ok r
    /\ strikes_to sp n p w s r.
Proof.
  induction fuel as [|fuel IH]; intros sp n s p w Hsp Hsp' Hn Hw Hp Hpn Hfuel.
  { exfalso. pose proof (Z.mod_pos_bound w 8). lia. }
  destruct (strike_facts w Hw)
    as (b & m & a & M & A & b' & m' & a' & M' & A' & Hs & Hb & Hs' & Hb' & F).
  destruct F. 
  assert (cum sp w = sp * M + A) as Hcum by (unfold cum; rewrite Hb; reflexivity).
  assert (cum sp (EratSmall.next_case w) = sp * M' + A') as Hcum'
    by (unfold cum; rewrite Hb'; reflexivity).
  cbn [EratSmall.switch_loop].
  rewrite (u64_small (sp * 28 + 27)) by lia.
  destruct ((w mod 8 =? 0) && (p <? Z.max n (0 + (sp * 28 + 27)) - (sp * 28 + 27))) eqn:Hfast.
  - (* the unrolled loop *)
    apply andb_prop in Hfast. destruct Hfast as [Hk Hloop].
    assert (w mod 8 = 0) as Hk0 by lia.
    assert (w = 8 * (w / 8)) as Hw8 by (pose proof (Z.div_mod w 8); lia).
    assert (p + (sp * 28 + 27) < n) as Hin by lia.
    destruct (cf_first0 Hk0) as [-> ->].
    pose proof (unrolled_loop_bounds (w / 8) ltac:(lia)) as Hbody.
    unfold family_residue in cf_r0.
    destruct (EratSmall.unrolled_loop (w / 8)) as [body r] eqn:Hloopc. cbn [fst snd] in *.
    rewrite (unrolled_body_clear body s p sp) by (try assumption; lia). cbn.
    rewrite (u64_small (sp * 30 + r)) by lia.
    destruct (IH sp n (clear_all s p sp body) (p + (sp * 30 + r)) w) as (res & Hres & Hst);
      try assumption; try lia.
    { clear - Hn. revert s Hn. induction body as [|[[? ?] ?] ? IHb]; intros s Hn; [exact Hn|].
      cbn. apply IHb. rewrite length_clear. exact Hn. }
    rewrite (u64_small (sp * 28 + 27)) in Hres by lia.
    exists res. split; [exact Hres|].
    rewrite Hw8. apply strikes_unrolled; try lia.
    rewrite Hloopc. cbn [fst snd]. rewrite <- Hw8. exact Hst.
  - destruct (n <=? p) eqn:Hdone.
    + (* CHECK_FINISHED *)
      exists (s, p - n, w). rewrite u64_small by lia.
      split; [reflexivity|]. apply strikes_done. lia.
    + (* one strike *)
      rewrite Hs. rewrite and_assign_clear by lia. cbn.
      rewrite (u64_small (sp * m + a)) by nia.
      assert (n = Z.of_nat (length (clear s p b))) as Hlen
        by (rewrite length_clear; exact Hn).
      assert (8 * Z.max 0 (n - (p + (sp * m + a) - cum sp (EratSmall.next_case w)))
              + 8 - EratSmall.next_case w mod 8 < Z.of_nat fuel) as Hmeasure.
      { rewrite Hcum'. rewrite Hcum in Hfuel.
        destruct cf_cum0 as [(Hk & HM & HA & -> & -> & Hk') | (Hk & -> & -> & Hk')]; nia. }
      destruct (IH sp n (clear s p b) (p + (sp * m + a)) (EratSmall.next_case w)
                  Hsp Hsp' Hlen cf_next0 ltac:(nia) ltac:(nia) Hmeasure)
        as (res & Hres & Hst).
      rewrite (u64_small (sp * 28 + 27)) in Hres by lia.
      exists res. split; [exact Hres|].
      eapply strikes_step; [lia | exact Hs | exact Hst].
Qed.

(** ** The strike sequence *)

Lemma strikes_to_det sp n p w s r1 :
  strikes_to sp n p w s r1 -> forall r2, strikes_to sp n p w s r2 -> r1 = r2.
Proof.
  induction 1 as [p w s Hge | p w s b m a r Hlt Hs Hrest IH]; intros r2 H2.
  - inversion H2; subst; [reflexivity | lia].
  - inversion H2 as [| ? ? ? b2 m2 a2 ? Hlt2 Hs2 Hrest2]; subst; [lia|].
    rewrite Hs in Hs2. injection Hs2 as <- <- <-. apply IH. exact Hrest2.
Qed.

Lemma strikes_to_length sp n p w s r :
  strikes_to sp n p w s r -> length r.1.1 = length s.
Proof.
  induction 1 as [| p w s b m a r Hlt Hs Hrest IH]; [reflexivity|].
  rewrite IH. apply length_clear.
Qed.

Lemma strikes_to_bounds sp n p w s r :
  strikes_to sp n p w s r ->
  0 <= sp -> sp * 30 + 29 < 2 ^ 64 -> 0 <= p -> p - n < 2 ^ 64 -> 0 <= w < 64 ->
  0 <= r.1.2 < 2 ^ 64 /\ 0 <= r.2 < 64.
Proof.
  induction 1 as [| p w s b m a r Hlt Hs Hrest IH]; intros Hsp Hsp' Hp Hpn Hw; cbn.
  - lia.
  - destruct (strike_facts w Hw)
      as (b0 & m0 & a0 & M & A & b' & m' & a' & M' & A' & Hs0 & _ & _ & _ & F).
    rewrite Hs in Hs0. injection Hs0 as <- <- <-. destruct F.
    apply IH; try assumption; nia.
Qed.

(** The sequence over the second part of an array, seen from the whole. *)
(** The case stays in its group of eight, and the index that a pass leaves is
    bounded. *)
Lemma strikes_to_record sp n p w s r :
  strikes_to sp n p w s r -> 0 <= sp -> 0 <= w < 64 ->
  r.2 / 8 = w / 8 /\ r.1.2 <= Z.max (p - n) (6 * sp + 5)
  /\ (n <= p -> r = (s, p - n, w)).
Proof.
  induction 1 as [p w s Hp | p w s b m a r Hp Hs Hrest IH]; intros Hsp Hw; cbn [fst snd].
  - split; [reflexivity|]. split; [lia | reflexivity].
  - destruct (strike_facts w Hw)
      as (b0 & m0 & a0 & M & A & b' & m' & a' & M' & A' & Hs0 & _ & _ & _ & F).
    rewrite Hs in Hs0. injection Hs0 as <- <- <-.
    pose proof (cf_next _ _ _ _ _ _ _ _ _ _ F) as Hnext.
    pose proof (cf_family _ _ _ _ _ _ _ _ _ _ F) as Hfamily.
    pose proof (cf_mul _ _ _ _ _ _ _ _ _ _ F) as Hm.
    pose proof (cf_add _ _ _ _ _ _ _ _ _ _ F) as Ha.
    destruct (IH Hsp Hnext) as (Hfam & Hmi & _).
    split; [lia|]. split; [nia | lia].
Qed.

Lemma strikes_to_shift sp (s1 : list Z) n2 p w s2 r :
  strikes_to sp n2 p w s2 r -> 0 <= p -> 0 <= sp -> 0 <= w < 64 ->
  strikes_to sp (Z.of_nat (length s1) + n2) (p + Z.of_nat (length s1)) w (s1 ++ s2)
    (s1 ++ r.1.1, r.1.2, r.2).
Proof.
  induction 1 as [p w s Hge | p w s b m a r Hlt Hs Hrest IH]; intros Hp Hsp Hw; cbn.
  - replace (p - n2) with (p + Z.of_nat (length s1) - (Z.of_nat (length s1) + n2)) by lia.
    apply strikes_done. lia.
  - destruct (strike_facts w Hw)
      as (b0 & m0 & a0 & M & A & b' & m' & a' & M' & A' & Hs0 & _ & _ & _ & F).
    rewrite Hs in Hs0. injection Hs0 as <- <- <-. destruct F.
    eapply strikes_step; [lia | exact Hs | ].
    rewrite clear_app_r by lia.
    eapply strikes_to_eq; [ | reflexivity | apply IH; [nia | lia | lia]]. lia.
Qed.

(** The sequence over an array is the sequence over its first part, followed
    from the state that this leaves by the sequence over its second part. *)
Lemma strikes_to_app sp p w s1 s2 r1 r2 :
  strikes_to sp (Z.of_nat (length s1)) p w s1 r1 ->
  strikes_to sp (Z.of_nat (length s2)) r1.1.2 r1.2 s2 r2 ->
  0 <= p -> 0 <= sp -> 0 <= w < 64 ->
  strikes_to sp (Z.of_nat (length (s1 ++ s2))) p w (s1 ++ s2) (r1.1.1 ++ r2.1.1, r2.1.2, r2.2).
Proof.
  rewrite length_app, Nat2Z.inj_add.
  remember (Z.of_nat (length s1)) as n1 eqn:Hn1.
  intros H1. revert s2 r2 Hn1.
  induction H1 as [p w s Hge | p w s b m a r Hlt Hs Hrest IH]; intros s2 r2 Hn1 H2 Hp Hsp Hw.
  - cbn in *. subst n1.
    eapply strikes_to_eq; [ | reflexivity | apply (strikes_to_shift sp s _ _ _ _ _ H2)];
      lia.
  - destruct (strike_facts w Hw)
      as (b0 & m0 & a0 & M & A & b' & m' & a' & M' & A' & Hs0 & _ & _ & _ & F).
    rewrite Hs in Hs0. injection Hs0 as <- <- <-. destruct F.
    eapply strikes_step; [lia | exact Hs | ].
    rewrite clear_app_l by lia.
    apply IH; try assumption; try nia.
    rewrite length_clear. exact Hn1.
Qed.

(** ** One sieving prime *)

Lemma land_63 w : 0 <= w -> 0 <= Z.land w 63 < 64.
Proof.
  intros H. change 63 with (Z.ones 6). rewrite Z.land_ones by lia.
  apply Z.mod_pos_bound. reflexivity.
Qed.

Lemma land_63_small w : 0 <= w < 64 -> Z.land w 63 = w.
Proof.
  intros H. change 63 with (Z.ones 6). rewrite Z.land_ones by lia.
  apply Z.mod_small. exact H.
Qed.

Lemma crossOff_prime_strikes s prime :
  stored prime ->
  exists s' mi w,
    EratSmall.crossOff_prime s prime = Ok (s', set prime mi w)
    /\ strikes_to (getSievingPrime prime) (Z.of_nat (length s))
         (getMultipleIndex prime) (Z.land (getWheelIndex prime) 63) s (s', mi, w)
    /\ stored (set prime mi w) /\ 0 <= w < 64.
Proof.
  intros (Hsp & Hsp' & Hmi & Hwi).
  pose proof (land_63 _ Hwi) as Hw.
  unfold EratSmall.crossOff_prime.
  rewrite (proj2 (Z.ltb_lt (getMultipleIndex prime) (2 ^ 63))) by lia.
  destruct (switch_loop_strikes
              (Z.to_nat (8 * (Z.of_nat (length s) + u64 (getSievingPrime prime * 28 + 27)) + 9))
              (getSievingPrime prime) (Z.of_nat (length s)) s (getMultipleIndex prime)
              (Z.land (getWheelIndex prime) 63))
    as ([[s' mi] w] & Hrun & Hst); try assumption; try reflexivity; try lia.
  { rewrite u64_small by lia.
    destruct (strike_facts _ Hw)
      as (b0 & m0 & a0 & M & A & b' & m' & a' & M' & A' & _ & Hb & _ & _ & F).
    destruct F. unfold cum. rewrite Hb. cbn [fst snd].
    pose proof (Z.mod_pos_bound (Z.land (getWheelIndex prime) 63) 8). nia. }
  rewrite Hrun. cbn.
  destruct (strikes_to_bounds _ _ _ _ _ _ Hst) as [Hmi' Hw']; try assumption; try lia.
  destruct (strikes_to_record _ _ _ _ _ _ Hst Hsp Hw) as (_ & Hle & _).
  exists s', mi, w. repeat split; try assumption; cbn in *; lia.
Qed.

Lemma crossOff_prime_app s1 s2 prime s1' prime1 s2' prime2 :
  stored prime ->
  EratSmall.crossOff_prime s1 prime = Ok (s1', prime1) ->
  EratSmall.crossOff_prime s2 prime1 = Ok (s2', prime2) ->
  EratSmall.crossOff_prime (s1 ++ s2) prime = Ok (s1' ++ s2', prime2).
Proof.
  intros Hst H1 H2.
  destruct (crossOff_prime_strikes s1 prime Hst) as (t1 & mi1 & w1 & E1 & St1 & Hst1 & Hw1).
  rewrite H1 in E1. injection E1 as -> ->.
  destruct (crossOff_prime_strikes s2 _ Hst1) as (t2 & mi2 & w2 & E2 & St2 & Hst2 & Hw2).
  rewrite H2 in E2. injection E2 as -> ->.
  destruct (crossOff_prime_strikes (s1 ++ s2) prime Hst) as (t & mi & w & E & St & _ & _).
  cbn in St2. rewrite (land_63_small w1 Hw1) in St2.
  destruct Hst as (Hsp & Hsp' & Hmi & Hwi).
  pose proof (strikes_to_app _ _ _ _ _ (t1, mi1, w1) (t2, mi2, w2) St1 St2
                ltac:(lia) Hsp (land_63 _ Hwi)) as Happ.
  pose proof (strikes_to_det _ _ _ _ _ _ St _ Happ) as Heq. cbn in Heq.
  injection Heq as -> -> ->. exact E.
Qed.

(** The inner [crossOff] completes on every array, for stored records. *)
Lemma crossOff_inner_Ok primes : forall s,
  Forall stored primes ->
  exists s' primes',
    EratSmall.crossOff_inner s primes = Ok (s', primes')
    /\ length s' = length s /\ length primes' = length primes /\ Forall stored primes'.
Proof.
  induction primes as [|prime rest IH]; intros s Hall.
  - exists s, []. repeat split; constructor.
  - inversion Hall as [|? ? Hp Hrest]; subst.
    destruct (crossOff_prime_strikes s prime Hp) as (s1 & mi & w & E & St & Hst & Hw).
    destruct (IH s1 Hrest) as (s2 & rest' & E2 & Hlen & Hlen' & Hall').
    exists s2, (set prime mi w :: rest'). cbn. rewrite E. cbn. rewrite E2. cbn.
    apply strikes_to_length in St. cbn in St.
    repeat split; [congruence | cbn; congruence | constructor; assumption].
Qed.

Lemma crossOff_inner_app primes : forall s1 s2 s1' primes1 s2' primes2,
  Forall stored primes ->
  EratSmall.crossOff_inner s1 primes = Ok (s1', primes1) ->
  EratSmall.crossOff_inner s2 primes1 = Ok (s2', primes2) ->
  EratSmall.crossOff_inner (s1 ++ s2) primes = Ok (s1' ++ s2', primes2).
Proof.
  induction primes as [|prime rest IH]; intros s1 s2 s1' primes1 s2' primes2 Hall H1 H2.
  - cbn in H1. injection H1 as <- <-. cbn in H2. injection H2 as <- <-. reflexivity.
  - inversion Hall as [|? ? Hp Hrest]; subst.
    cbn in H1. apply bind_Ok in H1. destruct H1 as ([t1 prime1] & E1 & H1).
    apply bind_Ok in H1. destruct H1 as ([u1 rest1] & F1 & H1).
    injection H1 as <- <-.
    cbn in H2. apply bind_Ok in H2. destruct H2 as ([t2 prime2] & E2 & H2).
    apply bind_Ok in H2. destruct H2 as ([u2 rest2] & F2 & H2).
    injection H2 as <- <-.
    cbn. rewrite (crossOff_prime_app _ _ _ _ _ _ _ Hp E1 E2). cbn.
    rewrite (IH _ _ _ _ _ _ Hrest F1 F2). reflexivity.
Qed.

(** ** The integers that the strikes stand for *)

Lemma coprime30_true x :
  Wheel.coprime30 x = true <-> x mod 2 <> 0 /\ x mod 3 <> 0 /\ x mod 5 <> 0.
Proof.
  unfold Wheel.coprime30. rewrite !andb_true_iff, !negb_true_iff, !Z.eqb_neq. tauto.
Qed.

Lemma coprime30_false x :
  Wheel.coprime30 x = false <-> x mod 2 = 0 \/ x mod 3 = 0 \/ x mod 5 = 0.
Proof.
  unfold Wheel.coprime30. rewrite !andb_false_iff, !negb_false_iff, !Z.eqb_eq. tauto.
Qed.

Lemma coprime30_add x t : Wheel.coprime30 (x + 30 * t) = Wheel.coprime30 x.
Proof.
  unfold Wheel.coprime30.
  replace ((x + 30 * t) mod 2) with (x mod 2) by (Z.to_euclidean_division_equations; lia).
  replace ((x + 30 * t) mod 3) with (x mod 3) by (Z.to_euclidean_division_equations; lia).
  replace ((x + 30 * t) mod 5) with (x mod 5) by (Z.to_euclidean_division_equations; lia).
  reflexivity.
Qed.

Lemma bit_value_cases b :
  0 <= b < 8 ->
  (b = 0 /\ bit_value b = 7) \/ (b = 1 /\ bit_value b = 11) \/ (b = 2 /\ bit_value b = 13)
  \/ (b = 3 /\ bit_value b = 17) \/ (b = 4 /\ bit_value b = 19) \/ (b = 5 /\ bit_value b = 23)
  \/ (b = 6 /\ bit_value b = 29) \/ (b = 7 /\ bit_value b = 31).
Proof.
  intros H.
  assert (b = 0 \/ b = 1 \/ b = 2 \/ b = 3 \/ b = 4 \/ b = 5 \/ b = 6 \/ b = 7) as Hc by lia.
  repeat (destruct Hc as [-> | Hc]); [.. | subst b]; cbn; tauto.
Qed.

Lemma bit_value_bounds b : 0 <= b < 8 -> 7 <= bit_value b <= 31.
Proof. intros H. pose proof (bit_value_cases b H). lia. Qed.

(** An integer has one place in the layout. *)
Lemma layout_unique j b j' b' :
  0 <= b < 8 -> 0 <= b' < 8 ->
  30 * j + bit_value b = 30 * j' + bit_value b' -> j = j' /\ b = b'.
Proof.
  intros H H' E.
  pose proof (bit_value_cases b H). pose proof (bit_value_cases b' H'). lia.
Qed.

(** The quotient of an integer of the layout by one of its divisors is
    coprime to 30. *)
Lemma quotient_coprime30 base j b x q :
  base mod 30 = 0 -> 0 <= b < 8 ->
  x * q = base + 30 * j + bit_value b -> Wheel.coprime30 q = true.
Proof.
  intros Hbase Hb E. apply coprime30_true.
  pose proof (bit_value_cases b Hb) as Hv.
  assert (exists B, base = 30 * B) as [B ->].
  { exists (base / 30). Z.to_euclidean_division_equations. lia. }
  repeat split; intros Hq.
  - assert (exists t, q = 2 * t) as [t ->]
      by (exists (q / 2); Z.to_euclidean_division_equations; lia).
    remember (x * t) as X. assert (x * (2 * t) = 2 * X) as HX by lia. lia.
  - assert (exists t, q = 3 * t) as [t ->]
      by (exists (q / 3); Z.to_euclidean_division_equations; lia).
    remember (x * t) as X. assert (x * (3 * t) = 3 * X) as HX by lia. lia.
  - assert (exists t, q = 5 * t) as [t ->]
      by (exists (q / 5); Z.to_euclidean_division_equations; lia).
    remember (x * t) as X. assert (x * (5 * t) = 5 * X) as HX by lia. lia.
Qed.

(** No quotient coprime to 30 lies between those of two successive strikes. *)
Lemma quotient_gap w b m a q x :
  0 <= w < 64 -> EratSmall.strike w = (b, m, a) ->
  q mod 30 = 1 + (in_body w).1.1 -> q < x < q + m -> Wheel.coprime30 x = false.
Proof.
  intros Hw Hs Hq Hx.
  destruct (strike_facts w Hw)
    as (b0 & m0 & a0 & M & A & b' & m' & a' & M' & A' & Hs0 & Hb & _ & _ & F).
  rewrite Hs in Hs0. injection Hs0 as <- <- <-. destruct F.
  rewrite Hb in Hq. cbn in Hq.
  replace x with (1 + M + (x - q) + 30 * (q / 30))
    by (Z.to_euclidean_division_equations; lia).
  rewrite coprime30_add. apply cf_gap0. lia.
Qed.

Lemma prime_of_pos sp w : 0 <= sp -> 0 <= w < 64 -> 1 <= prime_of sp w.
Proof.
  intros Hsp Hw.
  destruct (strike_facts w Hw)
    as (b0 & m0 & a0 & M & A & b' & m' & a' & M' & A' & _ & _ & _ & _ & F).
  destruct F. unfold prime_of. lia.
Qed.

Lemma prime_of_next sp w :
  0 <= w < 64 -> prime_of sp (EratSmall.next_case w) = prime_of sp w.
Proof.
  intros Hw.
  destruct (strike_facts w Hw)
    as (b0 & m0 & a0 & M & A & b' & m' & a' & M' & A' & _ & _ & _ & _ & F).
  destruct F. unfold prime_of, family_residue. rewrite cf_family0. reflexivity.
Qed.

Lemma designates_step base sp p w q b m a :
  0 <= w < 64 -> EratSmall.strike w = (b, m, a) ->
  designates base sp p w q ->
  designates base sp (p + (sp * m + a)) (EratSmall.next_case w) (q + m).
Proof.
  intros Hw Hs [Hd Hq].
  pose proof (prime_of_next sp w Hw) as Hnext.
  destruct (strike_facts w Hw)
    as (b0 & m0 & a0 & M & A & b' & m' & a' & M' & A' & Hs0 & Hb & Hs' & Hb' & F).
  rewrite Hs in Hs0. injection Hs0 as <- <- <-. destruct F.
  unfold designates. rewrite Hnext, Hs', Hb'. rewrite Hs in Hd. rewrite Hb in Hq.
  unfold prime_of in *. cbn [fst snd] in *. split.
  - nia.
  - destruct cf_cum0 as [(Hk & HM & HA & -> & -> & Hk') | (Hk & -> & -> & Hk')];
      Z.to_euclidean_division_equations; lia.
Qed.

(** The bits that the strike sequence clears are those of the multiples of
    the prime from the pending one on. *)
Lemma strikes_to_bits sp n p w s r :
  strikes_to sp n p w s r ->
  forall base q, designates base sp p w q -> base mod 30 = 0 ->
  0 <= sp -> 0 <= w < 64 -> 0 <= p -> n = Z.of_nat (length s) ->
  forall j b, 0 <= j < n -> 0 <= b < 8 ->
    bit_at r.1.1 j b = true <->
    bit_at s j b = true
    /\ ~ (exists x, q <= x /\ prime_of sp w * x = base + 30 * j + bit_value b).
Proof.
  induction 1 as [p w s Hge | p w s bw m a r Hlt Hs Hrest IH];
    intros base q Hd Hbase Hsp Hw Hp Hn j b Hj Hb.
  - cbn [fst snd]. split; [|tauto]. intros Hbit. split; [exact Hbit|].
    intros (x & Hx & E). destruct Hd as [Hd _].
    pose proof (prime_of_pos sp w Hsp Hw).
    pose proof (bit_value_bounds b Hb).
    destruct (strike_facts w Hw)
      as (b0 & m0 & a0 & M & A & b' & m' & a' & M' & A' & Hs0 & _ & _ & _ & F).
    rewrite Hs0 in Hd. cbn [fst snd] in Hd. destruct F.
    pose proof (bit_value_bounds b0 cf_bit0).
    assert (prime_of sp w * q <= prime_of sp w * x)
      by (apply Z.mul_le_mono_nonneg_l; lia).
    lia.
  - pose proof (designates_step _ _ _ _ _ _ _ _ Hw Hs Hd) as Hd'.
    destruct (strike_facts w Hw)
      as (b0 & m0 & a0 & M & A & b' & m' & a' & M' & A' & Hs0 & Hbd & _ & _ & F).
    rewrite Hs in Hs0. injection Hs0 as <- <- <-. destruct F.
    rewrite (IH base (q + m) Hd' Hbase Hsp cf_next0 ltac:(nia)
               ltac:(rewrite length_clear; exact Hn) j b Hj Hb).
    rewrite bit_at_clear by lia.
    rewrite (prime_of_next sp w Hw).
    rewrite andb_true_iff, negb_true_iff, andb_false_iff, !Z.eqb_neq.
    destruct Hd as [Hd Hq]. rewrite Hs in Hd. cbn [fst snd] in Hd.
    split.
    + intros [[Hbit Hne] Hno]. split; [exact Hbit|].
      intros (x & Hx & E).
      destruct (Z.eq_dec x q) as [-> | Hxq].
      * rewrite Hd in E.
        assert (30 * p + bit_value bw = 30 * j + bit_value b) as E' by lia.
        destruct (layout_unique _ _ _ _ cf_bit0 Hb E'). lia.
      * destruct (Z_lt_le_dec x (q + m)) as [Hlt' | Hge'].
        -- pose proof (quotient_gap w bw m a q x Hw Hs Hq ltac:(lia)) as Hgap.
           rewrite (quotient_coprime30 base j b _ x Hbase Hb E) in Hgap. discriminate.
        -- apply Hno. exists x. split; [lia | exact E].
    + intros [Hbit Hno]. split; [split; [exact Hbit|]|].
      * destruct (Z.eq_dec j p) as [-> | Hjp]; [|left; exact Hjp].
        destruct (Z.eq_dec b bw) as [-> | Hbb]; [|right; exact Hbb].
        exfalso. apply Hno. exists q. split; [lia | exact Hd].
      * intros (x & Hx & E). apply Hno. exists x. split; [lia | exact E].
Qed.

(** The state that the strike sequence leaves designates the first multiple
    at or beyond the end of the array. *)
Lemma strikes_to_pending sp n p w s r :
  strikes_to sp n p w s r ->
  forall base q, designates base sp p w q ->
  0 <= sp -> 0 <= w < 64 -> 0 <= p ->
  exists q',
    designates (base + 30 * n) sp r.1.2 r.2 q' /\ q <= q' /\ 0 <= r.1.2 /\
    prime_of sp r.2 = prime_of sp w /\
    forall x, q <= x -> Wheel.coprime30 x = true ->
              base + 30 * n + 7 <= prime_of sp w * x -> q' <= x.
Proof.
  induction 1 as [p w s Hge | p w s bw m a r Hlt Hs Hrest IH];
    intros base q Hd Hsp Hw Hp.
  - cbn [fst snd]. exists q. split; [|split; [lia | split; [lia | split; [reflexivity | auto]]]].
    destruct Hd as [Hd Hq]. split; [lia | exact Hq].
  - pose proof (designates_step _ _ _ _ _ _ _ _ Hw Hs Hd) as Hd'.
    destruct (strike_facts w Hw)
      as (b0 & m0 & a0 & M & A & b' & m' & a' & M' & A' & Hs0 & Hbd & _ & _ & F).
    rewrite Hs in Hs0. injection Hs0 as <- <- <-. destruct F.
    destruct (IH base (q + m) Hd' Hsp cf_next0 ltac:(nia)) as (q' & Hq' & Hle & Hmi & Hpr & Hleast).
    rewrite (prime_of_next sp w Hw) in Hpr, Hleast.
    exists q'. split; [exact Hq' | split; [lia | split; [exact Hmi | split; [exact Hpr|]]]].
    intros x Hx Hcop Hbeyond.
    destruct (Z_lt_le_dec x (q + m)) as [Hlt' | Hge']; [|apply Hleast; assumption].
    exfalso. destruct Hd as [Hd Hq]. rewrite Hs in Hd. cbn [fst snd] in Hd.
    destruct (Z.eq_dec x q) as [-> | Hxq].
    + pose proof (bit_value_bounds bw cf_bit0). lia.
    + rewrite (quotient_gap w bw m a q x Hw Hs Hq ltac:(lia)) in Hcop. discriminate.
Qed.

(** ** The Wheel *)

Lemma wheel_index_ok_all :
  forallb (fun pr => forallb (wheel_index_ok pr) (map Z.of_nat (seq 0 30)))
    (map Z.of_nat (seq 0 30)) = true.
Proof. vm_compute. reflexivity. Qed.

Lemma wheel_index_ok_true pr qr :
  0 <= pr < 30 -> 0 <= qr < 30 -> wheel_index_ok pr qr = true.
Proof.
  intros Hp Hq. pose proof wheel_index_ok_all as Hall.
  rewrite forallb_forall in Hall.
  assert (forall x, 0 <= x < 30 -> In x (map Z.of_nat (seq 0 30))) as Hin.
  { intros x Hx. apply in_map_iff. exists (Z.to_nat x). split; [lia|]. apply in_seq. lia. }
  specialize (Hall pr (Hin pr Hp)). cbv beta in Hall.
  rewrite forallb_forall in Hall. exact (Hall qr (Hin qr Hq)).
Qed.

Lemma next_coprime_add fuel : forall x t,
  Wheel.next_coprime fuel (x + 30 * t) = Wheel.next_coprime fuel x + 30 * t.
Proof.
  induction fuel as [|fuel IH]; intros x t; cbn; [reflexivity|].
  rewrite coprime30_add. destruct (Wheel.coprime30 x); [reflexivity|].
  replace (x + 30 * t + 1) with (x + 1 + 30 * t) by lia. apply IH.
Qed.

Lemma next_coprime_ok_all : forallb next_coprime_ok (map Z.of_nat (seq 0 30)) = true.
Proof. vm_compute. reflexivity. Qed.

Lemma next_coprime_spec x :
  exists d, 0 <= d <= 5 /\ Wheel.next_coprime 6 x = x + d
            /\ Wheel.coprime30 (x + d) = true
            /\ forall e, 0 <= e < d -> Wheel.coprime30 (x + e) = false.
Proof.
  pose proof next_coprime_ok_all as Hall. rewrite forallb_forall in Hall.
  assert (In (x mod 30) (map Z.of_nat (seq 0 30))) as Hin.
  { apply in_map_iff. exists (Z.to_nat (x mod 30)).
    pose proof (Z.mod_pos_bound x 30). split; [lia|]. apply in_seq. lia. }
  specialize (Hall _ Hin). unfold next_coprime_ok in Hall.
  remember (x mod 30) as r eqn:Hr.
  assert (x = r + 30 * (x / 30)) as Hx by (subst r; Z.to_euclidean_division_equations; lia).
  remember (Wheel.next_coprime 6 r - r) as d eqn:Hd.
  repeat (apply andb_prop in Hall; destruct Hall as [Hall ?]).
  exists d. split; [lia|]. split; [|split].
  - rewrite Hx at 1. rewrite next_coprime_add. lia.
  - replace (x + d) with (r + d + 30 * (x / 30)) by lia. rewrite coprime30_add. assumption.
  - intros e He.
    match goal with H : forallb _ _ = true |- _ => rename H into Hgap end.
    rewrite forallb_forall in Hgap.
    assert (In e [0; 1; 2; 3; 4]) as Hine by (cbn; lia).
    specialize (Hgap e Hine). apply orb_prop in Hgap. destruct Hgap as [Hgap | Hgap]; [lia|].
    replace (x + e) with (r + e + 30 * (x / 30)) by lia. rewrite coprime30_add.
    destruct (Wheel.coprime30 (r + e)); [discriminate | reflexivity].
Qed.

(** The record that [addSievingPrime] stores designates the first multiple of
    the prime in the segment. *)
Lemma addSievingPrime_designates e prime segmentLow :
  7 <= prime -> Wheel.coprime30 prime = true ->
  0 <= segmentLow -> segmentLow mod 30 = 0 ->
  exists mi w q,
    Wheel.addSievingPrime e prime segmentLow
    = EratSmall.mk (EratSmall.enabled_ e) (EratSmall.maxPrime_ e) (EratSmall.l1CacheSize_ e)
        (EratSmall.stop_ e) (EratSmall.primes_ e ++ [mkSievingPrime (prime / 30) mi w])
    /\ 0 <= w < 64 /\ 0 <= mi /\ 30 * mi <= 6 * prime
    /\ prime_of (prime / 30) w = prime
    /\ designates segmentLow (prime / 30) mi w q
    /\ first_multiple prime (segmentLow + 7) q.
Proof.
  intros Hprime Hcop Hlow Hmod.
  unfold Wheel.addSievingPrime, EratSmall.storeSievingPrime.
  destruct (next_coprime_spec ((segmentLow + 6) / prime + 1)) as (d & Hd & Hq & Hcq & Hleast).
  remember (Wheel.next_coprime 6 ((segmentLow + 6) / prime + 1)) as q eqn:Eq.
  rewrite <- Hq in Hcq.
  remember ((segmentLow + 6) / prime) as q0 eqn:Eq0.
  assert (prime * q0 <= segmentLow + 6 < prime * (q0 + 1)) as Hq0.
  { subst q0. pose proof (Z.mul_div_le (segmentLow + 6) prime ltac:(lia)).
    pose proof (Z.mul_succ_div_gt (segmentLow + 6) prime ltac:(lia)). lia. }
  assert (segmentLow + 7 <= prime * q) as Hlo by nia.
  assert (prime * q <= segmentLow + 6 + 6 * prime) as Hhi by nia.
  remember ((prime * q - segmentLow - 7) / 30) as mi eqn:Emi.
  assert (prime * q - segmentLow - 30 * mi = 7 + (prime mod 30 * (q mod 30) - 7) mod 30) as Eres.
  { subst mi.
    replace ((prime mod 30 * (q mod 30) - 7) mod 30) with ((prime * q - segmentLow - 7) mod 30).
    - Z.to_euclidean_division_equations; lia.
    - replace (prime * q - segmentLow - 7)
        with (prime mod 30 * (q mod 30) - 7
              + (prime / 30 * (q mod 30) + prime mod 30 * (q / 30) + 30 * (prime / 30) * (q / 30)
                 - segmentLow / 30) * 30).
      + apply Z_mod_plus_full.
      + pose proof (Z.div_mod prime 30 ltac:(lia)). pose proof (Z.div_mod q 30 ltac:(lia)).
        pose proof (Z.div_mod segmentLow 30 ltac:(lia)). nia. }
  rewrite Eres.
  pose proof (wheel_index_ok_true (prime mod 30) (q mod 30)
                (Z.mod_pos_bound _ 30 ltac:(lia)) (Z.mod_pos_bound _ 30 ltac:(lia))) as Hok.
  unfold wheel_index_ok in Hok.
  replace (Wheel.coprime30 (prime mod 30)) with true in Hok.
  2:{ rewrite <- Hcop. rewrite <- (coprime30_add (prime mod 30) (prime / 30)).
      f_equal. pose proof (Z.div_mod prime 30 ltac:(lia)). lia. }
  replace (Wheel.coprime30 (q mod 30)) with true in Hok.
  2:{ rewrite <- Hcq. rewrite <- (coprime30_add (q mod 30) (q / 30)).
      f_equal. pose proof (Z.div_mod q 30 ltac:(lia)). lia. }
  cbn [andb negb orb] in Hok.
  remember (7 + (prime mod 30 * (q mod 30) - 7) mod 30) as res eqn:Er.
  remember (Wheel.index_of res bitValues) as bit eqn:Ebit.
  remember (Wheel.index_of (prime mod 30) Wheel.families) as family eqn:Efam.
  remember (8 * family + Wheel.index_of bit (Wheel.family_bits family)) as w eqn:Ew.
  repeat (apply andb_prop in Hok; destruct Hok as [Hok ?]).
  exists mi, w, q.
  assert (prime_of (prime / 30) w = prime) as Hpo.
  { unfold prime_of. pose proof (Z.div_mod prime 30 ltac:(lia)). lia. }
  split; [reflexivity|]. split; [lia|]. split; [subst mi; Z.to_euclidean_division_equations; lia|].
  split; [subst mi; Z.to_euclidean_division_equations; lia|]. split; [exact Hpo|].
  split; [split|].
  - rewrite Hpo.
    replace ((EratSmall.strike w).1.1) with bit by lia.
    replace (bit_value bit) with res by lia. lia.
  - lia.
  - split; [exact Hcq|]. split; [exact Hlo|].
    intros x Hx Hxlo.
    destruct (Z_lt_le_dec x q) as [Hlt | Hge]; [|exact Hge]. exfalso.
    assert (q0 + 1 <= x) as Hx0 by nia.
    rewrite Hq in Hlt.
    specialize (Hleast (x - (q0 + 1)) ltac:(lia)).
    replace (q0 + 1 + (x - (q0 + 1))) with x in Hleast by lia. congruence.
Qed.

(** ** The tiling of [crossOff] *)

Lemma write_back_app (done rest seg' : list Z) k :
  (k <= length rest)%nat -> length seg' = k ->
  EratSmall.write_back (done ++ rest) (Z.of_nat (length done)) seg'
  = (done ++ seg') ++ drop k rest.
Proof.
  intros Hk Hlen. unfold EratSmall.write_back.
  rewrite Nat2Z.id, take_app_length, Hlen.
  rewrite drop_app_add'; [ | reflexivity].
  rewrite <- app_assoc. reflexivity.
Qed.

Lemma view_app (done rest : list Z) e :
  Z.of_nat (length done) <= e <= Z.of_nat (length (done ++ rest)) ->
  EratSmall.view (done ++ rest) (Z.of_nat (length done)) e
  = Ok (take (Z.to_nat (e - Z.of_nat (length done))) rest).
Proof.
  intros He. unfold EratSmall.view.
  rewrite (proj2 (Z.leb_le 0 _)) by lia.
  rewrite (proj2 (Z.leb_le _ e)) by lia.
  rewrite (proj2 (Z.leb_le e _)) by lia.
  cbn. rewrite Nat2Z.id, drop_app_length. reflexivity.
Qed.

(** The loop over the tiles does what the inner [crossOff] does on the rest
    of the array in one call. *)
Lemma crossOff_loop_whole fuel : forall l1 done rest primes rest' primes',
  Forall stored primes -> 0 < l1 ->
  Z.of_nat (length (done ++ rest)) + l1 < 2 ^ 64 ->
  (length rest < fuel)%nat -> rest <> [] ->
  EratSmall.crossOff_inner rest primes = Ok (rest', primes') ->
  EratSmall.crossOff_loop fuel l1 (done ++ rest) (Z.of_nat (length (done ++ rest))) primes
    (Z.of_nat (length done)) = Ok (done ++ rest', primes').
Proof.
  induction fuel as [|fuel IH]; intros l1 done rest primes rest' primes' Hst Hl1 Hsz Hfuel Hne Hin;
    [lia|].
  assert (0 < length rest)%nat as Hpos by (destruct rest; [congruence | cbn; lia]).
  cbn [EratSmall.crossOff_loop].
  rewrite length_app in *.
  rewrite (proj2 (Z.ltb_lt _ _)) by lia.
  rewrite u64_small by lia.
  remember (Z.min (Z.of_nat (length done) + l1) (Z.of_nat (length done + length rest))) as e eqn:Ee.
  rewrite <- (length_app done rest).
  rewrite view_app by (rewrite length_app; lia).
  remember (Z.to_nat (e - Z.of_nat (length done))) as k eqn:Ek.
  assert (0 < k <= length rest)%nat as Hk by lia.
  cbn.
  destruct (crossOff_inner_Ok primes (take k rest) Hst) as (seg' & primes1 & E1 & Hlen1 & _ & Hst1).
  rewrite E1. cbn.
  rewrite length_take in Hlen1.
  rewrite (write_back_app done rest seg' k) by lia.
  destruct (decide (drop k rest = [])) as [Hnil | Hcons].
  - (* the last tile *)
    rewrite Hnil, app_nil_r.
    assert (take k rest = rest) as Htake.
    { rewrite <- (take_drop k rest) at 2. rewrite Hnil, app_nil_r. reflexivity. }
    rewrite Htake in E1. rewrite Hin in E1. injection E1 as <- <-.
    assert (length rest = k) as Hkn.
    { rewrite <- Htake at 1. rewrite length_take. lia. }
    destruct fuel as [|fuel]; [lia|]. cbn [EratSmall.crossOff_loop].
    rewrite length_app.
    rewrite (proj2 (Z.ltb_ge _ _)) by lia.
    reflexivity.
  - destruct (crossOff_inner_Ok primes1 (drop k rest) Hst1) as (rest2' & primes2 & E2 & Hlen2 & _ & _).
    pose proof (crossOff_inner_app primes _ _ _ _ _ _ Hst E1 E2) as Happ.
    rewrite take_drop in Happ. rewrite Hin in Happ. injection Happ as -> ->.
    assert (length (drop k rest) = (length rest - k)%nat) as Hdrop by apply length_drop.
    assert (Z.of_nat (length done) + l1 = Z.of_nat (length (done ++ seg'))) as Hi.
    { rewrite length_app.
      destruct (Z_lt_le_dec (Z.of_nat (length done) + l1) (Z.of_nat (length done + length rest)));
        [lia|].
      exfalso. apply Hcons. apply drop_ge. lia. }
    rewrite Hi.
    replace (Z.of_nat (length (done ++ rest)))
      with (Z.of_nat (length ((done ++ seg') ++ drop k rest)))
      by (rewrite !length_app; lia).
    rewrite (IH l1 (done ++ seg') (drop k rest) primes1 rest2' primes2);
      try assumption; try lia.
    + rewrite <- app_assoc. reflexivity.
    + rewrite !length_app. lia.
Qed.

Lemma crossOff_vector_whole e sieve sieve' primes' :
  Forall stored (EratSmall.primes_ e) -> 0 < EratSmall.l1CacheSize_ e ->
  Z.of_nat (length sieve) + EratSmall.l1CacheSize_ e < 2 ^ 64 ->
  sieve <> [] ->
  EratSmall.crossOff_inner sieve (EratSmall.primes_ e) = Ok (sieve', primes') ->
  EratSmall.crossOff_vector e sieve
  = Ok (sieve', EratSmall.mk (EratSmall.enabled_ e) (EratSmall.maxPrime_ e)
                  (EratSmall.l1CacheSize_ e) (EratSmall.stop_ e) primes').
Proof.
  intros Hst Hl1 Hsz Hne Hin.
  unfold EratSmall.crossOff_vector, EratSmall.crossOff.
  pose proof (crossOff_loop_whole (S (Z.to_nat (Z.of_nat (length sieve))))
                (EratSmall.l1CacheSize_ e) [] sieve (EratSmall.primes_ e) sieve' primes'
                Hst Hl1 Hsz ltac:(lia) Hne Hin) as Hloop.
  cbn [app length] in Hloop. change (Z.of_nat 0) with 0 in Hloop.
  rewrite Hloop. reflexivity.
Qed.

(** ** Records and the integers of a segment *)

Lemma testbit_255 b : 0 <= b < 8 -> Z.testbit 255 b = true.
Proof.
  intros H.
  assert (b = 0 \/ b = 1 \/ b = 2 \/ b = 3 \/ b = 4 \/ b = 5 \/ b = 6 \/ b = 7) as Hc by lia.
  repeat (destruct Hc as [-> | Hc]); [.. | subst b]; reflexivity.
Qed.

Lemma bit_at_replicate n k b :
  0 <= k < Z.of_nat n -> 0 <= b < 8 -> bit_at (replicate n 255) k b = true.
Proof.
  intros Hk Hb. unfold bit_at.
  rewrite lookup_replicate_2 by lia. apply testbit_255. exact Hb.
Qed.

Lemma crossOff_prime_bits base s prime q s' prime' :
  stored prime -> pending base prime q -> base mod 30 = 0 ->
  EratSmall.crossOff_prime s prime = Ok (s', prime') ->
  forall j b, 0 <= j < Z.of_nat (length s) -> 0 <= b < 8 ->
    bit_at s' j b = true <->
    bit_at s j b = true
    /\ ~ (exists x, q <= x /\ prime_value prime * x = base + 30 * j + bit_value b).
Proof.
  intros Hst Hpend Hbase Hrun j b Hj Hb.
  destruct (crossOff_prime_strikes s prime Hst) as (t & mi & w & E & St & _ & _).
  rewrite Hrun in E. injection E as -> ->.
  destruct Hst as (Hsp & Hsp' & Hmi & Hwi).
  exact (strikes_to_bits _ _ _ _ _ _ St base q Hpend Hbase Hsp (land_63 _ Hwi)
           ltac:(lia) eq_refl j b Hj Hb).
Qed.

(** With the first multiple pending, the multiples struck in the segment are
    all the multiples of the prime in it. *)
Lemma first_multiple_struck base prime q j b :
  1 <= prime -> base mod 30 = 0 -> 0 <= j -> 0 <= b < 8 ->
  first_multiple prime (base + 7) q ->
  (exists x, q <= x /\ prime * x = base + 30 * j + bit_value b)
  <-> (prime | base + 30 * j + bit_value b).
Proof.
  intros Hp Hbase Hj Hb (Hcop & Hlo & Hleast). split.
  - intros (x & _ & E). exists x. lia.
  - intros (x & E). exists x.
    assert (prime * x = base + 30 * j + bit_value b) as E' by lia.
    split; [|exact E'].
    apply Hleast.
    + exact (quotient_coprime30 base j b prime x Hbase Hb E').
    + pose proof (bit_value_bounds b Hb). lia.
Qed.

Lemma crossOff_prime_first_bits base s prime s' prime' :
  stored prime -> first_pending base prime -> base mod 30 = 0 ->
  EratSmall.crossOff_prime s prime = Ok (s', prime') ->
  forall j b, 0 <= j < Z.of_nat (length s) -> 0 <= b < 8 ->
    bit_at s' j b = true <->
    bit_at s j b = true /\ ~ (prime_value prime | base + 30 * j + bit_value b).
Proof.
  intros Hst (q & Hpend & Hfirst) Hbase Hrun j b Hj Hb.
  rewrite (crossOff_prime_bits base s prime q s' prime' Hst Hpend Hbase Hrun j b Hj Hb).
  rewrite first_multiple_struck; [reflexivity | | assumption | lia | assumption | assumption].
  destruct Hst as (Hsp & _ & _ & Hwi). apply prime_of_pos; [exact Hsp | apply land_63; exact Hwi].
Qed.

(** The inner [crossOff] clears the bits of the multiples of its primes. *)
Lemma crossOff_inner_first_bits base primes : forall s s' primes',
  Forall (fun prime => stored prime /\ first_pending base prime) primes ->
  base mod 30 = 0 ->
  EratSmall.crossOff_inner s primes = Ok (s', primes') ->
  forall j b, 0 <= j < Z.of_nat (length s) -> 0 <= b < 8 ->
    bit_at s' j b = true <->
    bit_at s j b = true
    /\ Forall (fun prime => ~ (prime_value prime | base + 30 * j + bit_value b)) primes.
Proof.
  induction primes as [|prime rest IH]; intros s s' primes' Hall Hbase Hrun j b Hj Hb.
  - cbn in Hrun. injection Hrun as <- <-. split; [intros H; split; [exact H | constructor] | tauto].
  - inversion Hall as [|? ? [Hst Hfirst] Hrest]; subst.
    cbn in Hrun. apply bind_Ok in Hrun. destruct Hrun as ([t prime1] & E1 & Hrun).
    apply bind_Ok in Hrun. destruct Hrun as ([u rest1] & E2 & Hrun).
    injection Hrun as <- <-.
    assert (length t = length s) as Hlen.
    { destruct (crossOff_prime_strikes s prime Hst) as (t0 & mi & w & E & St & _ & _).
      rewrite E1 in E. injection E as -> ->. apply strikes_to_length in St. exact St. }
    rewrite (IH t u rest1 Hrest Hbase E2 j b ltac:(lia) Hb).
    rewrite (crossOff_prime_first_bits base s prime t prime1 Hst Hfirst Hbase E1 j b Hj Hb).
    rewrite Forall_cons. tauto.
Qed.

(** The record that the inner [crossOff] leaves designates the first multiple
    in the next segment. *)
Lemma crossOff_prime_first_pending base s prime s' prime' :
  stored prime -> first_pending base prime ->
  EratSmall.crossOff_prime s prime = Ok (s', prime') ->
  getSievingPrime prime' = getSievingPrime prime
  /\ prime_value prime' = prime_value prime
  /\ stored prime'
  /\ first_pending (base + 30 * Z.of_nat (length s)) prime'.
Proof.
  intros Hst (q & Hpend & Hcop & Hlo & Hleast) Hrun.
  destruct (crossOff_prime_strikes s prime Hst) as (t & mi & w & E & St & Hst' & Hw').
  rewrite Hrun in E. injection E as -> ->.
  destruct Hst as (Hsp & Hsp' & Hmi & Hwi).
  destruct (strikes_to_pending _ _ _ _ _ _ St base q Hpend Hsp (land_63 _ Hwi) ltac:(lia))
    as (q' & Hd' & Hle & Hmi' & Hpr & Hleast').
  cbn [fst snd] in *.
  assert (case_of (set prime mi w) = w) as Hcase by (apply land_63_small; exact Hw').
  split; [reflexivity|]. split; [|split; [exact Hst'|]].
  - unfold prime_value. rewrite Hcase. exact Hpr.
  - exists q'. unfold pending, prime_value. rewrite Hcase. cbn [set getSievingPrime getMultipleIndex].
    split; [exact Hd'|]. rewrite Hpr. fold (case_of prime). fold (prime_value prime).
    pose proof (prime_of_pos (getSievingPrime prime) (case_of prime) Hsp (land_63 _ Hwi)) as Hpos.
    fold (prime_value prime) in Hpos.
    destruct Hd' as [Hd' Hq'].
    destruct (strike_facts w Hw')
      as (b0 & m0 & a0 & M & A & b' & m' & a' & M' & A' & Hs0 & Hb0 & _ & _ & F).
    destruct F. rewrite Hs0 in Hd'. rewrite Hb0 in Hq'. cbn [fst snd] in Hd', Hq'.
    rewrite Hpr in Hd'. fold (case_of prime) in Hd'. fold (prime_value prime) in Hd'.
    pose proof (bit_value_bounds b0 cf_bit0).
    split; [|split].
    + replace q' with (1 + M + 30 * (q' / 30)) by (Z.to_euclidean_division_equations; lia).
      rewrite coprime30_add. exact cf_coprime0.
    + lia.
    + intros x Hx Hxlo. apply Hleast'; try assumption.
      apply Hleast; [exact Hx | lia].
Qed.

(** ** The large pre-sieve *)

Lemma cursors_are_inside bufs : forall pos0 pos offset,
  buffers_ok bufs -> cursors bufs pos0 pos offset -> cursors_inside bufs pos.
Proof.
  induction bufs as [|buf bufs IH]; intros [|p0 pos0] [|p pos] offset Hok Hc; cbn in *;
    try tauto.
  inversion Hok as [|? ? [Hpos _] Hrest]; subst.
  destruct Hc as (Hp0 & -> & Hc). split; [|eapply IH; eassumption].
  apply Z.mod_pos_bound. exact Hpos.
Qed.

Lemma initial_pos_cursors bufs : forall segmentLow,
  buffers_ok bufs -> 0 <= segmentLow ->
  exists pos0, PreSieve.initial_pos bufs segmentLow = Ok pos0 /\ cursors bufs pos0 pos0 0.
Proof.
  induction bufs as [|buf bufs IH]; intros segmentLow Hok Hlow.
  - exists []. split; [reflexivity | exact I].
  - inversion Hok as [|? ? [Hpos Hlt] Hrest]; subst.
    destruct (IH segmentLow Hrest Hlow) as (pos0 & E & Hc).
    cbn [PreSieve.initial_pos]. rewrite u64_small by lia.
    rewrite (proj2 (Z.eqb_neq _ 0)) by lia. rewrite E. cbn.
    eexists. split; [reflexivity|]. cbn [cursors].
    assert (0 <= segmentLow mod (PreSieve.size buf * 30) / 30 < PreSieve.size buf) as Hp.
    { pose proof (Z.mod_pos_bound segmentLow (PreSieve.size buf * 30) ltac:(lia)).
      split; [apply Z.div_pos; lia | apply Z.div_lt_upper_bound; lia]. }
    split; [lia|]. split; [|exact Hc].
    rewrite Z.add_0_r. symmetry. apply Z.mod_small. exact Hp.
Qed.

Lemma min_left_fits bufs : forall pos count,
  cursors_inside bufs pos -> buffers_ok bufs -> 1 <= count ->
  1 <= PreSieve.min_left bufs pos count <= count
  /\ fits bufs pos (PreSieve.min_left bufs pos count).
Proof.
  induction bufs as [|buf bufs IH]; intros [|p pos] count Hin Hok Hcount; cbn in *;
    try tauto; try lia.
  destruct Hin as [Hp Hin]. inversion Hok as [|? ? [Hpos Hlt] Hrest]; subst.
  rewrite u64_small by lia.
  destruct (IH pos (Z.min (PreSieve.size buf - p) count) Hin Hrest ltac:(lia)) as [Hm Hf].
  split; [lia|]. split; [lia | exact Hf].
Qed.

Lemma fits_le bufs : forall pos count count',
  fits bufs pos count -> count' <= count -> fits bufs pos count'.
Proof.
  induction bufs as [|buf bufs IH]; intros [|p pos] count count' Hf Hle; cbn in *; try tauto.
  destruct Hf as [Hp Hf]. split; [lia | eapply IH; eassumption].
Qed.

Lemma load_nth (s : list Z) i :
  0 <= i < Z.of_nat (length s) -> load s i = Ok (nth (Z.to_nat i) s 0).
Proof.
  intros H. unfold load. rewrite (proj2 (Z.leb_le 0 i)) by lia.
  destruct (lookup_Z_lt s i H) as [x Hx]. rewrite Hx.
  rewrite (nth_lookup_Some _ _ 0 _ Hx). reflexivity.
Qed.

Lemma and_at_spec bufs : forall pos0 pos offset count t,
  buffers_ok bufs -> cursors bufs pos0 pos offset -> fits bufs pos count ->
  0 <= t < count ->
  PreSieve.and_at bufs pos t = Ok (and_spec bufs pos0 (offset + t)).
Proof.
  induction bufs as [|buf bufs IH]; intros [|p0 pos0] [|p pos] offset count t Hok Hc Hf Ht;
    cbn in Hc; try tauto; try reflexivity.
  inversion Hok as [|? ? [Hpos Hlt] Hrest]; subst.
  destruct Hc as (Hp0 & Hp & Hc). destruct Hf as [Hfit Hf].
  cbn [PreSieve.and_at and_spec].
  assert (0 <= p < PreSieve.size buf) as Hpin by (subst p; apply Z.mod_pos_bound; exact Hpos).
  assert ((p0 + (offset + t)) mod PreSieve.size buf = p + t) as Hidx.
  { rewrite Z.add_assoc, <- Zplus_mod_idemp_l, <- Hp. apply Z.mod_small. lia. }
  rewrite load_nth by (unfold PreSieve.size in *; lia). cbn.
  rewrite (IH pos0 pos offset count t Hrest Hc Hf Ht). cbn. rewrite Hidx. reflexivity.
Qed.

Lemma store_lookup (s : list Z) i v :
  0 <= i < Z.of_nat (length s) -> store s i v = Ok (<[Z.to_nat i := v]> s).
Proof.
  intros H. unfold store.
  rewrite (proj2 (Z.leb_le 0 i)), (proj2 (Z.ltb_lt i _)) by lia. reflexivity.
Qed.

Lemma andBuffers_loop_spec bufs pos0 pos offset count0 (count : nat) : forall s i,
  buffers_ok bufs -> cursors bufs pos0 pos offset -> fits bufs pos count0 ->
  0 <= offset -> 0 <= i -> i + Z.of_nat count = count0 ->
  offset + count0 <= Z.of_nat (length s) ->
  presieved_to bufs pos0 s (offset + i) ->
  exists s', PreSieve.andBuffers_loop count bufs pos s offset i = Ok s'
             /\ length s' = length s /\ presieved_to bufs pos0 s' (offset + count0).
Proof.
  induction count as [|count IH]; intros s i Hok Hc Hf Hoff Hi Hsum Hlen Hpre.
  - exists s. split; [reflexivity|]. split; [reflexivity|].
    replace count0 with i by lia. exact Hpre.
  - cbn [PreSieve.andBuffers_loop].
    rewrite (and_at_spec bufs pos0 pos offset count0 i Hok Hc Hf ltac:(lia)). cbn.
    rewrite store_lookup by lia. cbn.
    destruct (IH (<[Z.to_nat (offset + i) := and_spec bufs pos0 (offset + i)]> s) (i + 1))
      as (s' & E & Hlen' & Hpre'); try assumption; try lia.
    { rewrite length_insert. exact Hlen. }
    { intros j Hj. destruct (Z.eq_dec j (offset + i)) as [-> | Hne].
      - rewrite list_lookup_insert_eq by lia. reflexivity.
      - rewrite list_lookup_insert_ne by lia. apply Hpre. lia. }
    exists s'. split; [exact E|]. split; [|exact Hpre'].
    rewrite Hlen'. apply length_insert.
Qed.

Lemma advance_pos_cursors bufs : forall pos0 pos offset count,
  buffers_ok bufs -> cursors bufs pos0 pos offset -> fits bufs pos count -> 0 <= count ->
  cursors bufs pos0 (PreSieve.advance_pos bufs pos count) (offset + count).
Proof.
  induction bufs as [|buf bufs IH]; intros [|p0 pos0] [|p pos] offset count Hok Hc Hf Hcount;
    cbn in Hc; try tauto; try exact I.
  inversion Hok as [|? ? [Hpos Hlt] Hrest]; subst.
  destruct Hc as (Hp0 & Hp & Hc). destruct Hf as [Hfit Hf].
  assert (0 <= p < PreSieve.size buf) as Hpin by (subst p; apply Z.mod_pos_bound; exact Hpos).
  cbn [PreSieve.advance_pos cursors]. rewrite u64_small by lia.
  split; [exact Hp0|]. split; [|apply IH; assumption].
  rewrite Z.add_assoc, <- Zplus_mod_idemp_l, <- Hp.
  destruct (p + count >=? PreSieve.size buf) eqn:Hwrap.
  - replace (p + count) with (PreSieve.size buf) by lia. symmetry. apply Z_mod_same_full.
  - symmetry. apply Z.mod_small. lia.
Qed.

Lemma preSieveLarge_step_spec bufs pos0 s offset pos :
  buffers_ok bufs -> cursors bufs pos0 pos offset ->
  0 <= offset < PreSieve.size s -> PreSieve.size s < 2 ^ 64 ->
  presieved_to bufs pos0 s offset ->
  exists s' offset' pos',
    PreSieve.preSieveLarge_step bufs (s, offset, pos) = Ok (s', offset', pos')
    /\ length s' = length s
    /\ 1 <= PreSieve.min_left bufs pos (u64 (PreSieve.size s - offset))
    /\ offset < offset' <= PreSieve.size s
    /\ cursors bufs pos0 pos' offset' /\ presieved_to bufs pos0 s' offset'.
Proof.
  intros Hok Hc Hoff Hsz Hpre.
  unfold PreSieve.preSieveLarge_step, PreSieve.andBuffers.
  rewrite (u64_small (PreSieve.size s - offset)) by lia.
  pose proof (cursors_are_inside bufs pos0 pos offset Hok Hc) as Hin.
  destruct (min_left_fits bufs pos (PreSieve.size s - offset) Hin Hok ltac:(lia)) as [Hm Hf].
  remember (PreSieve.min_left bufs pos (PreSieve.size s - offset)) as count eqn:Ecount.
  destruct (andBuffers_loop_spec bufs pos0 pos offset count (Z.to_nat count) s 0)
    as (s' & E & Hlen & Hpre'); try assumption; try lia.
  { unfold PreSieve.size in *. lia. }
  { rewrite Z.add_0_r. exact Hpre. }
  rewrite E. cbn. rewrite u64_small by lia.
  eexists _, _, _. split; [reflexivity|].
  split; [exact Hlen|]. split; [lia|]. split; [lia|].
  split; [apply advance_pos_cursors; try assumption; lia | exact Hpre'].
Qed.

Lemma preSieveLarge_loop_spec fuel : forall bufs pos0 s offset pos,
  buffers_ok bufs -> cursors bufs pos0 pos offset ->
  0 <= offset <= PreSieve.size s -> PreSieve.size s < 2 ^ 64 ->
  presieved_to bufs pos0 s offset ->
  PreSieve.size s - offset < Z.of_nat fuel ->
  exists s', PreSieve.preSieveLarge_loop fuel bufs (s, offset, pos) = Ok s'
             /\ length s' = length s /\ presieved_to bufs pos0 s' (PreSieve.size s).
Proof.
  induction fuel as [|fuel IH]; intros bufs pos0 s offset pos Hok Hc Hoff Hsz Hpre Hfuel; [lia|].
  cbn [PreSieve.preSieveLarge_loop fst snd].
  destruct (offset <? PreSieve.size s) eqn:Hlt.
  - destruct (preSieveLarge_step_spec bufs pos0 s offset pos Hok Hc ltac:(lia) Hsz Hpre)
      as (s' & offset' & pos' & E & Hlen & _ & Hoff' & Hc' & Hpre').
    rewrite E. cbn.
    assert (PreSieve.size s' = PreSieve.size s) as Hsize by (unfold PreSieve.size; lia).
    destruct (IH bufs pos0 s' offset' pos' Hok Hc' ltac:(lia) ltac:(lia) Hpre' ltac:(lia))
      as (s'' & E' & Hlen' & Hpre'').
    exists s''. split; [exact E'|]. split; [congruence|]. rewrite <- Hsize. exact Hpre''.
  - exists s. split; [reflexivity|]. split; [reflexivity|].
    replace (PreSieve.size s) with offset by lia. exact Hpre.
Qed.

(** The large pre-sieve completes, and writes the AND of the buffers at
    their cursors modulo their sizes. *)
Lemma preSieveLarge_spec ps sieve segmentLow :
  buffers_ok (PreSieve.buffers_ ps) -> 0 <= segmentLow -> PreSieve.size sieve < 2 ^ 64 ->
  exists pos0 sieve',
    PreSieve.initial_pos (PreSieve.buffers_ ps) segmentLow = Ok pos0
    /\ PreSieve.preSieveLarge ps sieve segmentLow = Ok sieve'
    /\ length sieve' = length sieve
    /\ presieved_to (PreSieve.buffers_ ps) pos0 sieve' (PreSieve.size sieve).
Proof.
  intros Hok Hlow Hsz.
  destruct (initial_pos_cursors _ segmentLow Hok Hlow) as (pos0 & E & Hc).
  unfold PreSieve.preSieveLarge. rewrite E. cbn.
  destruct (preSieveLarge_loop_spec (S (length sieve)) (PreSieve.buffers_ ps) pos0 sieve 0 pos0)
    as (s' & E' & Hlen & Hpre); try assumption.
  - unfold PreSieve.size. lia.
  - intros j Hj. lia.
  - unfold PreSieve.size. lia.
  - exists pos0, s'. repeat split; assumption.
Qed.

(** ** The small pre-sieve *)

Lemma copy_n_tiled buffer i0 s to from count :
  tiled buffer i0 s to -> (i0 + to) mod PreSieve.size buffer = from ->
  0 <= from -> 0 <= count -> 0 <= to ->
  from + count <= PreSieve.size buffer -> to + count <= PreSieve.size s ->
  exists s', PreSieve.copy_n buffer from count s to = Ok s'
             /\ length s' = length s /\ tiled buffer i0 s' (to + count).
Proof.
  intros Ht Hfrom H0 H1 H2 Hsrc Hdst. unfold PreSieve.copy_n.
  rewrite (proj2 (Z.leb_le 0 from)), (proj2 (Z.leb_le 0 count)),
    (proj2 (Z.leb_le (from + count) _)), (proj2 (Z.leb_le 0 to)),
    (proj2 (Z.leb_le (to + count) _)) by lia.
  cbn [andb]. eexists. split; [reflexivity|].
  unfold PreSieve.size in *.
  assert (length (take (Z.to_nat to) s) = Z.to_nat to) as Hl1
    by (rewrite length_take; lia).
  assert (length (take (Z.to_nat count) (drop (Z.to_nat from) buffer)) = Z.to_nat count) as Hl2
    by (rewrite length_take, length_drop; lia).
  split.
  - rewrite !length_app, Hl1, Hl2, length_drop. lia.
  - intros j Hj. destruct (Z_lt_le_dec j to) as [Hlt | Hge].
    + rewrite lookup_app_l by lia. rewrite lookup_take_lt by lia. apply Ht. lia.
    + rewrite lookup_app_r by lia. rewrite Hl1.
      rewrite lookup_app_l by lia.
      rewrite lookup_take_lt by lia. rewrite lookup_drop. f_equal.
      assert ((i0 + j) mod PreSieve.size buffer = from + (j - to)) as ->.
      { unfold PreSieve.size.
        replace (i0 + j) with (i0 + to + (j - to)) by lia.
        rewrite <- Zplus_mod_idemp_l, Hfrom. apply Z.mod_small. lia. }
      lia.
Qed.

Lemma preSieveSmall_loop_spec buffer i0 fuel : forall s i,
  0 < PreSieve.size buffer -> PreSieve.size s + PreSieve.size buffer < 2 ^ 64 ->
  tiled buffer i0 s i -> (i0 + i) mod PreSieve.size buffer = 0 ->
  0 <= i < PreSieve.size s -> PreSieve.size s - i < Z.of_nat fuel ->
  exists s' i',
    PreSieve.preSieveSmall_loop fuel buffer s i = Ok (s', i')
    /\ length s' = length s /\ tiled buffer i0 s' i'
    /\ (i0 + i') mod PreSieve.size buffer = 0
    /\ 0 <= i' < PreSieve.size s /\ PreSieve.size s <= i' + PreSieve.size buffer.
Proof.
  induction fuel as [|fuel IH]; intros s i Hpos Hsz Ht Hmod Hi Hfuel; [lia|].
  cbn [PreSieve.preSieveSmall_loop]. rewrite u64_small by lia.
  destruct (i + PreSieve.size buffer <? PreSieve.size s) eqn:Hlt.
  - destruct (copy_n_tiled buffer i0 s i 0 (PreSieve.size buffer))
      as (s1 & E & Hlen & Ht1); try assumption; try lia.
    rewrite E. cbn.
    assert (PreSieve.size s1 = PreSieve.size s) as Hsize by (unfold PreSieve.size; lia).
    destruct (IH s1 (i + PreSieve.size buffer)) as (s' & i' & E' & Hlen' & Ht' & Hmod' & Hi' & Hend);
      try assumption; try lia.
    { rewrite Z.add_assoc, <- Zplus_mod_idemp_l, Hmod. apply Z_mod_same_full. }
    exists s', i'. rewrite <- Hsize.
    split; [exact E'|]. split; [congruence|]. tauto.
  - exists s, i. split; [reflexivity|]. split; [reflexivity|]. repeat split; try assumption; lia.
Qed.

Lemma size_buffer_7_11_13 : PreSieve.size PreSieve.buffer_7_11_13 = 1001.
Proof. reflexivity. Qed.

(** Both branches of the small pre-sieve write the periodic extension of the
    static buffer. *)
Lemma preSieveSmall_spec sieve segmentLow :
  0 <= segmentLow -> PreSieve.size sieve + 1001 < 2 ^ 64 ->
  exists sieve',
    PreSieve.preSieveSmall sieve segmentLow = Ok sieve'
    /\ length sieve' = length sieve
    /\ tiled PreSieve.buffer_7_11_13 (segmentLow mod 30030 / 30) sieve' (PreSieve.size sieve).
Proof.
  intros Hlow Hsz. unfold PreSieve.preSieveSmall.
  pose proof size_buffer_7_11_13 as Hsize.
  remember PreSieve.buffer_7_11_13 as buffer eqn:Ebuf. rewrite Hsize.
  rewrite (u64_small (1001 * 30)) by lia. change (1001 * 30) with 30030.
  remember (segmentLow mod 30030 / 30) as i0 eqn:Ei0.
  assert (0 <= i0 < 1001) as Hi0.
  { subst i0. pose proof (Z.mod_pos_bound segmentLow 30030 ltac:(lia)).
    split; [apply Z.div_pos; lia | apply Z.div_lt_upper_bound; lia]. }
  rewrite (u64_small (1001 - i0)) by lia.
  assert (tiled buffer i0 sieve 0) as Ht0 by (intros j Hj; lia).
  assert ((i0 + 0) mod PreSieve.size buffer = i0) as Hm0
    by (rewrite Z.add_0_r, Hsize; apply Z.mod_small; lia).
  destruct (PreSieve.size sieve <=? 1001 - i0) eqn:Hle.
  - destruct (copy_n_tiled buffer i0 sieve 0 i0 (PreSieve.size sieve))
      as (s' & E & Hlen & Ht); try assumption; try lia.
    { unfold PreSieve.size. lia. }
    exists s'. split; [exact E|]. split; [exact Hlen|]. exact Ht.
  - destruct (copy_n_tiled buffer i0 sieve 0 i0 (1001 - i0))
      as (s1 & E1 & Hlen1 & Ht1); try assumption; try lia.
    rewrite E1. cbn [mbind result_bind].
    assert (PreSieve.size s1 = PreSieve.size sieve) as Hsize1 by (unfold PreSieve.size; lia).
    destruct (preSieveSmall_loop_spec buffer i0 (length sieve) s1 (1001 - i0))
      as (s2 & i & E2 & Hlen2 & Ht2 & Hmod & Hi & Hend); try assumption; try lia.
    { rewrite Hsize. replace (i0 + (1001 - i0)) with 1001 by lia. reflexivity. }
    { unfold PreSieve.size in *. lia. }
    rewrite E2. cbn [mbind result_bind].
    assert (PreSieve.size s2 = PreSieve.size sieve) as Hsize2 by (unfold PreSieve.size in *; lia).
    rewrite Hsize2. rewrite u64_small by lia.
    destruct (copy_n_tiled buffer i0 s2 i 0 (PreSieve.size sieve - i))
      as (s3 & E3 & Hlen3 & Ht3); try assumption; try lia.
    exists s3. split; [exact E3|]. split; [congruence|].
    intros j Hj. apply Ht3. lia.
Qed.

(** ** The buffers of the large pre-sieve *)

Lemma add_primes_spec start primes : forall e,
  Forall (fun p => 7 <= p /\ p + 29 < 2 ^ 64 /\ Wheel.coprime30 p = true) primes ->
  0 <= start -> start mod 30 = 0 ->
  exists recs,
    fold_left (fun e prime => Wheel.addSievingPrime e prime start) primes e
    = EratSmall.mk (EratSmall.enabled_ e) (EratSmall.maxPrime_ e) (EratSmall.l1CacheSize_ e)
        (EratSmall.stop_ e) (EratSmall.primes_ e ++ recs)
    /\ Forall (fun prime => stored prime /\ first_pending start prime) recs
    /\ map prime_value recs = primes.
Proof.
  induction primes as [|p primes IH]; intros e Hall Hstart Hmod.
  - exists []. cbn. rewrite app_nil_r. destruct e; repeat split; constructor.
  - inversion Hall as [|? ? (Hp & Hp' & Hcop) Hrest]; subst.
    destruct (addSievingPrime_designates e p start Hp Hcop Hstart Hmod)
      as (mi & w & q & E & Hw & Hmi & Hmi' & Hpo & Hd & Hfirst).
    cbn [fold_left]. rewrite E.
    destruct (IH (EratSmall.mk (EratSmall.enabled_ e) (EratSmall.maxPrime_ e)
                    (EratSmall.l1CacheSize_ e) (EratSmall.stop_ e)
                    (EratSmall.primes_ e ++ [mkSievingPrime (p / 30) mi w])) Hrest Hstart Hmod)
      as (recs & E' & Hrecs & Hmap).
    exists (mkSievingPrime (p / 30) mi w :: recs).
    rewrite E'. cbn [EratSmall.enabled_ EratSmall.maxPrime_ EratSmall.l1CacheSize_
                       EratSmall.stop_ EratSmall.primes_].
    rewrite <- app_assoc. split; [reflexivity|].
    assert (case_of (mkSievingPrime (p / 30) mi w) = w) as Hcase by (apply land_63_small; exact Hw).
    assert (prime_value (mkSievingPrime (p / 30) mi w) = p) as Hpv
      by (unfold prime_value; rewrite Hcase; exact Hpo).
    split; [constructor; [|exact Hrecs] | cbn [map]; rewrite Hpv, Hmap; reflexivity].
    split.
    + unfold stored. cbn [getSievingPrime getMultipleIndex getWheelIndex].
      repeat split; try lia; Z.to_euclidean_division_equations; lia.
    + exists q. unfold pending. rewrite Hpv, Hcase. split; [exact Hd | exact Hfirst].
Qed.

Lemma divide_shift p k x : (p | k) -> ((p | 30 * k + x) <-> (p | x)).
Proof.
  intros [t Ht]. split; intros [u Hu].
  - exists (u - 30 * t). lia.
  - exists (u + 30 * t). lia.
Qed.

(** The buffer that the body of the loop of [initBuffers] makes. *)
Lemma initBuffer_spec primes product :
  fold_left (fun product prime => u64 (product * prime)) primes 30 = product ->
  product mod 30 = 0 -> 0 < product -> product * 2 < 2 ^ 64 ->
  List.last primes 0 <= product / 30 * 3 ->
  Forall (fun p => 7 <= p /\ p + 29 < 2 ^ 64 /\ Wheel.coprime30 p = true
                   /\ (p | product / 30)) primes ->
  exists buf,
    PreSieve.initBuffer primes = Ok (buf, List.last primes 0) /\ buffer_of primes buf.
Proof.
  intros Hprod Hmod Hpos Hlt Hmax Hall.
  assert (0 < product / 30) as Hsize by (Z.to_euclidean_division_equations; lia).
  assert (product = 30 * (product / 30)) as H30 by (Z.to_euclidean_division_equations; lia).
  unfold PreSieve.initBuffer. rewrite Hprod.
  remember (replicate (Z.to_nat (product / 30)) 255) as buf0 eqn:Ebuf.
  assert (PreSieve.size buf0 = product / 30) as Hsz0
    by (subst buf0; unfold PreSieve.size; rewrite length_replicate; lia).
  rewrite Hsz0. unfold EratSmall.init.
  rewrite (u64_small (product / 30 * 3)) by lia.
  rewrite Z.gtb_ltb.
  rewrite (proj2 (Z.ltb_ge _ _)) by lia.
  cbn [mbind result_bind EratSmall.primes_ EratSmall.new].
  destruct (add_primes_spec product primes
              (EratSmall.mk true (List.last primes 0) (product / 30)
                 (u64 (product + product)) []))
    as (recs & E & Hrecs & Hmap); try lia.
  { eapply Forall_impl; [exact Hall|]. cbn. tauto. }
  rewrite E. cbn [EratSmall.enabled_ EratSmall.maxPrime_ EratSmall.l1CacheSize_
                     EratSmall.stop_ EratSmall.primes_ app].
  assert (Forall stored recs) as Hst by (eapply Forall_impl; [exact Hrecs|]; cbn; tauto).
  destruct (crossOff_inner_Ok recs buf0 Hst) as (buf & recs' & Ein & Hlen & _ & _).
  rewrite (crossOff_vector_whole _ buf0 buf recs'); cbn [EratSmall.primes_ EratSmall.l1CacheSize_];
    try assumption; try (unfold PreSieve.size in *; lia).
  2:{ subst buf0. destruct (Z.to_nat (product / 30)) eqn:En; [lia | discriminate]. }
  cbn [mbind result_bind]. exists buf. split; [reflexivity|].
  assert (PreSieve.size buf = product / 30) as Hsz by (unfold PreSieve.size in *; lia).
  unfold buffer_of. rewrite Hsz.
  split; [lia|]. split; [lia|]. split.
  - eapply Forall_impl; [exact Hall|]. cbn. intros p (? & ? & ? & ?). split; [lia | assumption].
  - intros j b Hj Hb.
    rewrite (crossOff_inner_first_bits product recs buf0 buf recs' Hrecs Hmod Ein j b
               ltac:(unfold PreSieve.size in *; lia) Hb).
    subst buf0. rewrite bit_at_replicate by lia.
    rewrite <- Hmap. rewrite Forall_map.
    assert (forall rec, In rec recs ->
              ((prime_value rec | product + 30 * j + bit_value b)
               <-> (prime_value rec | 30 * j + bit_value b))) as Hequiv.
    { intros rec Hin. rewrite List.Forall_forall in Hall.
      assert (In (prime_value rec) primes) as Hinp by (rewrite <- Hmap; apply in_map; exact Hin).
      destruct (Hall _ Hinp) as (_ & _ & _ & Hd).
      rewrite <- (divide_shift _ _ (30 * j + bit_value b) Hd).
      assert (product + 30 * j + bit_value b
              = 30 * (product / 30) + (30 * j + bit_value b)) as -> by lia.
      reflexivity. }
    rewrite !List.Forall_forall. split.
    + intros [_ H] rec Hin Hdiv. apply (H rec Hin). apply Hequiv; assumption.
    + intros H. split; [reflexivity|]. intros rec Hin Hdiv.
      apply (H rec Hin). apply Hequiv; assumption.
Qed.

Ltac buffer_instance :=
  match goal with
  | |- exists buf, PreSieve.initBuffer ?primes = _ /\ _ =>
      let v := eval vm_compute in
        (fold_left (fun product prime => u64 (product * prime)) primes 30) in
      apply (initBuffer_spec primes v);
      [ vm_compute; reflexivity
      | reflexivity
      | lia
      | lia
      | vm_compute; intros H; discriminate H
      | repeat (apply List.Forall_cons;
                [ split; [lia | split; [lia | split; [reflexivity
                  | apply Z.mod_divide; [lia | reflexivity]]]] | ]);
        apply List.Forall_nil ]
  end.

Lemma bufferPrimes_buffers :
  Forall (fun primes =>
            exists buf, PreSieve.initBuffer primes = Ok (buf, List.last primes 0)
                        /\ buffer_of primes buf)
    PreSieve.bufferPrimes.
Proof.
  unfold PreSieve.bufferPrimes.
  repeat (apply List.Forall_cons; [buffer_instance | ]). apply List.Forall_nil.
Qed.

Lemma initBuffers_loop_spec todo : forall i ps,
  length (PreSieve.buffers_ ps) = (i + length todo)%nat ->
  Forall (fun primes =>
            exists buf, PreSieve.initBuffer primes = Ok (buf, List.last primes 0)
                        /\ buffer_of primes buf) todo ->
  exists ps',
    PreSieve.initBuffers_loop i todo ps = Ok ps'
    /\ PreSieve.totalDist_ ps' = PreSieve.totalDist_ ps
    /\ take i (PreSieve.buffers_ ps') = take i (PreSieve.buffers_ ps)
    /\ Forall2 buffer_of todo (drop i (PreSieve.buffers_ ps')).
Proof.
  induction todo as [|primes todo IH]; intros i ps Hlen Hall.
  - exists ps. cbn in *. split; [reflexivity|]. split; [reflexivity|]. split; [reflexivity|].
    rewrite drop_ge by lia. constructor.
  - inversion Hall as [|? ? (buf & E & Hbuf) Hrest]; subst.
    cbn [PreSieve.initBuffers_loop]. rewrite E. cbn [mbind result_bind].
    cbn [length] in Hlen.
    destruct (IH (S i) (PreSieve.mk (<[i := buf]> (PreSieve.buffers_ ps)) (PreSieve.totalDist_ ps)
                          (Z.max (PreSieve.maxPrime_ ps) (List.last primes 0))))
      as (ps' & E' & Hdist & Htake & Hdrop); [cbn; rewrite length_insert; lia | exact Hrest |].
    cbn [PreSieve.buffers_ PreSieve.totalDist_] in *.
    exists ps'. split; [exact E'|]. split; [exact Hdist|].
    assert (PreSieve.buffers_ ps' !! i = Some buf) as Hi.
    { rewrite <- (lookup_take_lt _ (S i)) by lia. rewrite Htake.
      rewrite lookup_take_lt by lia. apply list_lookup_insert_eq. lia. }
    split.
    + transitivity (take i (take (S i) (PreSieve.buffers_ ps'))).
      { rewrite take_take. f_equal. lia. }
      rewrite Htake, take_take. replace (Nat.min i (S i)) with i by lia.
      apply take_insert_ge. lia.
    + rewrite (drop_S _ _ _ Hi). constructor; assumption.
Qed.

Lemma initBuffers_built ps :
  length (PreSieve.buffers_ ps) = 8%nat ->
  exists ps', PreSieve.initBuffers ps = Ok ps'
              /\ PreSieve.totalDist_ ps' = PreSieve.totalDist_ ps /\ built ps'.
Proof.
  intros Hlen.
  destruct (initBuffers_loop_spec PreSieve.bufferPrimes 0 ps Hlen bufferPrimes_buffers)
    as (ps' & E & Hdist & _ & Hb).
  exists ps'. split; [exact E|]. split; [exact Hdist | exact Hb].
Qed.

(** ** The bits of a pre-sieved segment *)

Lemma divides_any_false primes n :
  Forall (fun p => 1 <= p) primes ->
  (divides_any primes n = false <-> Forall (fun p => ~ (p | n)) primes).
Proof.
  induction 1 as [|p primes Hp Hrest IH]; cbn.
  - split; [constructor | reflexivity].
  - rewrite orb_false_iff, IH, List.Forall_cons_iff, Z.eqb_neq.
    rewrite (Z.mod_divide n p) by lia. reflexivity.
Qed.

Lemma bit_at_nth (s : list Z) j b :
  0 <= j < Z.of_nat (length s) -> bit_at s j b = Z.testbit (nth (Z.to_nat j) s 0) b.
Proof.
  intros H. unfold bit_at. destruct (lookup_Z_lt s j H) as [x Hx].
  rewrite Hx, (nth_lookup_Some _ _ 0 _ Hx). reflexivity.
Qed.

Lemma initial_cursor segmentLow size :
  0 < size -> segmentLow mod 30 = 0 ->
  segmentLow mod (size * 30) / 30 = (segmentLow / 30) mod size.
Proof.
  intros Hsize Hmod.
  rewrite (Z.mul_comm size 30).
  rewrite Z.rem_mul_r by lia. rewrite Hmod, Z.add_0_l.
  rewrite Z.mul_comm. apply Z.div_mul. lia.
Qed.

(** The byte of a buffer at the cursor of an integer tells whether the primes
    of the buffer divide the integer. *)
Lemma buffer_of_bit primes buf segmentLow j b :
  buffer_of primes buf -> 0 <= segmentLow -> segmentLow mod 30 = 0 -> 0 <= j -> 0 <= b < 8 ->
  Z.testbit
    (nth (Z.to_nat ((segmentLow mod (PreSieve.size buf * 30) / 30 + j) mod PreSieve.size buf))
       buf 0) b = true
  <-> Forall (fun p => ~ (p | segmentLow + 30 * j + bit_value b)) primes.
Proof.
  intros (Hpos & Hlt & Hdiv & Hbits) Hlow Hmod Hj Hb.
  rewrite initial_cursor by assumption.
  rewrite Zplus_mod_idemp_l.
  remember ((segmentLow / 30 + j) mod PreSieve.size buf) as y eqn:Ey.
  assert (0 <= y < PreSieve.size buf) as Hy by (subst y; apply Z.mod_pos_bound; exact Hpos).
  rewrite <- bit_at_nth by (unfold PreSieve.size in *; lia).
  rewrite (Hbits y b Hy Hb).
  rewrite !List.Forall_forall. 
  assert (forall p, In p primes ->
            ((p | 30 * y + bit_value b) <-> (p | segmentLow + 30 * j + bit_value b))) as Hequiv.
  { intros p Hin. rewrite List.Forall_forall in Hdiv. destruct (Hdiv p Hin) as [_ [t Ht]].
    assert (segmentLow + 30 * j + bit_value b
            = 30 * (t * ((segmentLow / 30 + j) / PreSieve.size buf) * p)
              + (30 * y + bit_value b)) as ->.
    { subst y. pose proof (Z.div_mod (segmentLow / 30 + j) (PreSieve.size buf) ltac:(lia)).
      pose proof (Z.div_mod segmentLow 30 ltac:(lia)). nia. }
    symmetry. apply divide_shift. apply Z.divide_factor_r. }
  split; intros H p Hin Hd; apply (H p Hin); apply Hequiv; assumption.
Qed.

Lemma testbit_minus_one b : 0 <= b -> Z.testbit (-1) b = true.
Proof. intros H. apply (Z.bits_m1 b H). Qed.

Lemma and_spec_bits segmentLow j b : forall primesL bufs pos0,
  Forall2 buffer_of primesL bufs ->
  PreSieve.initial_pos bufs segmentLow = Ok pos0 ->
  0 <= segmentLow -> segmentLow mod 30 = 0 -> 0 <= j -> 0 <= b < 8 ->
  Z.testbit (and_spec bufs pos0 j) b = true
  <-> Forall (fun p => ~ (p | segmentLow + 30 * j + bit_value b)) (concat primesL).
Proof.
  intros primesL bufs pos0 H. revert pos0.
  induction H as [|primes buf primesL bufs Hbuf Hrest IH]; intros pos0 Hpos Hlow Hmod Hj Hb.
  - cbn in Hpos. injection Hpos as <-. cbn. rewrite testbit_minus_one by lia.
    split; [constructor | reflexivity].
  - cbn [PreSieve.initial_pos] in Hpos.
    destruct (u64 (PreSieve.size buf * 30) =? 0); [discriminate|].
    apply bind_Ok in Hpos. destruct Hpos as (pos & E & Hpos). injection Hpos as <-.
    cbn [and_spec concat]. rewrite Z.land_spec, andb_true_iff.
    rewrite (IH pos E Hlow Hmod Hj Hb).
    destruct Hbuf as (Hp & Hlt & Hd & Hbits).
    rewrite (u64_small (PreSieve.size buf * 30)) by lia.
    rewrite (buffer_of_bit primes buf segmentLow j b (conj Hp (conj Hlt (conj Hd Hbits)))
               Hlow Hmod Hj Hb).
    rewrite Forall_app. reflexivity.
Qed.

Lemma check_buffer_spec primes buf : forall j0 j b,
  check_buffer primes j0 buf = true ->
  0 <= j < Z.of_nat (length buf) -> 0 <= b < 8 ->
  bit_at buf j b = negb (divides_any primes (30 * (j0 + j) + bit_value b)).
Proof.
  induction buf as [|x rest IH]; intros j0 j b Hc Hj Hb; cbn [length] in Hj; [lia|].
  cbn [check_buffer] in Hc. apply andb_prop in Hc. destruct Hc as [Hx Hc].
  destruct (Z.eq_dec j 0) as [-> | Hne].
  - rewrite forallb_forall in Hx.
    assert (In b [0; 1; 2; 3; 4; 5; 6; 7]) as Hin by (cbn; lia).
    specialize (Hx b Hin). apply Bool.eqb_prop in Hx.
    change (bit_at (x :: rest) 0 b) with (Z.testbit x b).
    rewrite Hx, Z.add_0_r. reflexivity.
  - specialize (IH (j0 + 1) (j - 1) b Hc ltac:(lia) Hb).
    replace (j0 + 1 + (j - 1)) with (j0 + j) in IH by lia. rewrite <- IH.
    unfold bit_at. replace (Z.to_nat j) with (S (Z.to_nat (j - 1))) by lia. reflexivity.
Qed.

Lemma static_buffer_checked : check_buffer [7; 11; 13] 0 PreSieve.buffer_7_11_13 = true.
Proof. vm_compute. reflexivity. Qed.

(** The static buffer is the buffer of the primes 7, 11 and 13. *)
Lemma static_buffer_of : buffer_of [7; 11; 13] PreSieve.buffer_7_11_13.
Proof.
  unfold buffer_of. rewrite size_buffer_7_11_13.
  split; [lia|]. split; [lia|]. split.
  - repeat (apply List.Forall_cons; [split; [lia | apply Z.mod_divide; [lia | reflexivity]] | ]).
    apply List.Forall_nil.
  - intros j b Hj Hb.
    rewrite (check_buffer_spec [7; 11; 13] _ 0 j b static_buffer_checked)
      by (try assumption; pose proof size_buffer_7_11_13; unfold PreSieve.size in *; lia).
    rewrite negb_true_iff, Z.add_0_l.
    apply divides_any_false.
    repeat (apply List.Forall_cons; [lia|]). apply List.Forall_nil.
Qed.

(** The primes of the eight buffers are the primes from 7 to 97. *)
Lemma bufferPrimes_below_100 p :
  In p (concat PreSieve.bufferPrimes) <-> In p primes_below_100.
Proof.
  unfold PreSieve.bufferPrimes, primes_below_100. cbn [concat app].
  split; intros H; repeat (destruct H as [<- | H]; [cbn; lia|]); destruct H.
Qed.

Lemma built_buffers_ok ps : built ps -> buffers_ok (PreSieve.buffers_ ps).
Proof.
  unfold built, buffers_ok. generalize PreSieve.bufferPrimes as primesL.
  generalize (PreSieve.buffers_ ps) as bufs.
  intros bufs primesL H. induction H as [|primes buf primesL bufs Hbuf Hrest IH]; constructor.
  - destruct Hbuf as (Hpos & Hlt & _). split; assumption.
  - exact IH.
Qed.

Lemma built_not_empty ps : built ps -> PreSieve.buffer ps 0 <> [].
Proof.
  unfold built, PreSieve.buffer, PreSieve.bufferPrimes. intros H.
  inversion H as [|primes buf primesL bufs Hbuf Hrest E1 E2]; subst.
  destruct Hbuf as (Hpos & _). change (buf <> []). intros ->.
  unfold PreSieve.size in Hpos. cbn [length] in Hpos. lia.
Qed.

(** The pass of [preSieve] before the correction of the first bytes. *)
Lemma presieve_pass ps sieve segmentLow :
  initialized ps -> 0 <= segmentLow -> segmentLow mod 30 = 0 ->
  PreSieve.size sieve + 1001 < 2 ^ 64 ->
  exists s,
    (if bool_decide (PreSieve.buffer ps 0 = []) then PreSieve.preSieveSmall sieve segmentLow
     else PreSieve.preSieveLarge ps sieve segmentLow) = Ok s
    /\ length s = length sieve
    /\ forall j b, 0 <= j < PreSieve.size sieve -> 0 <= b < 8 ->
         (bit_at s j b = true
          <-> Forall (fun p => ~ (p | segmentLow + 30 * j + bit_value b)) (presieve_primes ps)).
Proof.
  intros [Hsmall | Hlarge] Hlow Hmod Hsz; unfold presieve_primes.
  - assert (PreSieve.buffer ps 0 = []) as Hb by (unfold PreSieve.buffer; rewrite Hsmall; reflexivity).
    rewrite !bool_decide_eq_true_2 by exact Hb.
    destruct (preSieveSmall_spec sieve segmentLow Hlow Hsz) as (s & E & Hlen & Ht).
    exists s. split; [exact E|]. split; [exact Hlen|].
    intros j b Hj Hb'.
    rewrite bit_at_nth by (unfold PreSieve.size in *; lia).
    pose proof (Ht j Hj) as Hlookup.
    assert (nth (Z.to_nat j) s 0
            = nth (Z.to_nat ((segmentLow mod 30030 / 30 + j)
                             mod PreSieve.size PreSieve.buffer_7_11_13))
                PreSieve.buffer_7_11_13 0) as ->.
    { destruct (lookup_Z_lt s j ltac:(unfold PreSieve.size in *; lia)) as [x Hx].
      rewrite (nth_lookup_Some _ _ 0 _ Hx). rewrite Hx in Hlookup.
      symmetry. apply nth_lookup_Some. symmetry. exact Hlookup. }
    pose proof (buffer_of_bit [7; 11; 13] PreSieve.buffer_7_11_13 segmentLow j b
                  static_buffer_of Hlow Hmod ltac:(lia) Hb') as Hbit.
    rewrite size_buffer_7_11_13 in Hbit |- *. exact Hbit.
  - pose proof (built_not_empty ps Hlarge) as Hne.
    rewrite !bool_decide_eq_false_2 by exact Hne.
    destruct (preSieveLarge_spec ps sieve segmentLow (built_buffers_ok ps Hlarge) Hlow ltac:(lia))
      as (pos0 & s & Epos & E & Hlen & Hpre).
    exists s. split; [exact E|]. split; [exact Hlen|].
    intros j b Hj Hb.
    rewrite bit_at_nth by (unfold PreSieve.size in *; lia).
    rewrite (nth_lookup_Some _ _ 0 _ (Hpre j Hj)).
    rewrite (and_spec_bits segmentLow j b _ _ pos0 Hlarge Epos Hlow Hmod ltac:(lia) Hb).
    rewrite !List.Forall_forall.
    split; intros H p Hin; apply H; apply bufferPrimes_below_100; exact Hin.
Qed.

(** ** The correction of the first bytes *)

Lemma corrections_ok_spec primes t b :
  corrections_ok primes = true -> 0 <= t < 4 -> 0 <= b < 8 ->
  Z.testbit (nth (Z.to_nat t) corrections 0) b = presieved primes (30 * t + bit_value b).
Proof.
  intros Hok Ht Hb. unfold corrections_ok in Hok. rewrite forallb_forall in Hok.
  assert (In t [0; 1; 2; 3]) as Hint by (cbn; lia).
  specialize (Hok t Hint). cbv beta in Hok. rewrite forallb_forall in Hok.
  assert (In b [0; 1; 2; 3; 4; 5; 6; 7]) as Hinb by (cbn; lia).
  apply Bool.eqb_prop. exact (Hok b Hinb).
Qed.

Ltac decide_tests :=
  repeat match goal with
         | |- context [?a <? ?b] =>
             first [ rewrite (proj2 (Z.ltb_lt a b)) by lia
                   | rewrite (proj2 (Z.ltb_ge a b)) by lia ]
         end.

Ltac do_stores :=
  repeat (rewrite store_lookup by (rewrite ?length_insert; lia); cbn [mbind result_bind]).

Ltac lookup_inserts :=
  repeat first [ rewrite list_lookup_insert_eq by (rewrite ?length_insert; lia)
               | rewrite list_lookup_insert_ne by lia ].

Lemma correction_spec s segmentLow :
  0 <= segmentLow -> segmentLow mod 30 = 0 -> 120 <= segmentLow + 30 * PreSieve.size s ->
  exists s',
    (st ← PreSieve.store_if (segmentLow <? 30) 255 (s, 0);
     st ← PreSieve.store_if (segmentLow <? 60) 239 st;
     st ← PreSieve.store_if (segmentLow <? 90) 119 st;
     st ← PreSieve.store_if (segmentLow <? 120) 63 st;
     Ok st.1) = Ok s'
    /\ length s' = length s
    /\ forall k, 0 <= k < PreSieve.size s ->
         s' !! Z.to_nat k
         = if segmentLow + 30 * k <? 120 then corrections !! Z.to_nat (segmentLow / 30 + k)
           else s !! Z.to_nat k.
Proof.
  intros Hlow Hmod Hlen. unfold PreSieve.size in *.
  assert (segmentLow = 0 \/ segmentLow = 30 \/ segmentLow = 60 \/ segmentLow = 90
          \/ 120 <= segmentLow) as Hcases by (Z.to_euclidean_division_equations; lia).
  unfold PreSieve.store_if.
  destruct Hcases as [-> | [-> | [-> | [-> | Hge]]]].
  - decide_tests. cbn [mbind result_bind]. do_stores. cbn [fst snd]. eexists.
    split; [reflexivity|].
    split; [rewrite !length_insert; reflexivity|]. intros k Hk. cbn [fst snd].
    destruct (Z.eq_dec k 0) as [-> | ?]; [lookup_inserts; reflexivity|].
    destruct (Z.eq_dec k 1) as [-> | ?]; [lookup_inserts; reflexivity|].
    destruct (Z.eq_dec k 2) as [-> | ?]; [lookup_inserts; reflexivity|].
    destruct (Z.eq_dec k 3) as [-> | ?]; [lookup_inserts; reflexivity|].
    lookup_inserts. rewrite (proj2 (Z.ltb_ge _ _)) by lia. reflexivity.
  - decide_tests. cbn [mbind result_bind]. do_stores. cbn [fst snd]. eexists.
    split; [reflexivity|].
    split; [rewrite !length_insert; reflexivity|]. intros k Hk. cbn [fst snd].
    destruct (Z.eq_dec k 0) as [-> | ?]; [lookup_inserts; reflexivity|].
    destruct (Z.eq_dec k 1) as [-> | ?]; [lookup_inserts; reflexivity|].
    destruct (Z.eq_dec k 2) as [-> | ?]; [lookup_inserts; reflexivity|].
    lookup_inserts. rewrite (proj2 (Z.ltb_ge _ _)) by lia. reflexivity.
  - decide_tests. cbn [mbind result_bind]. do_stores. cbn [fst snd]. eexists.
    split; [reflexivity|].
    split; [rewrite !length_insert; reflexivity|]. intros k Hk. cbn [fst snd].
    destruct (Z.eq_dec k 0) as [-> | ?]; [lookup_inserts; reflexivity|].
    destruct (Z.eq_dec k 1) as [-> | ?]; [lookup_inserts; reflexivity|].
    lookup_inserts. rewrite (proj2 (Z.ltb_ge _ _)) by lia. reflexivity.
  - decide_tests. cbn [mbind result_bind]. do_stores. cbn [fst snd]. eexists.
    split; [reflexivity|].
    split; [rewrite !length_insert; reflexivity|]. intros k Hk. cbn [fst snd].
    destruct (Z.eq_dec k 0) as [-> | ?]; [lookup_inserts; reflexivity|].
    lookup_inserts. rewrite (proj2 (Z.ltb_ge _ _)) by lia. reflexivity.
  - decide_tests. cbn [mbind result_bind]. exists s. split; [reflexivity|].
    split; [reflexivity|]. intros k Hk. rewrite (proj2 (Z.ltb_ge _ _)) by lia. reflexivity.
Qed.

Lemma existsb_eqb_above primes n :
  Forall (fun p => p < n) primes -> existsb (Z.eqb n) primes = false.
Proof.
  induction 1 as [|p primes Hp Hrest IH]; cbn; [reflexivity|].
  rewrite IH, (proj2 (Z.eqb_neq n p)) by lia. reflexivity.
Qed.

Lemma presieve_primes_cases ps :
  presieve_primes ps = [7; 11; 13] \/ presieve_primes ps = primes_below_100.
Proof. unfold presieve_primes. destruct (bool_decide _); [left | right]; reflexivity. Qed.

Lemma presieve_primes_facts ps :
  corrections_ok (presieve_primes ps) = true
  /\ Forall (fun p => 1 <= p) (presieve_primes ps)
  /\ Forall (fun p => p < 127) (presieve_primes ps).
Proof.
  destruct (presieve_primes_cases ps) as [-> | ->].
  - split; [vm_compute; reflexivity|].
    split; repeat (apply List.Forall_cons; [lia|]); apply List.Forall_nil.
  - split; [vm_compute; reflexivity|]. unfold primes_below_100.
    split; repeat (apply List.Forall_cons; [lia|]); apply List.Forall_nil.
Qed.

(** ** The states of the loop of [preSieveLarge] *)

Lemma loop_state_invariant bufs sieve pos0 st :
  buffers_ok bufs -> cursors bufs pos0 pos0 0 -> PreSieve.size sieve < 2 ^ 64 ->
  loop_state bufs sieve pos0 st ->
  length st.1.1 = length sieve /\ 0 <= st.1.2 <= PreSieve.size sieve
  /\ cursors bufs pos0 st.2 st.1.2 /\ presieved_to bufs pos0 st.1.1 st.1.2.
Proof.
  intros Hok Hc0 Hsz H.
  induction H as [|[[s offset] pos] st' Hst IH Hlt Hstep].
  - cbn. split; [reflexivity|]. split; [unfold PreSieve.size; lia|]. split; [exact Hc0|].
    intros j Hj. lia.
  - cbn [fst snd] in *. destruct IH as (Hlen & Hoff & Hc & Hpre).
    assert (PreSieve.size s = PreSieve.size sieve) as Hsize by (unfold PreSieve.size; lia).
    destruct (preSieveLarge_step_spec bufs pos0 s offset pos Hok Hc ltac:(lia) ltac:(lia) Hpre)
      as (s' & offset' & pos' & E & Hlen' & _ & Hoff' & Hc' & Hpre').
    rewrite Hstep in E. injection E as ->. cbn [fst snd].
    split; [congruence|]. split; [lia|]. split; assumption.
Qed.

(** * The properties of the specification *)

(** ** C1: the bits that [preSieve] leaves *)

(** C1, as the specification states it, at [segmentLow = 0] on a new
    instance.  By the table of section 3, bit 4 of byte 1 is the bit of
    30 + 17 = 47, one of the primes whose bits are left set; the code clears
    it: in the layout of the code it is the bit of 49.  On ten bytes, bit 4
    of byte 9, the bit of 289 = 17 * 17 in the layout of the code, is set:
    the static buffer removes the multiples of 7, 11 and 13 only.  On three
    bytes, the correction of the integers below 120 writes beyond the
    sieve. *)
Lemma preSieve_section3_table_fails :
  PreSieve.preSieve (PreSieve.mk (replicate 8 []) 0 0) (replicate 4 0) 0
  = Ok [255; 239; 119; 63]
  /\ bit_at [255; 239; 119; 63] 1 4 = false
  /\ 0 + 30 * 1 + spec_residue 4 = 47
  /\ presieved primes_below_100 47 = true
  /\ 0 + 30 * 1 + bit_value 4 = 49
  /\ (exists sieve',
        PreSieve.preSieve (PreSieve.mk (replicate 8 []) 0 0) (replicate 10 0) 0 = Ok sieve'
        /\ bit_at sieve' 9 4 = true
        /\ 0 + 30 * 9 + bit_value 4 = 289 /\ 289 mod 17 = 0)
  /\ PreSieve.preSieve (PreSieve.mk (replicate 8 []) 0 0) (replicate 3 0) 0
     = Err (OutOfBounds 3).
Proof.
  split; [vm_compute; reflexivity|]. split; [reflexivity|]. split; [reflexivity|].
  split; [reflexivity|]. split; [reflexivity|].
  split; [|vm_compute; reflexivity].
  eexists. split; [vm_compute; reflexivity|]. repeat split; reflexivity.
Qed.

(** C1, amended: for every [segmentLow] that is a multiple of 30 and every
    sieve that holds the corrected bytes of the integers below 120, after
    [preSieve] bit [b] of byte [k] is set exactly when
    [n = segmentLow + 30 * k + bit_value b], with the layout of the code
    (7->bit0, 11->bit1, 13->bit2, 17->bit3, 19->bit4, 23->bit5, 29->bit6,
    31->bit7), is divisible by none of the pre-sieving primes or is one of
    them; the pre-sieving primes are 7, 11, 13 while the large buffers are
    not built and the 22 primes from 7 to 97 once they are.  The bit of 49 is
    cleared. *)
Theorem preSieve_bits ps sieve segmentLow :
  initialized ps ->
  0 <= segmentLow -> segmentLow mod 30 = 0 ->
  120 <= segmentLow + 30 * PreSieve.size sieve ->
  PreSieve.size sieve + 1001 < 2 ^ 64 ->
  exists sieve',
    PreSieve.preSieve ps sieve segmentLow = Ok sieve'
    /\ length sieve' = length sieve
    /\ forall k b, 0 <= k < PreSieve.size sieve -> 0 <= b < 8 ->
         bit_at sieve' k b
         = presieved (presieve_primes ps) (segmentLow + 30 * k + bit_value b).
Proof.
  intros Hinit Hlow Hmod Hroom Hsz.
  destruct (presieve_pass ps sieve segmentLow Hinit Hlow Hmod Hsz) as (s & E & Hlen & Hbits).
  unfold PreSieve.preSieve. rewrite E. cbn [mbind result_bind].
  assert (PreSieve.size s = PreSieve.size sieve) as Hsize by (unfold PreSieve.size; lia).
  destruct (correction_spec s segmentLow Hlow Hmod ltac:(lia)) as (s' & E' & Hlen' & Hlook).
  change (Z.lxor 255 (Z.shiftl 1 4)) with 239.
  change (Z.lxor (Z.lxor 255 (Z.shiftl 1 3)) (Z.shiftl 1 7)) with 119.
  change (Z.lxor (Z.lxor 255 (Z.shiftl 1 6)) (Z.shiftl 1 7)) with 63.
  rewrite E'. exists s'. split; [reflexivity|]. split; [congruence|].
  intros k b Hk Hb.
  destruct (presieve_primes_facts ps) as (Hcorr & Hpos & Hsmall).
  specialize (Hlook k ltac:(lia)).
  destruct (segmentLow + 30 * k <? 120) eqn:Hlow120.
  - assert (0 <= segmentLow / 30 + k < 4) as Ht by (Z.to_euclidean_division_equations; lia).
    unfold bit_at. rewrite Hlook.
    destruct (corrections !! Z.to_nat (segmentLow / 30 + k)) as [x|] eqn:Hx.
    + rewrite <- (nth_lookup_Some _ _ 0 _ Hx).
      rewrite (corrections_ok_spec _ _ b Hcorr Ht Hb). f_equal.
      Z.to_euclidean_division_equations; lia.
    + apply lookup_ge_None in Hx. change (length corrections) with 4%nat in Hx. lia.
  - assert (bit_at s' k b = bit_at s k b) as -> by (unfold bit_at; rewrite Hlook; reflexivity).
    unfold presieved. rewrite (existsb_eqb_above (presieve_primes ps)), orb_false_r.
    + specialize (Hbits k b Hk Hb). rewrite <- (divides_any_false _ _ Hpos) in Hbits.
      destruct (bit_at s k b), (divides_any (presieve_primes ps)
                                  (segmentLow + 30 * k + bit_value b)); cbn;
        try reflexivity; destruct Hbits as [H1 H2];
        [specialize (H1 eq_refl) | specialize (H2 eq_refl)]; discriminate.
    + pose proof (bit_value_bounds b Hb). apply Z.ltb_ge in Hlow120.
      eapply Forall_impl; [exact Hsmall|]. intros x Hx. cbv beta in *. lia.
Qed.

Lemma preSieve_bits_witness :
  exists sieve',
    PreSieve.preSieve (PreSieve.mk (replicate 8 []) 0 0) (replicate 5 0) 0 = Ok sieve'
    /\ length sieve' = length (replicate 5 0)
    /\ forall k b, 0 <= k < PreSieve.size (replicate 5 0) -> 0 <= b < 8 ->
         bit_at sieve' k b
         = presieved (presieve_primes (PreSieve.mk (replicate 8 []) 0 0))
             (0 + 30 * k + bit_value b).
Proof.
  apply (preSieve_bits (PreSieve.mk (replicate 8 []) 0 0) (replicate 5 0) 0).
  - left. reflexivity.
  - lia.
  - reflexivity.
  - vm_compute. discriminate.
  - vm_compute. reflexivity.
Defined.

(** ** C2: the bits that [crossOff] clears for one prime *)

(** C2, as the specification states it, for the prime 7 at [segmentLow = 0]
    on three bytes: [crossOff] clears bit 0 of byte 0, which by the table of
    section 3 is the bit of 1, not a multiple of 7, and leaves bit 1 of byte
    0 set, which by that table is the bit of 7.  With the record that stands
    for 7 by the table of section 3 instead (byte 0, the case whose mask is
    BIT1), [crossOff] clears bit 0 of byte 2, by that table the bit of 61. *)
Lemma crossOff_section3_table_fails :
  let e := (EratSmall.init (fun _ => true) EratSmall.new 1000 1024 100).1 in
  (exists e',
     EratSmall.crossOff (Wheel.addSievingPrime e 7 0) (replicate 3 255) 3
     = Ok ([254; 239; 119], e'))
  /\ bit_at [254; 239; 119] 0 0 = false
  /\ (0 + 30 * 0 + spec_residue 0) mod 7 <> 0
  /\ bit_at [254; 239; 119] 0 1 = true
  /\ (0 + 30 * 0 + spec_residue 1) mod 7 = 0
  /\ (EratSmall.strike 6).1.1 = 1
  /\ (exists primes',
        EratSmall.crossOff_inner (replicate 3 255) [mkSievingPrime (7 / 30) 0 6]
        = Ok ([253; 223; 254], primes'))
  /\ bit_at [253; 223; 254] 2 0 = false
  /\ (0 + 30 * 2 + spec_residue 0) mod 7 <> 0.
Proof.
  cbv zeta. split; [eexists; vm_compute; reflexivity|].
  split; [reflexivity|]. split; [vm_compute; discriminate|].
  split; [reflexivity|]. split; [reflexivity|]. split; [reflexivity|].
  split; [eexists; vm_compute; reflexivity|].
  split; [reflexivity|]. vm_compute; discriminate.
Qed.

(** C2, amended: for every [p] with [7 <= p <= maxPrime] that is coprime to
    30, every [segmentLow] that is a multiple of 30 and every all-ones sieve,
    [addSievingPrime(p, segmentLow)] on an initialised [EratSmall] and then
    [crossOff] clear exactly the bits of the multiples of [p] in the segment,
    by the layout of the code: bit [b] of byte [k] stands for
    [segmentLow + 30 * k + bit_value b] with the values 7, 11, 13, 17, 19,
    23, 29, 31 for the bits 0 to 7; every other bit is left set. *)
Theorem crossOff_clears_multiples reserves stop l1CacheSize maxPrime prime segmentLow
    (n : nat) :
  7 <= prime <= maxPrime -> Wheel.coprime30 prime = true -> prime + 29 < 2 ^ 64 ->
  0 <= segmentLow -> segmentLow mod 30 = 0 ->
  0 <= l1CacheSize -> Z.of_nat n + l1CacheSize < 2 ^ 64 ->
  (EratSmall.init reserves EratSmall.new stop l1CacheSize maxPrime).2 = Ok tt ->
  let e := (EratSmall.init reserves EratSmall.new stop l1CacheSize maxPrime).1 in
  exists sieve' e',
    EratSmall.crossOff (Wheel.addSievingPrime e prime segmentLow) (replicate n 255) (Z.of_nat n)
    = Ok (sieve', e')
    /\ length sieve' = n
    /\ forall k b, 0 <= k < Z.of_nat n -> 0 <= b < 8 ->
         (bit_at sieve' k b = false <-> (prime | segmentLow + 30 * k + bit_value b)).
Proof.
  intros Hprime Hcop Hfit Hlow Hmod Hl1 Hsz Hinit e.
  assert (0 < l1CacheSize /\ e = EratSmall.mk true maxPrime l1CacheSize stop []) as [Hpos He].
  { subst e. unfold EratSmall.init in *.
    destruct (maxPrime >? u64 (l1CacheSize * 3)) eqn:Htest; [discriminate|].
    destruct (reserves maxPrime); [|discriminate].
    split; [|reflexivity].
    destruct (Z.eq_dec l1CacheSize 0) as [-> | ?]; [|lia].
    change (u64 (0 * 3)) with 0 in Htest. lia. }
  clearbody e. subst e.
  destruct (addSievingPrime_designates (EratSmall.mk true maxPrime l1CacheSize stop [])
              prime segmentLow ltac:(lia) Hcop Hlow Hmod)
    as (mi & w & q & E & Hw & Hmi & Hmi' & Hpo & Hd & Hfirst).
  rewrite E. cbn [EratSmall.enabled_ EratSmall.maxPrime_ EratSmall.l1CacheSize_
                              EratSmall.stop_ EratSmall.primes_ app].
  set (rec := mkSievingPrime (prime / 30) mi w).
  assert (case_of rec = w) as Hcase by (apply land_63_small; exact Hw).
  assert (prime_value rec = prime) as Hpv by (unfold prime_value; rewrite Hcase; exact Hpo).
  assert (stored rec) as Hst.
  { unfold stored, rec. cbn [getSievingPrime getMultipleIndex getWheelIndex].
    repeat split; try lia; Z.to_euclidean_division_equations; lia. }
  assert (first_pending segmentLow rec) as Hfp.
  { exists q. unfold pending. rewrite Hpv, Hcase. split; [exact Hd | exact Hfirst]. }
  assert (Forall stored [rec]) as Hall
    by (apply List.Forall_cons; [exact Hst | apply List.Forall_nil]).
  assert (Forall (fun prime => stored prime /\ first_pending segmentLow prime) [rec]) as Hall'
    by (apply List.Forall_cons; [split; assumption | apply List.Forall_nil]).
  destruct (crossOff_inner_Ok [rec] (replicate n 255) Hall)
    as (sieve' & primes' & Ein & Hlen & _ & _).
  rewrite length_replicate in Hlen.
  assert (forall k b, 0 <= k < Z.of_nat n -> 0 <= b < 8 ->
            (bit_at sieve' k b = false <-> (prime | segmentLow + 30 * k + bit_value b))) as Hbits.
  { intros k b Hk Hb.
    pose proof (crossOff_inner_first_bits segmentLow [rec] (replicate n 255) sieve' primes'
                  Hall' Hmod Ein k b
                  ltac:(rewrite length_replicate; exact Hk) Hb) as Hiff.
    rewrite bit_at_replicate in Hiff by assumption.
    rewrite List.Forall_cons_iff, Hpv in Hiff.
    rewrite <- (Z.mod_divide _ prime) in Hiff |- * by lia.
    destruct Hiff as [Hiff1 Hiff2].
    destruct (Z.eq_dec ((segmentLow + 30 * k + bit_value b) mod prime) 0) as [Hdiv | Hndiv];
      destruct (bit_at sieve' k b).
    - exfalso. destruct (Hiff1 eq_refl) as [_ [Hn _]]. exact (Hn Hdiv).
    - split; intros _; [exact Hdiv | reflexivity].
    - split; intros H; [discriminate H | exfalso; exact (Hndiv H)].
    - exfalso.
      assert (false = true) as Habs
        by (apply Hiff2; split; [reflexivity | split; [exact Hndiv | apply List.Forall_nil]]).
      discriminate Habs. }
  destruct n as [|n'].
  - exists [], (EratSmall.mk true maxPrime l1CacheSize stop [rec]).
    split; [reflexivity|]. split; [reflexivity|]. intros k b Hk. lia.
  - pose proof (crossOff_vector_whole (EratSmall.mk true maxPrime l1CacheSize stop [rec])
                  (replicate (S n') 255) sieve' primes') as Hwhole.
    unfold EratSmall.crossOff_vector in Hwhole. rewrite length_replicate in Hwhole.
    eexists sieve', _. split; [|split; [exact Hlen | exact Hbits]].
    apply Hwhole; cbn [EratSmall.primes_ EratSmall.l1CacheSize_]; try assumption.
    discriminate.
Qed.

Lemma crossOff_clears_multiples_witness :
  let e := (EratSmall.init (fun _ => true) EratSmall.new 1000 1024 100).1 in
  exists sieve' e',
    EratSmall.crossOff (Wheel.addSievingPrime e 7 0) (replicate 4 255) (Z.of_nat 4)
    = Ok (sieve', e')
    /\ length sieve' = 4%nat
    /\ forall k b, 0 <= k < Z.of_nat 4 -> 0 <= b < 8 ->
         (bit_at sieve' k b = false <-> (7 | 0 + 30 * k + bit_value b)).
Proof.
  apply (crossOff_clears_multiples (fun _ => true) 1000 1024 100 7 0 4);
    first [reflexivity | lia].
Defined.

(** ** C3: the strike sequence is resumable *)

(** C3: for every list of stored records and every array split in two parts,
    the inner [crossOff] over the whole array completes with the same bytes
    and the same records as the inner [crossOff] over the first part followed,
    from the records that it leaves, by the inner [crossOff] over the second
    part. *)
Theorem crossOff_resumable primes s1 s2 :
  Forall stored primes ->
  exists s1' primes1 s2' primes2,
    EratSmall.crossOff_inner s1 primes = Ok (s1', primes1)
    /\ EratSmall.crossOff_inner s2 primes1 = Ok (s2', primes2)
    /\ EratSmall.crossOff_inner (s1 ++ s2) primes = Ok (s1' ++ s2', primes2).
Proof.
  intros Hst.
  destruct (crossOff_inner_Ok primes s1 Hst) as (s1' & primes1 & E1 & _ & _ & Hst1).
  destruct (crossOff_inner_Ok primes1 s2 Hst1) as (s2' & primes2 & E2 & _ & _ & _).
  exists s1', primes1, s2', primes2.
  split; [exact E1|]. split; [exact E2|].
  exact (crossOff_inner_app primes s1 s2 s1' primes1 s2' primes2 Hst E1 E2).
Qed.

Lemma crossOff_resumable_witness :
  exists s1' primes1 s2' primes2,
    EratSmall.crossOff_inner [255; 255] [mkSievingPrime 0 0 0; mkSievingPrime 0 1 9]
    = Ok (s1', primes1)
    /\ EratSmall.crossOff_inner [255; 255; 255] primes1 = Ok (s2', primes2)
    /\ EratSmall.crossOff_inner ([255; 255] ++ [255; 255; 255])
         [mkSievingPrime 0 0 0; mkSievingPrime 0 1 9]
       = Ok (s1' ++ s2', primes2).
Proof.
  apply (crossOff_resumable [mkSievingPrime 0 0 0; mkSievingPrime 0 1 9]
           [255; 255] [255; 255; 255]).
  repeat (apply List.Forall_cons; [unfold stored; cbn; lia|]). apply List.Forall_nil.
Defined.

(** ** C8: the strikes stay inside the array *)

(** C8, as the specification states it, for the record with
    [sievingPrime = 0], [multipleIndex = 2^64 - 1] and [wheelIndex = 0] on
    four bytes: the fields are [uint64_t] values and [wheelIndex] is below
    64; the address [sieve + multipleIndex] wraps to [sieve - 1], which is
    below [loopEnd = sieve], and the first statement of the unrolled loop
    writes at the index -1. *)
Lemma crossOff_wrapped_index_fails :
  0 <= getSievingPrime (mkSievingPrime 0 (2 ^ 64 - 1) 0) < 2 ^ 64
  /\ 0 <= getMultipleIndex (mkSievingPrime 0 (2 ^ 64 - 1) 0) < 2 ^ 64
  /\ 0 <= getWheelIndex (mkSievingPrime 0 (2 ^ 64 - 1) 0) < 64
  /\ EratSmall.crossOff_inner (replicate 4 255) [mkSievingPrime 0 (2 ^ 64 - 1) 0]
     = Err (OutOfBounds (-1)).
Proof.
  split; [cbn; lia|]. split; [cbn; lia|]. split; [cbn; lia|].
  vm_compute. reflexivity.
Qed.

(** C8, amended: for every array and every list of stored records, whose
    [multipleIndex] is below [2^63], the inner [crossOff], whose every read
    and write goes through a checked index, completes: no strike of an
    unrolled loop and no strike of the per-strike path falls outside the
    array, and the fuel of the switch suffices. *)
Theorem crossOff_in_bounds sieve primes :
  Forall stored primes ->
  exists sieve' primes',
    EratSmall.crossOff_inner sieve primes = Ok (sieve', primes')
    /\ length sieve' = length sieve /\ length primes' = length primes.
Proof.
  intros Hst.
  destruct (crossOff_inner_Ok primes sieve Hst) as (s' & primes' & E & Hlen & Hlen' & _).
  exists s', primes'. repeat split; assumption.
Qed.

Lemma crossOff_in_bounds_witness :
  exists sieve' primes',
    EratSmall.crossOff_inner (replicate 40 255) [mkSievingPrime 0 0 48; mkSievingPrime 1 70 63]
    = Ok (sieve', primes')
    /\ length sieve' = length (replicate 40 255)
    /\ length primes' = length [mkSievingPrime 0 0 48; mkSievingPrime 1 70 63].
Proof.
  apply (crossOff_in_bounds (replicate 40 255) [mkSievingPrime 0 0 48; mkSievingPrime 1 70 63]).
  repeat (apply List.Forall_cons; [unfold stored; cbn; lia|]). apply List.Forall_nil.
Defined.

(** ** C9: the records after a pass *)

(** C9: for every list of stored records whose pending strikes are those of
    the first multiples of their primes in the segment at [base], the inner
    [crossOff] over the [n] bytes of the segment leaves records of the same
    primes whose pending strikes are those of the first multiples at or
    beyond the end, [multipleIndex] counted from the start [base + 30 * n] of
    the next segment. *)
Theorem crossOff_leaves_first_multiples base primes : forall sieve,
  Forall (fun prime => stored prime /\ first_pending base prime) primes ->
  exists sieve' primes',
    EratSmall.crossOff_inner sieve primes = Ok (sieve', primes')
    /\ Forall2 (fun prime prime' =>
                  getSievingPrime prime' = getSievingPrime prime
                  /\ prime_value prime' = prime_value prime
                  /\ first_pending (base + 30 * Z.of_nat (length sieve)) prime')
         primes primes'.
Proof.
  induction primes as [|prime rest IH]; intros sieve Hall.
  - exists sieve, []. split; [reflexivity | constructor].
  - inversion Hall as [|? ? [Hst Hfp] Hrest]; subst.
    destruct (crossOff_prime_strikes sieve prime Hst) as (s1 & mi & w & E & St & _ & _).
    destruct (crossOff_prime_first_pending base sieve prime s1 (set prime mi w) Hst Hfp E)
      as (Hsp & Hpv & _ & Hfp').
    apply strikes_to_length in St. cbn [fst] in St.
    destruct (IH s1 Hrest) as (s2 & rest' & E' & Hall').
    exists s2, (set prime mi w :: rest').
    cbn [EratSmall.crossOff_inner]. rewrite E. cbn [mbind result_bind]. rewrite E'.
    split; [reflexivity|]. constructor; [repeat split; assumption|].
    rewrite St in Hall'. exact Hall'.
Qed.

Lemma crossOff_leaves_first_multiples_witness :
  exists sieve' primes',
    EratSmall.crossOff_inner (replicate 3 255) [mkSievingPrime 0 0 0] = Ok (sieve', primes')
    /\ Forall2 (fun prime prime' =>
                  getSievingPrime prime' = getSievingPrime prime
                  /\ prime_value prime' = prime_value prime
                  /\ first_pending (0 + 30 * Z.of_nat (length (replicate 3 255))) prime')
         [mkSievingPrime 0 0 0] primes'.
Proof.
  apply (crossOff_leaves_first_multiples 0 [mkSievingPrime 0 0 0] (replicate 3 255)).
  apply List.Forall_cons; [|apply List.Forall_nil].
  split; [unfold stored; cbn; lia|].
  exists 1. split; [split; reflexivity|].
  split; [reflexivity|]. split; [vm_compute; discriminate|].
  intros x _. change (prime_value (mkSievingPrime 0 0 0)) with 7. lia.
Defined.

(** ** C4: the configuration error of [EratSmall::init] *)

(** C4, as the specification states it, fails in two places.  With
    [l1CacheSize = 6148914691236517206] the product [l1CacheSize * 3] is
    [2^64 + 2], which the code computes as 2: [init] throws the configuration
    error for [maxPrime = 3] although [maxPrime <= l1CacheSize * 3].  And in
    an environment that does not provide the memory for the records of
    [maxPrime = 2^62], [init(5, 2^62, 2^62)] does not throw the configuration
    error, writes the fields, and then fails in [reserve]. *)
Lemma init_fails_otherwise :
  (forall reserves e stop,
     EratSmall.init reserves e stop 6148914691236517206 3
     = (e, Err (primesieve_error "EratSmall: maxPrime > l1CacheSize * 3")))
  /\ 3 <= 6148914691236517206 * 3
  /\ EratSmall.init (fun maxPrime => maxPrime <? 2 ^ 40) EratSmall.new 5 (2 ^ 62) (2 ^ 62)
     = (EratSmall.mk true (2 ^ 62) (2 ^ 62) 5 [], Err bad_alloc)
  /\ 2 ^ 62 <= 2 ^ 62 * 3
  /\ EratSmall.mk true (2 ^ 62) (2 ^ 62) 5 [] <> EratSmall.new.
Proof.
  split; [intros reserves e stop; reflexivity|]. split; [lia|].
  split; [reflexivity|]. split; [lia|]. discriminate.
Qed.

(** C4, amended: for every object, all arguments and every environment,
    [init] throws the configuration error, with its message, exactly when
    [maxPrime] is greater than [l1CacheSize * 3] as the code computes it,
    modulo [2^64], which is the product when that is a [uint64_t]; when
    it throws that error the object is unchanged; when it does not, the
    object holds the parameters and the primes stored before, and the call
    returns exactly when [reserve] finds the memory, and fails otherwise,
    the fields written; [init(stop, 1024, 4000)] throws the configuration
    error for every [stop]. *)
Theorem init_configuration_error reserves e stop l1CacheSize maxPrime :
  let message := "EratSmall: maxPrime > l1CacheSize * 3"%string in
  let r := EratSmall.init reserves e stop l1CacheSize maxPrime in
  (r.2 = Err (primesieve_error message) <-> maxPrime > u64 (l1CacheSize * 3))
  /\ (0 <= l1CacheSize -> l1CacheSize * 3 < 2 ^ 64 ->
      (r.2 = Err (primesieve_error message) <-> maxPrime > l1CacheSize * 3))
  /\ (r.2 = Err (primesieve_error message) -> r.1 = e)
  /\ (maxPrime <= u64 (l1CacheSize * 3) ->
      r.1 = EratSmall.mk true maxPrime l1CacheSize stop (EratSmall.primes_ e)
      /\ (r.2 = Ok tt <-> reserves maxPrime = true)
      /\ (r.2 = Err bad_alloc <-> reserves maxPrime = false))
  /\ (forall reserves' e' stop',
        EratSmall.init reserves' e' stop' 1024 4000 = (e', Err (primesieve_error message))).
Proof.
  intros message r. subst r. unfold EratSmall.init.
  destruct (maxPrime >? u64 (l1CacheSize * 3)) eqn:Htest; cbn [fst snd].
  - split; [split; [lia | reflexivity]|].
    split; [intros Hl1 Hfit; rewrite (u64_small (l1CacheSize * 3)) in Htest by lia;
            split; [lia | reflexivity]|].
    split; [reflexivity|]. split; [lia|]. intros reserves' e' stop'. reflexivity.
  - split; [split; [destruct (reserves maxPrime); discriminate | lia]|].
    split; [intros Hl1 Hfit; rewrite (u64_small (l1CacheSize * 3)) in Htest by lia;
            split; [destruct (reserves maxPrime); discriminate | lia]|].
    split; [destruct (reserves maxPrime); discriminate|].
    split; [|intros reserves' e' stop'; reflexivity].
    intros _. destruct (reserves maxPrime); cbn [fst snd];
      (split; [reflexivity|]); split; split; (reflexivity || discriminate).
Qed.

Lemma init_configuration_error_witness :
  let message := "EratSmall: maxPrime > l1CacheSize * 3"%string in
  let r := EratSmall.init (fun maxPrime => maxPrime <? 2 ^ 40) EratSmall.new 1000000 32768 100 in
  (r.2 = Err (primesieve_error message) <-> 100 > u64 (32768 * 3))
  /\ (0 <= 32768 -> 32768 * 3 < 2 ^ 64 ->
      (r.2 = Err (primesieve_error message) <-> 100 > 32768 * 3))
  /\ (r.2 = Err (primesieve_error message) -> r.1 = EratSmall.new)
  /\ (100 <= u64 (32768 * 3) ->
      r.1 = EratSmall.mk true 100 32768 1000000 (EratSmall.primes_ EratSmall.new)
      /\ (r.2 = Ok tt <-> (100 <? 2 ^ 40) = true)
      /\ (r.2 = Err bad_alloc <-> (100 <? 2 ^ 40) = false))
  /\ (forall reserves' e' stop',
        EratSmall.init reserves' e' stop' 1024 4000 = (e', Err (primesieve_error message))).
Proof.
  exact (init_configuration_error (fun maxPrime => maxPrime <? 2 ^ 40) EratSmall.new
           1000000 32768 100).
Defined.

(** ** C5: the period of the large pre-sieve *)







(** ** C6: [PreSieve::init] called again *)

Lemma init_not_built ps start stop :
  PreSieve.buffer ps 0 = [] ->
  PreSieve.init ps start stop
  = let ps' := PreSieve.mk (PreSieve.buffers_ ps)
                 (u64 (PreSieve.totalDist_ ps + init_dist start stop)) (PreSieve.maxPrime_ ps) in
    if PreSieve.totalDist_ ps' <? u64 (PreSieve.buffersDist * 20) then Ok ps'
    else PreSieve.initBuffers ps'.
Proof.
  intros Hb. unfold PreSieve.init. rewrite bool_decide_eq_true_2 by exact Hb. reflexivity.
Qed.

Lemma init_built ps start stop :
  PreSieve.buffer ps 0 <> [] -> PreSieve.init ps start stop = Ok ps.
Proof.
  intros Hb. unfold PreSieve.init. rewrite bool_decide_eq_false_2 by exact Hb. reflexivity.
Qed.

(** C6, as the specification states it, for [start = 0] and
    [stop = 15 * buffersDist] on a new instance: the first call leaves the
    large buffers unbuilt and [totalDist_ = 15 * buffersDist]; the second
    call with the same arguments makes [totalDist_ = 30 * buffersDist] and
    builds the large buffers. *)
Lemma init_twice_differs :
  exists ps1 ps2,
    PreSieve.init (PreSieve.mk (replicate 8 []) 0 0) 0 96620400 = Ok ps1
    /\ PreSieve.init ps1 0 96620400 = Ok ps2
    /\ PreSieve.totalDist_ ps1 = 96620400 /\ PreSieve.buffer ps1 0 = []
    /\ PreSieve.totalDist_ ps2 = 193240800 /\ PreSieve.buffer ps2 0 <> [].
Proof.
  exists (PreSieve.mk (replicate 8 []) 96620400 0).
  destruct (initBuffers_built (PreSieve.mk (replicate 8 []) 193240800 0) eq_refl)
    as (ps2 & E & Hdist & Hb).
  exists ps2. split; [vm_compute; reflexivity|].
  split; [rewrite init_not_built by reflexivity; exact E|].
  split; [reflexivity|]. split; [reflexivity|].
  split; [exact Hdist | exact (built_not_empty ps2 Hb)].
Qed.

(** The square root of [init] is that of the [double]: at
    [stop = 16596447459839999] the conversion rounds to the square of
    128827200, where the integer square root is 128827199, and at
    [stop = 4503599761588224 = 67108865^2 - 1] the root rounds up to
    67108865.  At the first, [init(stop, stop)] on a new instance adds
    [128827200 = 20 * buffersDist] and builds the large buffers. *)
Lemma init_rounded_square_root :
  PreSieve.uint64_sqrt 16596447459839999 = 128827200
  /\ Z.sqrt 16596447459839999 = 128827199
  /\ PreSieve.uint64_sqrt 4503599761588224 = 67108865
  /\ Z.sqrt 4503599761588224 = 67108864
  /\ PreSieve.buffersDist * 20 = 128827200
  /\ exists ps,
       PreSieve.init (PreSieve.mk (replicate 8 []) 0 0) 16596447459839999 16596447459839999
       = Ok ps
       /\ PreSieve.totalDist_ ps = 128827200 /\ built ps.
Proof.
  split; [vm_compute; reflexivity|]. split; [vm_compute; reflexivity|].
  split; [vm_compute; reflexivity|]. split; [vm_compute; reflexivity|].
  split; [reflexivity|].
  destruct (initBuffers_built (PreSieve.mk (replicate 8 []) 128827200 0) eq_refl)
    as (ps & E & Hdist & Hb).
  exists ps. split; [|split; [exact Hdist | exact Hb]].
  rewrite init_not_built by reflexivity. exact E.
Qed.

(** C6, amended: [init] is idempotent once the large buffers are built: on
    an instance whose large buffers are built, and so on the instance that a
    call which builds them leaves, a call of [init] changes nothing.  On an
    instance whose large buffers are not built, a call adds
    [max(stop - start, (uint64_t) std::sqrt(stop))], the square root that of
    the [double], to [totalDist_] and builds the large buffers exactly when
    the sum is at least [20 * buffersDist]. *)
Theorem init_idempotent_once_built ps start stop :
  initialized ps -> 0 <= start < 2 ^ 64 -> 0 <= stop < 2 ^ 64 ->
  exists ps1,
    PreSieve.init ps start stop = Ok ps1
    /\ initialized ps1
    /\ (built ps -> ps1 = ps)
    /\ (built ps1 -> PreSieve.init ps1 start stop = Ok ps1)
    /\ (~ built ps ->
        PreSieve.totalDist_ ps1 = u64 (PreSieve.totalDist_ ps + init_dist start stop)
        /\ (built ps1 <-> u64 (PreSieve.buffersDist * 20) <= PreSieve.totalDist_ ps1)).
Proof.
  intros [Hsmall | Hlarge] _ _.
  - assert (PreSieve.buffer ps 0 = []) as Hb
      by (unfold PreSieve.buffer; rewrite Hsmall; reflexivity).
    rewrite (init_not_built ps start stop Hb). cbv zeta.
    set (ps' := PreSieve.mk (PreSieve.buffers_ ps)
                  (u64 (PreSieve.totalDist_ ps + init_dist start stop)) (PreSieve.maxPrime_ ps)).
    destruct (PreSieve.totalDist_ ps' <? u64 (PreSieve.buffersDist * 20)) eqn:Htest.
    + exists ps'. split; [reflexivity|]. split; [left; exact Hsmall|].
      split; [intros H; exfalso; exact (built_not_empty ps H Hb)|].
      split; [intros H; exfalso; exact (built_not_empty ps' H Hb)|].
      intros _. split; [reflexivity|].
      split; [intros H; exfalso; exact (built_not_empty ps' H Hb) | lia].
    + destruct (initBuffers_built ps' ltac:(cbn; rewrite Hsmall; reflexivity))
        as (ps1 & E & Hdist & Hbuilt).
      exists ps1. split; [exact E|]. split; [right; exact Hbuilt|].
      split; [intros H; exfalso; exact (built_not_empty ps H Hb)|].
      split; [intros _; apply init_built; exact (built_not_empty ps1 Hbuilt)|].
      intros _. split; [exact Hdist|].
      split; [intros _; rewrite Hdist; lia | intros _; exact Hbuilt].
  - pose proof (built_not_empty ps Hlarge) as Hne.
    exists ps. split; [apply init_built; exact Hne|]. split; [right; exact Hlarge|].
    split; [reflexivity|]. split; [intros _; apply init_built; exact Hne|].
    intros H. exfalso. exact (H Hlarge).
Qed.

Lemma init_idempotent_once_built_witness :
  exists ps1,
    PreSieve.init (PreSieve.mk (replicate 8 []) 0 0) 16596447459839999 16596447459839999
    = Ok ps1
    /\ initialized ps1
    /\ (built (PreSieve.mk (replicate 8 []) 0 0) -> ps1 = PreSieve.mk (replicate 8 []) 0 0)
    /\ (built ps1 ->
        PreSieve.init ps1 16596447459839999 16596447459839999 = Ok ps1)
    /\ (~ built (PreSieve.mk (replicate 8 []) 0 0) ->
        PreSieve.totalDist_ ps1
        = u64 (PreSieve.totalDist_ (PreSieve.mk (replicate 8 []) 0 0)
               + init_dist 16596447459839999 16596447459839999)
        /\ (built ps1 <-> u64 (PreSieve.buffersDist * 20) <= PreSieve.totalDist_ ps1)).
Proof.
  apply (init_idempotent_once_built (PreSieve.mk (replicate 8 []) 0 0)
           16596447459839999 16596447459839999).
  - left. reflexivity.
  - lia.
  - lia.
Defined.

(** ** C7: the small pre-sieve *)

(** C7: for every [segmentLow] that is a multiple of 30 and every sieve,
    [preSieveSmall] completes and the sieve is the periodic extension of the
    static buffer: [sieve[j] = buffer_7_11_13[(segmentLow mod 30030 / 30 + j)
    mod 1001]] for every [j] below its size, in both branches. *)
Theorem preSieveSmall_periodic sieve segmentLow :
  0 <= segmentLow -> segmentLow mod 30 = 0 -> PreSieve.size sieve + 1001 < 2 ^ 64 ->
  exists sieve',
    PreSieve.preSieveSmall sieve segmentLow = Ok sieve'
    /\ length sieve' = length sieve
    /\ forall j, 0 <= j < PreSieve.size sieve ->
         exists x,
           sieve' !! Z.to_nat j = Some x
           /\ PreSieve.buffer_7_11_13 !! Z.to_nat ((segmentLow mod 30030 / 30 + j) mod 1001)
              = Some x.
Proof.
  intros Hlow _ Hsz.
  destruct (preSieveSmall_spec sieve segmentLow Hlow Hsz) as (s & E & Hlen & Ht).
  exists s. split; [exact E|]. split; [exact Hlen|].
  intros j Hj. specialize (Ht j Hj). rewrite size_buffer_7_11_13 in Ht.
  destruct (lookup_Z_lt s j ltac:(unfold PreSieve.size in *; lia)) as [x Hx].
  exists x. split; [exact Hx|]. rewrite <- Ht. exact Hx.
Qed.

Lemma preSieveSmall_periodic_witness :
  exists sieve',
    PreSieve.preSieveSmall (replicate 1500 0) 29970 = Ok sieve'
    /\ length sieve' = length (replicate 1500 0)
    /\ forall j, 0 <= j < PreSieve.size (replicate 1500 0) ->
         exists x,
           sieve' !! Z.to_nat j = Some x
           /\ PreSieve.buffer_7_11_13 !! Z.to_nat ((29970 mod 30030 / 30 + j) mod 1001)
              = Some x.
Proof.
  apply (preSieveSmall_periodic (replicate 1500 0) 29970).
  - lia.
  - reflexivity.
  - vm_compute. reflexivity.
Defined.

(** ** C10: the loop of the large pre-sieve terminates *)

(** C10: once the buffers are built, for every sieve and every
    [segmentLow], [preSieveLarge] completes within [sieve.size()]
    iterations of its loop; at the start of every iteration each cursor is
    inside its buffer, so that [bytesToCopy >= 1], the iteration completes,
    and [offset] grows and stays at most [sieve.size()]. *)
Theorem preSieveLarge_terminates ps sieve segmentLow :
  buffers_ok (PreSieve.buffers_ ps) -> 0 <= segmentLow -> PreSieve.size sieve < 2 ^ 64 ->
  exists pos0 sieve',
    PreSieve.initial_pos (PreSieve.buffers_ ps) segmentLow = Ok pos0
    /\ PreSieve.preSieveLarge_loop (S (length sieve)) (PreSieve.buffers_ ps) (sieve, 0, pos0)
       = Ok sieve'
    /\ PreSieve.preSieveLarge ps sieve segmentLow = Ok sieve'
    /\ forall st,
         loop_state (PreSieve.buffers_ ps) sieve pos0 st ->
         st.1.2 < PreSieve.size st.1.1 ->
         cursors_inside (PreSieve.buffers_ ps) st.2
         /\ 1 <= PreSieve.min_left (PreSieve.buffers_ ps) st.2 (u64 (PreSieve.size st.1.1 - st.1.2))
         /\ exists st',
              PreSieve.preSieveLarge_step (PreSieve.buffers_ ps) st = Ok st'
              /\ st.1.2 < st'.1.2 <= PreSieve.size st'.1.1.
Proof.
  intros Hok Hlow Hsz.
  destruct (initial_pos_cursors _ segmentLow Hok Hlow) as (pos0 & Epos & Hc0).
  destruct (preSieveLarge_spec ps sieve segmentLow Hok Hlow Hsz) as (pos0' & s & Epos' & E & _).
  rewrite Epos in Epos'. injection Epos' as <-.
  exists pos0, s. split; [exact Epos|].
  split; [unfold PreSieve.preSieveLarge in E; rewrite Epos in E; exact E|].
  split; [exact E|].
  intros [[s1 offset] pos] Hst Hlt. cbn [fst snd] in *.
  destruct (loop_state_invariant _ _ _ _ Hok Hc0 Hsz Hst) as (Hlen & Hoff & Hc & Hpre).
  cbn [fst snd] in *.
  assert (PreSieve.size s1 = PreSieve.size sieve) as Hsize by (unfold PreSieve.size; lia).
  split; [exact (cursors_are_inside _ _ _ _ Hok Hc)|].
  destruct (preSieveLarge_step_spec _ pos0 s1 offset pos Hok Hc ltac:(lia) ltac:(lia) Hpre)
    as (s' & offset' & pos' & Estep & Hlen' & Hmin & Hoff' & _).
  split; [exact Hmin|].
  exists (s', offset', pos'). split; [exact Estep|]. cbn [fst snd].
  unfold PreSieve.size in *. lia.
Qed.

Lemma preSieveLarge_terminates_witness :
  exists pos0 sieve',
    PreSieve.initial_pos (PreSieve.buffers_ (PreSieve.mk [[1; 2]; [3; 4; 5]] 0 0)) 60 = Ok pos0
    /\ PreSieve.preSieveLarge_loop (S (length [0; 0; 0; 0]))
         (PreSieve.buffers_ (PreSieve.mk [[1; 2]; [3; 4; 5]] 0 0)) ([0; 0; 0; 0], 0, pos0)
       = Ok sieve'
    /\ PreSieve.preSieveLarge (PreSieve.mk [[1; 2]; [3; 4; 5]] 0 0) [0; 0; 0; 0] 60 = Ok sieve'
    /\ forall st,
         loop_state (PreSieve.buffers_ (PreSieve.mk [[1; 2]; [3; 4; 5]] 0 0)) [0; 0; 0; 0] pos0 st ->
         st.1.2 < PreSieve.size st.1.1 ->
         cursors_inside (PreSieve.buffers_ (PreSieve.mk [[1; 2]; [3; 4; 5]] 0 0)) st.2
         /\ 1 <= PreSieve.min_left (PreSieve.buffers_ (PreSieve.mk [[1; 2]; [3; 4; 5]] 0 0)) st.2
                   (u64 (PreSieve.size st.1.1 - st.1.2))
         /\ exists st',
              PreSieve.preSieveLarge_step
                (PreSieve.buffers_ (PreSieve.mk [[1; 2]; [3; 4; 5]] 0 0)) st = Ok st'
              /\ st.1.2 < st'.1.2 <= PreSieve.size st'.1.1.
Proof.
  apply (preSieveLarge_terminates (PreSieve.mk [[1; 2]; [3; 4; 5]] 0 0) [0; 0; 0; 0] 60).
  - unfold buffers_ok. cbn [PreSieve.buffers_].
    repeat (apply List.Forall_cons; [vm_compute; split; reflexivity|]). apply List.Forall_nil.
  - lia.
  - vm_compute. reflexivity.
Defined.

(** * Further properties of the code *)

(** ** The outer [crossOff]: the tiles *)

(** The loop over the tiles, on an array that goes on beyond [sieveSize]. *)
Lemma crossOff_loop_prefix fuel : forall l1 done rest tail primes rest' primes',
  Forall stored primes -> 0 < l1 ->
  Z.of_nat (length (done ++ rest)) + l1 < 2 ^ 64 ->
  (length rest < fuel)%nat -> rest <> [] ->
  EratSmall.crossOff_inner rest primes = Ok (rest', primes') ->
  EratSmall.crossOff_loop fuel l1 (done ++ rest ++ tail) (Z.of_nat (length (done ++ rest)))
    primes (Z.of_nat (length done)) = Ok (done ++ rest' ++ tail, primes').
Proof.
  induction fuel as [|fuel IH];
    intros l1 done rest tail primes rest' primes' Hst Hl1 Hsz Hfuel Hne Hin; [lia|].
  assert (0 < length rest)%nat as Hpos by (destruct rest; [congruence | cbn; lia]).
  cbn [EratSmall.crossOff_loop].
  rewrite length_app in *.
  rewrite (proj2 (Z.ltb_lt _ _)) by lia.
  rewrite u64_small by lia.
  remember (Z.min (Z.of_nat (length done) + l1) (Z.of_nat (length done + length rest))) as e eqn:Ee.
  rewrite view_app by (rewrite !length_app; lia).
  remember (Z.to_nat (e - Z.of_nat (length done))) as k eqn:Ek.
  assert (0 < k <= length rest)%nat as Hk by lia.
  rewrite take_app_le by lia.
  cbn [mbind result_bind].
  destruct (crossOff_inner_Ok primes (take k rest) Hst) as (seg' & primes1 & E1 & Hlen1 & _ & Hst1).
  rewrite E1. cbn [mbind result_bind].
  rewrite length_take in Hlen1.
  rewrite (write_back_app done (rest ++ tail) seg' k) by (rewrite ?length_app; lia).
  rewrite drop_app_le by lia.
  destruct (decide (drop k rest = [])) as [Hnil | Hcons].
  - (* the last tile *)
    rewrite Hnil. cbn [app].
    assert (take k rest = rest) as Htake.
    { rewrite <- (take_drop k rest) at 2. rewrite Hnil, app_nil_r. reflexivity. }
    rewrite Htake in E1. rewrite Hin in E1. injection E1 as <- <-.
    assert (length rest = k) as Hkn.
    { rewrite <- Htake at 1. rewrite length_take. lia. }
    destruct fuel as [|fuel]; [lia|]. cbn [EratSmall.crossOff_loop].
    rewrite (proj2 (Z.ltb_ge _ _)) by lia.
    rewrite <- app_assoc. reflexivity.
  - destruct (crossOff_inner_Ok primes1 (drop k rest) Hst1) as (rest2' & primes2 & E2 & Hlen2 & _ & _).
    pose proof (crossOff_inner_app primes _ _ _ _ _ _ Hst E1 E2) as Happ.
    rewrite take_drop in Happ. rewrite Hin in Happ. injection Happ as -> ->.
    assert (length (drop k rest) = (length rest - k)%nat) as Hdrop by apply length_drop.
    assert (Z.of_nat (length done) + l1 = Z.of_nat (length (done ++ seg'))) as Hi.
    { rewrite length_app.
      destruct (Z_lt_le_dec (Z.of_nat (length done) + l1) (Z.of_nat (length done + length rest)));
        [lia|].
      exfalso. apply Hcons. apply drop_ge. lia. }
    rewrite Hi.
    replace (Z.of_nat (length done + length rest))
      with (Z.of_nat (length ((done ++ seg') ++ drop k rest)))
      by (rewrite !length_app; lia).
    rewrite (IH l1 (done ++ seg') (drop k rest) tail primes1 rest2' primes2);
      try assumption; try lia.
    + rewrite <- !app_assoc. reflexivity.
    + rewrite !length_app. lia.
Qed.

(** The outer [crossOff] over the first [sieveSize] bytes of an array. *)
Lemma crossOff_outer e s tail :
  Forall stored (EratSmall.primes_ e) -> 0 < EratSmall.l1CacheSize_ e ->
  Z.of_nat (length s) + EratSmall.l1CacheSize_ e < 2 ^ 64 ->
  exists s' primes',
    (if decide (s = []) then s' = [] /\ primes' = EratSmall.primes_ e
     else EratSmall.crossOff_inner s (EratSmall.primes_ e) = Ok (s', primes'))
    /\ length s' = length s /\ Forall stored primes'
    /\ EratSmall.crossOff e (s ++ tail) (Z.of_nat (length s))
       = Ok (s' ++ tail,
             EratSmall.mk (EratSmall.enabled_ e) (EratSmall.maxPrime_ e)
               (EratSmall.l1CacheSize_ e) (EratSmall.stop_ e) primes').
Proof.
  intros Hst Hl1 Hsz. unfold EratSmall.crossOff.
  destruct (decide (s = [])) as [-> | Hne].
  - exists [], (EratSmall.primes_ e). split; [split; reflexivity|].
    split; [reflexivity|]. split; [exact Hst|]. reflexivity.
  - destruct (crossOff_inner_Ok (EratSmall.primes_ e) s Hst)
      as (s' & primes' & E & Hlen & _ & Hst').
    exists s', primes'. split; [exact E|]. split; [exact Hlen|]. split; [exact Hst'|].
    pose proof (crossOff_loop_prefix (S (Z.to_nat (Z.of_nat (length s))))
                  (EratSmall.l1CacheSize_ e) [] s tail (EratSmall.primes_ e) s' primes'
                  Hst Hl1 Hsz ltac:(lia) Hne E) as Hloop.
    cbn [app length] in Hloop. change (Z.of_nat 0) with 0 in Hloop.
    rewrite Hloop. reflexivity.
Qed.

(** X1: the outer [crossOff] over the first [sieveSize] bytes of an array,
    for stored records and two objects that differ in [l1CacheSize_] only,
    both positive: both calls complete with the same bytes and the same
    records, whatever the size of the tiles, and leave the bytes from
    [sieveSize] on as they were. *)
Theorem crossOff_tile_size_irrelevant enabled maxPrime stop primes l1 l2 s tail :
  Forall stored primes -> 0 < l1 -> 0 < l2 ->
  Z.of_nat (length s) + l1 < 2 ^ 64 -> Z.of_nat (length s) + l2 < 2 ^ 64 ->
  exists s' primes',
    EratSmall.crossOff (EratSmall.mk enabled maxPrime l1 stop primes) (s ++ tail)
      (Z.of_nat (length s))
    = Ok (s' ++ tail, EratSmall.mk enabled maxPrime l1 stop primes')
    /\ EratSmall.crossOff (EratSmall.mk enabled maxPrime l2 stop primes) (s ++ tail)
         (Z.of_nat (length s))
       = Ok (s' ++ tail, EratSmall.mk enabled maxPrime l2 stop primes')
    /\ length s' = length s.
Proof.
  intros Hst Hl1 Hl2 Hsz1 Hsz2.
  destruct (crossOff_outer (EratSmall.mk enabled maxPrime l1 stop primes) s tail Hst Hl1 Hsz1)
    as (s1 & primes1 & H1 & Hlen1 & _ & E1).
  destruct (crossOff_outer (EratSmall.mk enabled maxPrime l2 stop primes) s tail Hst Hl2 Hsz2)
    as (s2 & primes2 & H2 & _ & _ & E2).
  cbn [EratSmall.primes_ EratSmall.enabled_ EratSmall.maxPrime_ EratSmall.l1CacheSize_
       EratSmall.stop_] in *.
  assert (s2 = s1 /\ primes2 = primes1) as [-> ->].
  { destruct (decide (s = [])).
    - destruct H1 as [-> ->], H2 as [-> ->]. split; reflexivity.
    - rewrite H1 in H2. injection H2 as <- <-. split; reflexivity. }
  exists s1, primes1. split; [exact E1|]. split; [exact E2 | exact Hlen1].
Qed.

Lemma crossOff_tile_size_irrelevant_witness :
  exists s' primes',
    EratSmall.crossOff (EratSmall.mk true 7 1 100 [mkSievingPrime 0 0 0])
      ([255; 255; 255] ++ [255]) (Z.of_nat (length [255; 255; 255]))
    = Ok (s' ++ [255], EratSmall.mk true 7 1 100 primes')
    /\ EratSmall.crossOff (EratSmall.mk true 7 2 100 [mkSievingPrime 0 0 0])
         ([255; 255; 255] ++ [255]) (Z.of_nat (length [255; 255; 255]))
       = Ok (s' ++ [255], EratSmall.mk true 7 2 100 primes')
    /\ length s' = length [255; 255; 255].
Proof.
  apply (crossOff_tile_size_irrelevant true 7 100 [mkSievingPrime 0 0 0] 1 2 [255; 255; 255] [255]);
    try (cbn; lia).
  apply List.Forall_cons; [unfold stored; cbn; lia | apply List.Forall_nil].
Defined.

(** X2: [init(stop, 0, 0)] passes the check of [maxPrime], and returns
    when [reserve] finds the memory; it leaves [l1CacheSize_ = 0].  The loop
    of the outer [crossOff] over one byte or more, for stored records, then
    does not finish, whatever the fuel: [i += l1CacheSize_] leaves [i] at
    0. *)
Theorem crossOff_zero_l1CacheSize_never_returns reserves e stop sieve sieveSize :
  Forall stored (EratSmall.primes_ e) -> 0 < sieveSize <= Z.of_nat (length sieve) ->
  reserves 0 = true ->
  (EratSmall.init reserves e stop 0 0).2 = Ok tt
  /\ EratSmall.l1CacheSize_ (EratSmall.init reserves e stop 0 0).1 = 0
  /\ forall fuel,
       EratSmall.crossOff_loop fuel
         (EratSmall.l1CacheSize_ (EratSmall.init reserves e stop 0 0).1)
         sieve sieveSize (EratSmall.primes_ (EratSmall.init reserves e stop 0 0).1) 0
       = Err OutOfFuel.
Proof.
  intros Hst Hsize Hres.
  assert (EratSmall.init reserves e stop 0 0
          = (EratSmall.mk true 0 0 stop (EratSmall.primes_ e), Ok tt)) as ->.
  { unfold EratSmall.init. change (0 >? u64 (0 * 3)) with false. cbv iota.
    rewrite Hres. reflexivity. }
  split; [reflexivity|]. split; [reflexivity|].
  cbn [fst EratSmall.l1CacheSize_ EratSmall.primes_].
  intros fuel. revert Hst. generalize (EratSmall.primes_ e) as primes.
  induction fuel as [|fuel IH]; intros primes Hst; [reflexivity|].
  cbn [EratSmall.crossOff_loop].
  rewrite (proj2 (Z.ltb_lt 0 sieveSize)) by lia.
  change (u64 (0 + 0)) with 0. rewrite Z.min_l by lia.
  unfold EratSmall.view.
  rewrite (proj2 (Z.leb_le 0 (Z.of_nat (length sieve)))) by lia.
  cbn [Z.leb Z.compare andb mbind result_bind].
  change (take (Z.to_nat (0 - 0)) (drop (Z.to_nat 0) sieve)) with (@nil Z).
  destruct (crossOff_inner_Ok primes [] Hst) as (s' & primes' & E & Hlen & _ & Hst').
  rewrite E. cbn [mbind result_bind].
  destruct s'; [|discriminate Hlen].
  unfold EratSmall.write_back. cbn [Z.to_nat take app length Nat.add drop].
  apply IH. exact Hst'.
Qed.

Lemma crossOff_zero_l1CacheSize_never_returns_witness :
  (EratSmall.init (fun _ => true) EratSmall.new 100 0 0).2 = Ok tt
  /\ EratSmall.l1CacheSize_ (EratSmall.init (fun _ => true) EratSmall.new 100 0 0).1 = 0
  /\ forall fuel,
       EratSmall.crossOff_loop fuel
         (EratSmall.l1CacheSize_ (EratSmall.init (fun _ => true) EratSmall.new 100 0 0).1)
         [255; 255] 2
         (EratSmall.primes_ (EratSmall.init (fun _ => true) EratSmall.new 100 0 0).1) 0
       = Err OutOfFuel.
Proof.
  apply (crossOff_zero_l1CacheSize_never_returns (fun _ => true) EratSmall.new 100 [255; 255] 2).
  - apply List.Forall_nil.
  - cbn. lia.
  - reflexivity.
Defined.

(** ** Bits are only cleared *)

Lemma bit_at_clear_true s i b j b' :
  bit_at (clear s i b) j b' = true -> bit_at s j b' = true.
Proof.
  unfold clear. destruct (s !! Z.to_nat i) as [x|] eqn:E; [|trivial].
  unfold bit_at. destruct (decide (Z.to_nat j = Z.to_nat i)) as [-> | Hne].
  - rewrite list_lookup_insert_eq by (apply lookup_lt_Some in E; exact E).
    rewrite E, Z.land_spec. intros H. apply andb_true_iff in H. tauto.
  - rewrite list_lookup_insert_ne by congruence. trivial.
Qed.

Lemma strikes_to_bits_le sp n p w s r :
  strikes_to sp n p w s r ->
  forall j b, bit_at r.1.1 j b = true -> bit_at s j b = true.
Proof.
  induction 1 as [p w s Hp | p w s b m a r Hp Hs Hrest IH]; intros j b'; cbn [fst snd].
  - trivial.
  - intros H. apply IH in H. exact (bit_at_clear_true _ _ _ _ _ H).
Qed.

Lemma crossOff_inner_bits_le primes : forall s s' primes',
  Forall stored primes ->
  EratSmall.crossOff_inner s primes = Ok (s', primes') ->
  forall j b, bit_at s' j b = true -> bit_at s j b = true.
Proof.
  induction primes as [|prime rest IH]; intros s s' primes' Hst E j b.
  - cbn in E. injection E as <- <-. trivial.
  - apply List.Forall_cons_iff in Hst. destruct Hst as [Hst Hrest].
    destruct (crossOff_prime_strikes s prime Hst) as (s1 & mi & w & E1 & St & _ & _).
    cbn [EratSmall.crossOff_inner] in E. rewrite E1 in E. cbn [mbind result_bind] in E.
    destruct (EratSmall.crossOff_inner s1 rest) as [[s2 rest']|] eqn:E2; [|discriminate].
    cbn [mbind result_bind] in E. injection E as <- <-.
    intros H. apply (IH _ _ _ Hrest E2) in H.
    exact (strikes_to_bits_le _ _ _ _ _ _ St j b H).
Qed.

(** X3: the outer [crossOff] never sets a bit: for stored records it
    completes, the array keeps its length, and every bit that is set
    afterwards was set before. *)
Theorem crossOff_only_clears_bits e s tail :
  Forall stored (EratSmall.primes_ e) -> 0 < EratSmall.l1CacheSize_ e ->
  Z.of_nat (length s) + EratSmall.l1CacheSize_ e < 2 ^ 64 ->
  exists s' e',
    EratSmall.crossOff e (s ++ tail) (Z.of_nat (length s)) = Ok (s' ++ tail, e')
    /\ length s' = length s
    /\ forall j b, bit_at s' j b = true -> bit_at s j b = true.
Proof.
  intros Hst Hl1 Hsz.
  destruct (crossOff_outer e s tail Hst Hl1 Hsz) as (s' & primes' & H & Hlen & _ & E).
  eexists s', _. split; [exact E|]. split; [exact Hlen|].
  destruct (decide (s = [])) as [-> | Hne].
  - destruct H as [-> _]. trivial.
  - exact (crossOff_inner_bits_le _ _ _ _ Hst H).
Qed.

Lemma crossOff_only_clears_bits_witness :
  exists s' e',
    EratSmall.crossOff (EratSmall.mk true 7 2 100 [mkSievingPrime 0 0 0])
      ([0; 170; 255] ++ [85]) (Z.of_nat (length [0; 170; 255])) = Ok (s' ++ [85], e')
    /\ length s' = length [0; 170; 255]
    /\ forall j b, bit_at s' j b = true -> bit_at [0; 170; 255] j b = true.
Proof.
  apply (crossOff_only_clears_bits (EratSmall.mk true 7 2 100 [mkSievingPrime 0 0 0])
           [0; 170; 255] [85]); try (cbn; lia).
  apply List.Forall_cons; [unfold stored; cbn; lia | apply List.Forall_nil].
Defined.

(** ** The records that a pass leaves *)

Lemma crossOff_prime_record s prime s' prime' :
  stored prime ->
  EratSmall.crossOff_prime s prime = Ok (s', prime') ->
  getSievingPrime prime' = getSievingPrime prime
  /\ 0 <= getWheelIndex prime' < 64
  /\ getWheelIndex prime' / 8 = Z.land (getWheelIndex prime) 63 / 8
  /\ 0 <= getMultipleIndex prime'
     <= Z.max (getMultipleIndex prime - Z.of_nat (length s)) (6 * getSievingPrime prime + 5)
  /\ (Z.of_nat (length s) <= getMultipleIndex prime ->
      s' = s
      /\ getMultipleIndex prime' = getMultipleIndex prime - Z.of_nat (length s)
      /\ getWheelIndex prime' = Z.land (getWheelIndex prime) 63).
Proof.
  intros Hst E.
  destruct (crossOff_prime_strikes s prime Hst) as (s1 & mi & w & E1 & St & Hst' & Hw).
  rewrite E1 in E. injection E as <- <-.
  destruct Hst as (Hsp & Hsp' & Hmi & Hwi).
  destruct (strikes_to_record _ _ _ _ _ _ St Hsp (land_63 _ Hwi)) as (Hfam & Hle & Hskip).
  destruct Hst' as (_ & _ & Hmi' & _). cbn [fst snd set getSievingPrime getMultipleIndex
    getWheelIndex] in *.
  split; [reflexivity|]. split; [exact Hw|]. split; [exact Hfam|].
  split; [lia|]. intros Hn. specialize (Hskip Hn). injection Hskip as -> -> ->.
  repeat split.
Qed.

(** X4: the records that the inner [crossOff] leaves, for stored records:
    [sievingPrime] is unchanged, [wheelIndex] is below 64 and in the same
    group of eight cases as [wheelIndex & 63] before, and [multipleIndex] is
    at most the greater of [multipleIndex - size] before and
    [6 * sievingPrime + 5]. *)
Theorem crossOff_records primes : forall s,
  Forall stored primes ->
  exists s' primes',
    EratSmall.crossOff_inner s primes = Ok (s', primes')
    /\ Forall2 (fun prime prime' =>
         getSievingPrime prime' = getSievingPrime prime
         /\ 0 <= getWheelIndex prime' < 64
         /\ getWheelIndex prime' / 8 = Z.land (getWheelIndex prime) 63 / 8
         /\ 0 <= getMultipleIndex prime'
            <= Z.max (getMultipleIndex prime - Z.of_nat (length s))
                 (6 * getSievingPrime prime + 5))
       primes primes'.
Proof.
  induction primes as [|prime rest IH]; intros s Hst.
  - exists s, []. split; [reflexivity | constructor].
  - apply List.Forall_cons_iff in Hst. destruct Hst as [Hst Hrest].
    destruct (crossOff_prime_strikes s prime Hst) as (s1 & mi & w & E1 & St & _ & _).
    destruct (crossOff_prime_record s prime _ _ Hst E1) as (H1 & H2 & H3 & H4 & _).
    apply strikes_to_length in St. cbn [fst] in St.
    destruct (IH s1 Hrest) as (s2 & rest' & E2 & Hall).
    exists s2, (set prime mi w :: rest').
    cbn [EratSmall.crossOff_inner]. rewrite E1. cbn [mbind result_bind]. rewrite E2.
    split; [reflexivity|]. constructor; [exact (conj H1 (conj H2 (conj H3 H4)))|].
    rewrite St in Hall. exact Hall.
Qed.

Lemma crossOff_records_witness :
  exists s' primes',
    EratSmall.crossOff_inner (replicate 5 255) [mkSievingPrime 0 0 0; mkSievingPrime 1 9 77]
    = Ok (s', primes')
    /\ Forall2 (fun prime prime' =>
         getSievingPrime prime' = getSievingPrime prime
         /\ 0 <= getWheelIndex prime' < 64
         /\ getWheelIndex prime' / 8 = Z.land (getWheelIndex prime) 63 / 8
         /\ 0 <= getMultipleIndex prime'
            <= Z.max (getMultipleIndex prime - Z.of_nat (length (replicate 5 255)))
                 (6 * getSievingPrime prime + 5))
       [mkSievingPrime 0 0 0; mkSievingPrime 1 9 77] primes'.
Proof.
  apply (crossOff_records [mkSievingPrime 0 0 0; mkSievingPrime 1 9 77] (replicate 5 255)).
  repeat (apply List.Forall_cons; [unfold stored; cbn; lia|]). apply List.Forall_nil.
Defined.

(** X5: a segment that holds no multiple: when every record has
    [multipleIndex >= size], the inner [crossOff] leaves the array as it is,
    takes [size] off every [multipleIndex] and replaces every [wheelIndex] by
    [wheelIndex & 63]. *)
Theorem crossOff_skips_segment primes : forall s,
  Forall (fun prime => stored prime /\ Z.of_nat (length s) <= getMultipleIndex prime) primes ->
  EratSmall.crossOff_inner s primes
  = Ok (s, map (fun prime => set prime (getMultipleIndex prime - Z.of_nat (length s))
                               (Z.land (getWheelIndex prime) 63)) primes).
Proof.
  induction primes as [|prime rest IH]; intros s Hall; [reflexivity|].
  apply List.Forall_cons_iff in Hall. destruct Hall as [[Hst Hn] Hrest].
  destruct (crossOff_prime_strikes s prime Hst) as (s1 & mi & w & E1 & _ & _ & _).
  destruct (crossOff_prime_record s prime _ _ Hst E1) as (_ & _ & _ & _ & Hskip).
  destruct (Hskip Hn) as (-> & Hmi & Hw). cbn [set getMultipleIndex getWheelIndex] in Hmi, Hw.
  subst mi w.
  cbn [EratSmall.crossOff_inner map]. rewrite E1. cbn [mbind result_bind].
  rewrite (IH s Hrest). reflexivity.
Qed.

Lemma crossOff_skips_segment_witness :
  EratSmall.crossOff_inner [255; 255] [mkSievingPrime 3 2 200; mkSievingPrime 1 7 5]
  = Ok ([255; 255],
        map (fun prime => set prime (getMultipleIndex prime - Z.of_nat (length [255; 255]))
                            (Z.land (getWheelIndex prime) 63))
          [mkSievingPrime 3 2 200; mkSievingPrime 1 7 5]).
Proof.
  apply (crossOff_skips_segment [mkSievingPrime 3 2 200; mkSievingPrime 1 7 5] [255; 255]).
  repeat (apply List.Forall_cons; [split; [unfold stored; cbn; lia | cbn; lia]|]).
  apply List.Forall_nil.
Defined.

(** ** The unrolled loops *)

(** The switch with the unrolled loops entered below any [loopEnd] that is
    at most that of the code. *)
Lemma switch_loop_any_loopEnd fuel : forall sp n loopEnd s p w,
  0 <= sp -> sp * 30 + 29 < 2 ^ 64 ->
  n = Z.of_nat (length s) ->
  loopEnd <= Z.max n (0 + u64 (sp * 28 + 27)) - u64 (sp * 28 + 27) ->
  0 <= w < 64 -> 0 <= p -> p - n < 2 ^ 64 ->
  8 * Z.max 0 (n - (p - cum sp w)) + 8 - w mod 8 < Z.of_nat fuel ->
  exists r,
    EratSmall.switch_loop fuel sp n loopEnd s p w = Ok r /\ strikes_to sp n p w s r.
Proof.
  induction fuel as [|fuel IH]; intros sp n loopEnd s p w Hsp Hsp' Hn Hle Hw Hp Hpn Hfuel.
  { exfalso. pose proof (Z.mod_pos_bound w 8). lia. }
  destruct (strike_facts w Hw)
    as (b & m & a & M & A & b' & m' & a' & M' & A' & Hs & Hb & Hs' & Hb' & F).
  pose proof (cf_next _ _ _ _ _ _ _ _ _ _ F) as Hnext.
  pose proof (cf_mul _ _ _ _ _ _ _ _ _ _ F) as Hm.
  pose proof (cf_add _ _ _ _ _ _ _ _ _ _ F) as Ha.
  pose proof (cf_M _ _ _ _ _ _ _ _ _ _ F) as HM.
  pose proof (cf_A _ _ _ _ _ _ _ _ _ _ F) as HA.
  pose proof (cf_r _ _ _ _ _ _ _ _ _ _ F) as Hr.
  pose proof (cf_cum _ _ _ _ _ _ _ _ _ _ F) as Hc.
  pose proof (cf_first _ _ _ _ _ _ _ _ _ _ F) as Hfirst.
  assert (cum sp w = sp * M + A) as Hcum by (unfold cum; rewrite Hb; reflexivity).
  assert (cum sp (EratSmall.next_case w) = sp * M' + A') as Hcum'
    by (unfold cum; rewrite Hb'; reflexivity).
  cbn [EratSmall.switch_loop].
  rewrite (u64_small (sp * 28 + 27)) in Hle by lia.
  destruct ((w mod 8 =? 0) && (p <? loopEnd)) eqn:Hfast.
  - (* the unrolled loop *)
    apply andb_prop in Hfast. destruct Hfast as [Hk Hloop].
    assert (w mod 8 = 0) as Hk0 by lia.
    assert (w = 8 * (w / 8)) as Hw8 by (pose proof (Z.div_mod w 8); lia).
    assert (p + (sp * 28 + 27) < n) as Hin by lia.
    destruct (Hfirst Hk0) as [-> ->].
    pose proof (unrolled_loop_bounds (w / 8) ltac:(lia)) as Hbody.
    unfold family_residue in Hr.
    destruct (EratSmall.unrolled_loop (w / 8)) as [body r] eqn:Hloopc. cbn [fst snd] in *.
    rewrite (unrolled_body_clear body s p sp) by (try assumption; lia).
    cbn [mbind result_bind].
    rewrite (u64_small (sp * 30 + r)) by lia.
    destruct (IH sp n loopEnd (clear_all s p sp body) (p + (sp * 30 + r)) w)
      as (res & Hres & Hst); try assumption; try lia.
    { clear - Hn. revert s Hn. induction body as [|[[? ?] ?] ? IHb]; intros s Hn; [exact Hn|].
      cbn. apply IHb. rewrite length_clear. exact Hn. }
    { rewrite (u64_small (sp * 28 + 27)) by lia. exact Hle. }
    exists res. split; [exact Hres|].
    rewrite Hw8. apply strikes_unrolled; try lia.
    rewrite Hloopc. cbn [fst snd]. rewrite <- Hw8. exact Hst.
  - destruct (n <=? p) eqn:Hdone.
    + (* CHECK_FINISHED *)
      exists (s, p - n, w). rewrite u64_small by lia.
      split; [reflexivity|]. apply strikes_done. lia.
    + (* one strike *)
      rewrite Hs. rewrite and_assign_clear by lia. cbn [mbind result_bind].
      rewrite (u64_small (sp * m + a)) by nia.
      assert (n = Z.of_nat (length (clear s p b))) as Hlen
        by (rewrite length_clear; exact Hn).
      assert (8 * Z.max 0 (n - (p + (sp * m + a) - cum sp (EratSmall.next_case w)))
              + 8 - EratSmall.next_case w mod 8 < Z.of_nat fuel) as Hmeasure.
      { rewrite Hcum'. rewrite Hcum in Hfuel.
        destruct Hc as [(Hk & HM' & HA' & -> & -> & Hk') | (Hk & -> & -> & Hk')]; nia. }
      destruct (IH sp n loopEnd (clear s p b) (p + (sp * m + a)) (EratSmall.next_case w)
                  Hsp Hsp' Hlen ltac:(rewrite (u64_small (sp * 28 + 27)) by lia; exact Hle)
                  Hnext ltac:(nia) ltac:(nia) Hmeasure)
        as (res & Hres & Hst).
      exists res. split; [exact Hres|].
      eapply strikes_step; [lia | exact Hs | exact Hst].
Qed.

(** X6: the unrolled loops are the strikes one at a time: for a stored
    record, the switch entered with any [loopEnd] that is at most the one of
    the code, and so with one below which no unrolled loop is ever entered,
    returns the array, [multipleIndex] and [wheelIndex] that [crossOff]
    computes. *)
Theorem unrolled_loops_are_strikes s prime loopEnd :
  stored prime ->
  let sievingPrime := getSievingPrime prime in
  let sieveEnd := Z.of_nat (length s) in
  let maxLoopDist := u64 (sievingPrime * 28 + 27) in
  let fuel := Z.to_nat (8 * (sieveEnd + maxLoopDist) + 9) in
  loopEnd <= Z.max sieveEnd (0 + maxLoopDist) - maxLoopDist ->
  exists s' multipleIndex wheelIndex,
    EratSmall.crossOff_prime s prime = Ok (s', set prime multipleIndex wheelIndex)
    /\ EratSmall.switch_loop fuel sievingPrime sieveEnd loopEnd s (getMultipleIndex prime)
         (Z.land (getWheelIndex prime) 63) = Ok (s', multipleIndex, wheelIndex).
Proof.
  intros Hst sp n mld fuel Hle.
  destruct (crossOff_prime_strikes s prime Hst) as (s' & mi & w & E & St & _ & _).
  exists s', mi, w. split; [exact E|].
  destruct Hst as (Hsp & Hsp' & Hmi & Hwi).
  pose proof (land_63 _ Hwi) as Hw.
  destruct (switch_loop_any_loopEnd fuel sp n loopEnd s (getMultipleIndex prime)
              (Z.land (getWheelIndex prime) 63))
    as (r & Hrun & Hst); try assumption; try reflexivity; try lia.
  { subst fuel mld n sp. rewrite u64_small by lia.
    destruct (strike_facts _ Hw)
      as (b0 & m0 & a0 & M & A & b' & m' & a' & M' & A' & _ & Hb & _ & _ & F).
    pose proof (cf_M _ _ _ _ _ _ _ _ _ _ F) as HM.
    pose proof (cf_A _ _ _ _ _ _ _ _ _ _ F) as HA.
    unfold cum. rewrite Hb. cbn [fst snd].
    pose proof (Z.mod_pos_bound (Z.land (getWheelIndex prime) 63) 8). nia. }
  rewrite Hrun. f_equal. exact (strikes_to_det _ _ _ _ _ _ Hst _ St).
Qed.

Lemma unrolled_loops_are_strikes_witness :
  exists s' multipleIndex wheelIndex,
    EratSmall.crossOff_prime (replicate 40 255) (mkSievingPrime 0 0 0)
    = Ok (s', set (mkSievingPrime 0 0 0) multipleIndex wheelIndex)
    /\ EratSmall.switch_loop
         (Z.to_nat (8 * (Z.of_nat (length (replicate 40 255)) + u64 (0 * 28 + 27)) + 9))
         0 (Z.of_nat (length (replicate 40 255))) 0 (replicate 40 255) 0 (Z.land 0 63)
       = Ok (s', multipleIndex, wheelIndex).
Proof.
  apply (unrolled_loops_are_strikes (replicate 40 255) (mkSievingPrime 0 0 0) 0).
  - unfold stored; cbn; lia.
  - vm_compute. discriminate.
Defined.

(** ** Consecutive segments *)

(** The records after the inner [crossOff] stand for the same primes, and
    their pending strikes are the first ones of the next segment. *)
Lemma crossOff_inner_first_pending base primes : forall s s' primes',
  Forall (fun prime => stored prime /\ first_pending base prime) primes ->
  EratSmall.crossOff_inner s primes = Ok (s', primes') ->
  Forall (fun prime => stored prime
                       /\ first_pending (base + 30 * Z.of_nat (length s)) prime) primes'
  /\ map prime_value primes' = map prime_value primes.
Proof.
  induction primes as [|prime rest IH]; intros s s' primes' Hall E.
  - cbn in E. injection E as <- <-. split; [constructor | reflexivity].
  - apply List.Forall_cons_iff in Hall. destruct Hall as [[Hst Hfp] Hrest].
    destruct (crossOff_prime_strikes s prime Hst) as (s1 & mi & w & E1 & St & _ & _).
    destruct (crossOff_prime_first_pending base s prime s1 (set prime mi w) Hst Hfp E1)
      as (_ & Hpv & Hst' & Hfp').
    apply strikes_to_length in St. cbn [fst] in St.
    cbn [EratSmall.crossOff_inner] in E. rewrite E1 in E. cbn [mbind result_bind] in E.
    destruct (EratSmall.crossOff_inner s1 rest) as [[s2 rest']|] eqn:E2; [|discriminate].
    cbn [mbind result_bind] in E. injection E as <- <-.
    destruct (IH s1 s2 rest' Hrest E2) as [Hall' Hmap]. rewrite St in Hall'.
    split; [apply List.Forall_cons; [split; assumption | exact Hall']|].
    cbn [map]. rewrite Hpv, Hmap. reflexivity.
Qed.

Lemma Forall_prime_value (P : Z -> Prop) primes :
  Forall (fun prime => P (prime_value prime)) primes <-> Forall P (map prime_value primes).
Proof. rewrite List.Forall_map. reflexivity. Qed.

(** One call of the outer [crossOff] on a whole array. *)
Lemma crossOff_segment base e s :
  Forall (fun prime => stored prime /\ first_pending base prime) (EratSmall.primes_ e) ->
  base mod 30 = 0 -> 0 < EratSmall.l1CacheSize_ e ->
  Z.of_nat (length s) + EratSmall.l1CacheSize_ e < 2 ^ 64 ->
  exists s' primes',
    EratSmall.crossOff e s (Z.of_nat (length s))
    = Ok (s', EratSmall.mk (EratSmall.enabled_ e) (EratSmall.maxPrime_ e)
                (EratSmall.l1CacheSize_ e) (EratSmall.stop_ e) primes')
    /\ length s' = length s
    /\ Forall (fun prime => stored prime
                            /\ first_pending (base + 30 * Z.of_nat (length s)) prime) primes'
    /\ map prime_value primes' = map prime_value (EratSmall.primes_ e)
    /\ forall j b, 0 <= j < Z.of_nat (length s) -> 0 <= b < 8 ->
         (bit_at s' j b = true
          <-> bit_at s j b = true
              /\ Forall (fun prime => ~ (prime_value prime | base + 30 * j + bit_value b))
                   (EratSmall.primes_ e)).
Proof.
  intros Hall Hbase Hl1 Hsz.
  assert (Forall stored (EratSmall.primes_ e)) as Hst
    by (eapply List.Forall_impl; [|exact Hall]; intros ? [? _]; assumption).
  destruct (crossOff_outer e s [] Hst Hl1 Hsz) as (s' & primes' & H & Hlen & _ & E).
  rewrite !app_nil_r in E.
  exists s', primes'. split; [exact E|]. split; [exact Hlen|].
  destruct (decide (s = [])) as [-> | Hne].
  - destruct H as [-> ->]. cbn [length]. rewrite Z.mul_0_r, Z.add_0_r.
    split; [exact Hall|]. split; [reflexivity|]. intros j b Hj. cbn in Hj. lia.
  - destruct (crossOff_inner_first_pending base _ _ _ _ Hall H) as [Hall' Hmap].
    split; [exact Hall'|]. split; [exact Hmap|].
    exact (crossOff_inner_first_bits base _ _ _ _ Hall Hbase H).
Qed.

(** X7: two consecutive segments, on any arrays: for stored records whose
    pending strikes are the first multiples of their primes in the segment at
    [base], the outer [crossOff] over the segment at [base] and then, with the
    records that it leaves, over the segment that follows it, both complete;
    in each, a bit is set afterwards exactly when it was set before and none
    of the primes divides the integer of the bit. *)
Theorem crossOff_consecutive_segments base e s1 s2 :
  Forall (fun prime => stored prime /\ first_pending base prime) (EratSmall.primes_ e) ->
  base mod 30 = 0 -> 0 < EratSmall.l1CacheSize_ e ->
  Z.of_nat (length s1) + EratSmall.l1CacheSize_ e < 2 ^ 64 ->
  Z.of_nat (length s2) + EratSmall.l1CacheSize_ e < 2 ^ 64 ->
  exists s1' e1 s2' e2,
    EratSmall.crossOff e s1 (Z.of_nat (length s1)) = Ok (s1', e1)
    /\ EratSmall.crossOff e1 s2 (Z.of_nat (length s2)) = Ok (s2', e2)
    /\ (forall j b, 0 <= j < Z.of_nat (length s1) -> 0 <= b < 8 ->
          (bit_at s1' j b = true
           <-> bit_at s1 j b = true
               /\ Forall (fun prime => ~ (prime_value prime | base + 30 * j + bit_value b))
                    (EratSmall.primes_ e)))
    /\ (forall j b, 0 <= j < Z.of_nat (length s2) -> 0 <= b < 8 ->
          (bit_at s2' j b = true
           <-> bit_at s2 j b = true
               /\ Forall (fun prime =>
                            ~ (prime_value prime
                               | base + 30 * (Z.of_nat (length s1) + j) + bit_value b))
                    (EratSmall.primes_ e))).
Proof.
  intros Hall Hbase Hl1 Hsz1 Hsz2.
  destruct (crossOff_segment base e s1 Hall Hbase Hl1 Hsz1)
    as (s1' & primes1 & E1 & _ & Hall1 & Hmap1 & Hbits1).
  set (e1 := EratSmall.mk (EratSmall.enabled_ e) (EratSmall.maxPrime_ e)
               (EratSmall.l1CacheSize_ e) (EratSmall.stop_ e) primes1) in *.
  destruct (crossOff_segment (base + 30 * Z.of_nat (length s1)) e1 s2 Hall1
              ltac:(rewrite (Z.mul_comm 30), Z_mod_plus_full; exact Hbase) Hl1 Hsz2)
    as (s2' & primes2 & E2 & _ & _ & _ & Hbits2).
  eexists s1', e1, s2', _. split; [exact E1|]. split; [exact E2|].
  split; [exact Hbits1|].
  intros j b Hj Hb. rewrite (Hbits2 j b Hj Hb).
  cbn [e1 EratSmall.primes_].
  rewrite (Forall_prime_value
             (fun v => ~ (v | base + 30 * Z.of_nat (length s1) + 30 * j + bit_value b)) primes1).
  rewrite (Forall_prime_value
             (fun v => ~ (v | base + 30 * (Z.of_nat (length s1) + j) + bit_value b))
             (EratSmall.primes_ e)).
  rewrite Hmap1.
  replace (base + 30 * Z.of_nat (length s1) + 30 * j)
    with (base + 30 * (Z.of_nat (length s1) + j)) by ring.
  reflexivity.
Qed.

Lemma crossOff_consecutive_segments_witness :
  exists s1' e1 s2' e2,
    EratSmall.crossOff (EratSmall.mk true 7 2 100 [mkSievingPrime 0 0 0]) [255; 170; 255]
      (Z.of_nat (length [255; 170; 255])) = Ok (s1', e1)
    /\ EratSmall.crossOff e1 [255; 85] (Z.of_nat (length [255; 85])) = Ok (s2', e2)
    /\ (forall j b, 0 <= j < Z.of_nat (length [255; 170; 255]) -> 0 <= b < 8 ->
          (bit_at s1' j b = true
           <-> bit_at [255; 170; 255] j b = true
               /\ Forall (fun prime => ~ (prime_value prime | 0 + 30 * j + bit_value b))
                    (EratSmall.primes_ (EratSmall.mk true 7 2 100 [mkSievingPrime 0 0 0]))))
    /\ (forall j b, 0 <= j < Z.of_nat (length [255; 85]) -> 0 <= b < 8 ->
          (bit_at s2' j b = true
           <-> bit_at [255; 85] j b = true
               /\ Forall (fun prime =>
                            ~ (prime_value prime
                               | 0 + 30 * (Z.of_nat (length [255; 170; 255]) + j) + bit_value b))
                    (EratSmall.primes_ (EratSmall.mk true 7 2 100 [mkSievingPrime 0 0 0])))).
Proof.
  apply (crossOff_consecutive_segments 0 (EratSmall.mk true 7 2 100 [mkSievingPrime 0 0 0])
           [255; 170; 255] [255; 85]); try (cbn; lia); try reflexivity.
  apply List.Forall_cons; [|apply List.Forall_nil].
  split; [unfold stored; cbn; lia|].
  exists 1. split; [split; reflexivity|].
  split; [reflexivity|]. split; [vm_compute; discriminate|].
  intros x _. change (prime_value (mkSievingPrime 0 0 0)) with 7. lia.
Defined.

(** ** [storeSievingPrime] *)

(** X8: [storeSievingPrime] with [uint64_t] arguments, [multipleIndex]
    below [2^63] and any [wheelIndex], adds a stored record at the end and
    keeps the records before it; the outer [crossOff] then completes inside
    the array; and when the group of eight cases of [wheelIndex & 63] is that
    of the residue of [prime] modulo 30, the record stands for [prime]. *)
Theorem storeSievingPrime_stored e prime multipleIndex wheelIndex sieve :
  Forall stored (EratSmall.primes_ e) ->
  0 <= prime -> prime + 29 < 2 ^ 64 ->
  0 <= multipleIndex < 2 ^ 63 -> 0 <= wheelIndex < 2 ^ 64 ->
  0 < EratSmall.l1CacheSize_ e ->
  Z.of_nat (length sieve) + EratSmall.l1CacheSize_ e < 2 ^ 64 ->
  let e1 := EratSmall.storeSievingPrime e prime multipleIndex wheelIndex in
  exists record,
    EratSmall.primes_ e1 = EratSmall.primes_ e ++ [record]
    /\ stored record
    /\ getSievingPrime record = prime / 30
    /\ (family_residue (case_of record) = prime mod 30 -> prime_value record = prime)
    /\ exists sieve' e',
         EratSmall.crossOff e1 sieve (Z.of_nat (length sieve)) = Ok (sieve', e')
         /\ length sieve' = length sieve
         /\ length (EratSmall.primes_ e') = S (length (EratSmall.primes_ e)).
Proof.
  intros Hst Hprime Hfit Hmi Hwi Hl1 Hsz e1.
  exists (mkSievingPrime (prime / 30) multipleIndex wheelIndex).
  assert (stored (mkSievingPrime (prime / 30) multipleIndex wheelIndex)) as Hrec.
  { unfold stored. cbn [getSievingPrime getMultipleIndex getWheelIndex].
    pose proof (Z.div_mod prime 30 ltac:(lia)). pose proof (Z.mod_pos_bound prime 30 ltac:(lia)).
    assert (0 <= prime / 30) by (apply Z.div_pos; lia). lia. }
  split; [reflexivity|]. split; [exact Hrec|]. split; [reflexivity|]. split.
  - unfold prime_value, prime_of. cbn [getSievingPrime]. intros ->.
    pose proof (Z.div_mod prime 30 ltac:(lia)). lia.
  - assert (Forall stored (EratSmall.primes_ e1)) as Hst1.
    { subst e1. cbn [EratSmall.storeSievingPrime EratSmall.primes_].
      apply Forall_app. split; [exact Hst|].
      apply List.Forall_cons; [exact Hrec | apply List.Forall_nil]. }
    destruct (crossOff_outer e1 sieve [] Hst1 Hl1 Hsz) as (s' & primes' & H & Hlen & _ & E).
    rewrite !app_nil_r in E. eexists s', _. split; [exact E|]. split; [exact Hlen|].
    cbn [EratSmall.primes_].
    assert (length primes' = length (EratSmall.primes_ e1)) as ->.
    { destruct (decide (sieve = [])).
      - destruct H as [_ ->]. reflexivity.
      - destruct (crossOff_inner_Ok (EratSmall.primes_ e1) sieve Hst1)
          as (s2 & primes2 & E2 & _ & Hlen2 & _).
        rewrite E2 in H. injection H as _ <-. exact Hlen2. }
    subst e1. cbn [EratSmall.storeSievingPrime EratSmall.primes_].
    rewrite length_app. cbn [length]. lia.
Qed.

Lemma storeSievingPrime_stored_witness :
  exists record,
    EratSmall.primes_ (EratSmall.storeSievingPrime (EratSmall.mk true 100 4 1000 []) 37 0 0)
    = EratSmall.primes_ (EratSmall.mk true 100 4 1000 []) ++ [record]
    /\ stored record
    /\ getSievingPrime record = 37 / 30
    /\ (family_residue (case_of record) = 37 mod 30 -> prime_value record = 37)
    /\ exists sieve' e',
         EratSmall.crossOff
           (EratSmall.storeSievingPrime (EratSmall.mk true 100 4 1000 []) 37 0 0)
           [255; 255; 255] (Z.of_nat (length [255; 255; 255])) = Ok (sieve', e')
         /\ length sieve' = length [255; 255; 255]
         /\ length (EratSmall.primes_ e') = S (length (EratSmall.primes_ (EratSmall.mk true 100 4 1000 []))).
Proof.
  apply (storeSievingPrime_stored (EratSmall.mk true 100 4 1000 []) 37 0 0 [255; 255; 255]);
    try lia; try (cbn; lia).
  apply List.Forall_nil.
Defined.

(** ** [andBuffers] *)

Lemma and_at_bytes bufs pos t :
  Forall2 (fun buf p => 0 <= p + t < PreSieve.size buf) bufs pos ->
  PreSieve.and_at bufs pos t = Ok (and_bytes bufs pos t).
Proof.
  induction 1 as [|buf p bufs pos Hp _ IH]; [reflexivity|].
  cbn [PreSieve.and_at]. rewrite load_nth by (unfold PreSieve.size in Hp; lia).
  cbn [mbind result_bind]. rewrite IH. reflexivity.
Qed.

Lemma andBuffers_loop_writes bufs pos (count : nat) : forall sieve offset i,
  Forall2 (fun buf p => 0 <= p /\ p + i + Z.of_nat count <= PreSieve.size buf) bufs pos ->
  0 <= offset -> 0 <= i -> offset + i + Z.of_nat count <= PreSieve.size sieve ->
  exists sieve',
    PreSieve.andBuffers_loop count bufs pos sieve offset i = Ok sieve'
    /\ length sieve' = length sieve
    /\ (forall t, i <= t < i + Z.of_nat count ->
          sieve' !! Z.to_nat (offset + t) = Some (and_bytes bufs pos t))
    /\ (forall j, 0 <= j -> ~ (offset + i <= j < offset + i + Z.of_nat count) ->
          sieve' !! Z.to_nat j = sieve !! Z.to_nat j).
Proof.
  induction count as [|count IH]; intros sieve offset i Hfit Hoff Hi Hroom.
  - exists sieve. split; [reflexivity|]. split; [reflexivity|].
    split; [intros t Ht; lia | reflexivity].
  - cbn [PreSieve.andBuffers_loop].
    rewrite and_at_bytes
      by (eapply Forall2_impl; [exact Hfit|]; cbn; intros buf p [? ?]; lia).
    cbn [mbind result_bind].
    rewrite store_lookup by (unfold PreSieve.size in Hroom; lia).
    cbn [mbind result_bind].
    destruct (IH (<[Z.to_nat (offset + i) := and_bytes bufs pos i]> sieve) offset (i + 1))
      as (s' & E & Hlen & Hin & Hout).
    { eapply Forall2_impl; [exact Hfit|]. cbn. intros buf p [? ?]. split; lia. }
    { exact Hoff. }
    { lia. }
    { unfold PreSieve.size in *. rewrite length_insert. lia. }
    rewrite length_insert in Hlen.
    exists s'. split; [exact E|]. split; [exact Hlen|]. split.
    + intros t Ht. destruct (Z.eq_dec t i) as [-> | Hne].
      * rewrite (Hout (offset + i)) by lia.
        apply list_lookup_insert_eq. unfold PreSieve.size in Hroom. lia.
      * apply Hin. lia.
    + intros j Hj Hnot. rewrite (Hout j Hj) by lia.
      apply list_lookup_insert_ne. lia.
Qed.

(** X9: [andBuffers] on [bytes] bytes, each buffer holding [bytes] bytes
    from its pointer on and the output [bytes] bytes from [&sieve[offset]]
    on: the call completes, byte [offset + t] of the sieve is the AND of the
    bytes [t] of the buffers for every [t < bytes], and no other byte of the
    sieve changes. *)
Theorem andBuffers_writes bufs pos sieve offset bytes :
  Forall2 (fun buf p => 0 <= p /\ p + bytes <= PreSieve.size buf) bufs pos ->
  0 <= offset -> 0 <= bytes -> offset + bytes <= PreSieve.size sieve ->
  exists sieve',
    PreSieve.andBuffers bufs pos sieve offset bytes = Ok sieve'
    /\ length sieve' = length sieve
    /\ (forall t, 0 <= t < bytes ->
          sieve' !! Z.to_nat (offset + t) = Some (and_bytes bufs pos t))
    /\ (forall j, 0 <= j -> ~ (offset <= j < offset + bytes) ->
          sieve' !! Z.to_nat j = sieve !! Z.to_nat j).
Proof.
  intros Hfit Hoff Hbytes Hroom. unfold PreSieve.andBuffers.
  destruct (andBuffers_loop_writes bufs pos (Z.to_nat bytes) sieve offset 0)
    as (s' & E & Hlen & Hin & Hout); try lia.
  { eapply Forall2_impl; [exact Hfit|]. cbn. intros buf p [? ?]. split; lia. }
  exists s'. split; [exact E|]. split; [exact Hlen|]. split.
  - intros t Ht. apply Hin. lia.
  - intros j Hj Hnot. apply Hout; lia.
Qed.

Lemma andBuffers_writes_witness :
  exists sieve',
    PreSieve.andBuffers [[255; 15; 60]; [170; 85; 51; 7]] [1; 2] [0; 0; 0; 0] 1 2 = Ok sieve'
    /\ length sieve' = length [0; 0; 0; 0]
    /\ (forall t, 0 <= t < 2 ->
          sieve' !! Z.to_nat (1 + t)
          = Some (and_bytes [[255; 15; 60]; [170; 85; 51; 7]] [1; 2] t))
    /\ (forall j, 0 <= j -> ~ (1 <= j < 1 + 2) ->
          sieve' !! Z.to_nat j = [0; 0; 0; 0] !! Z.to_nat j).
Proof.
  apply (andBuffers_writes [[255; 15; 60]; [170; 85; 51; 7]] [1; 2] [0; 0; 0; 0] 1 2);
    try lia; try (unfold PreSieve.size; cbn [length]; lia).
  repeat (apply List.Forall2_cons; [unfold PreSieve.size; cbn [length]; lia|]).
  apply List.Forall2_nil.
Defined.

(** ** The pre-sieve pass and the stores of [preSieve] *)

Lemma preSieve_unfold ps sieve segmentLow :
  PreSieve.preSieve ps sieve segmentLow
  = presieve_pass_of ps sieve segmentLow ≫= store_corrections segmentLow.
Proof. reflexivity. Qed.

Lemma mod_div_30 a s : 0 < s -> a mod (s * 30) / 30 = (a / 30) mod s.
Proof.
  intros Hs. rewrite (Z.mul_comm s 30), Z.rem_mul_r by lia.
  rewrite (Z.mul_comm 30), Z.div_add by lia.
  rewrite Z.div_small by (apply Z.mod_pos_bound; lia). reflexivity.
Qed.

Lemma and_spec_absolute bufs : forall segmentLow pos0 j,
  buffers_ok bufs -> PreSieve.initial_pos bufs segmentLow = Ok pos0 ->
  and_spec bufs pos0 j = and_spec bufs (map (fun _ => 0) bufs) (segmentLow / 30 + j).
Proof.
  induction bufs as [|buf bufs IH]; intros segmentLow pos0 j Hok E.
  - cbn in E. injection E as <-. reflexivity.
  - apply List.Forall_cons_iff in Hok. destruct Hok as [[Hpos Hlt] Hok].
    cbn [PreSieve.initial_pos] in E. rewrite (u64_small (PreSieve.size buf * 30)) in E by lia.
    rewrite (proj2 (Z.eqb_neq _ 0)) in E by lia.
    destruct (PreSieve.initial_pos bufs segmentLow) as [pos|] eqn:E'; [|discriminate].
    cbn [mbind result_bind] in E. injection E as <-.
    cbn [and_spec map]. rewrite (IH segmentLow pos j Hok E').
    rewrite mod_div_30 by lia.
    rewrite Z.add_0_l, Zplus_mod_idemp_l. reflexivity.
Qed.

(** The pass writes the pattern, byte [j] of the sieve being the byte of
    absolute index [segmentLow / 30 + j]. *)
Lemma presieve_pass_bytes ps sieve segmentLow :
  usable ps -> 0 <= segmentLow -> PreSieve.size sieve + 1001 < 2 ^ 64 ->
  exists s,
    presieve_pass_of ps sieve segmentLow = Ok s
    /\ length s = length sieve
    /\ forall j, 0 <= j < PreSieve.size sieve ->
         s !! Z.to_nat j = Some (pattern_byte ps (segmentLow / 30 + j)).
Proof.
  intros Hps Hlow Hsz. unfold presieve_pass_of, pattern_byte.
  destruct (bool_decide (PreSieve.buffer ps 0 = [])) eqn:Hb.
  - destruct (preSieveSmall_spec sieve segmentLow Hlow Hsz) as (s & E & Hlen & Ht).
    exists s. split; [exact E|]. split; [exact Hlen|].
    intros j Hj. rewrite (Ht j Hj). rewrite size_buffer_7_11_13.
    change 30030 with (1001 * 30). rewrite mod_div_30, Zplus_mod_idemp_l by lia.
    assert (0 <= (segmentLow / 30 + j) mod 1001 < 1001) as Hk by (apply Z.mod_pos_bound; lia).
    destruct (lookup_Z_lt PreSieve.buffer_7_11_13 ((segmentLow / 30 + j) mod 1001)) as [x Hx].
    { pose proof size_buffer_7_11_13 as H. unfold PreSieve.size in H. lia. }
    rewrite Hx. f_equal. symmetry. apply nth_lookup_Some with (d := 0) in Hx. exact Hx.
  - apply bool_decide_eq_false in Hb.
    destruct Hps as [Hempty | Hok]; [contradiction|].
    destruct (preSieveLarge_spec ps sieve segmentLow Hok Hlow ltac:(lia))
      as (pos0 & s & Epos & E & Hlen & Hpre).
    exists s. split; [exact E|]. split; [exact Hlen|].
    intros j Hj. rewrite (Hpre j Hj).
    rewrite (and_spec_absolute _ segmentLow pos0 j Hok Epos). reflexivity.
Qed.

Lemma presieve_pass_ext ps sieve1 sieve2 segmentLow :
  usable ps -> 0 <= segmentLow -> PreSieve.size sieve1 + 1001 < 2 ^ 64 ->
  length sieve1 = length sieve2 ->
  presieve_pass_of ps sieve1 segmentLow = presieve_pass_of ps sieve2 segmentLow.
Proof.
  intros Hps Hlow Hsz Hlen.
  destruct (presieve_pass_bytes ps sieve1 segmentLow Hps Hlow Hsz) as (s1 & E1 & Hl1 & H1).
  destruct (presieve_pass_bytes ps sieve2 segmentLow Hps Hlow
              ltac:(unfold PreSieve.size in *; lia)) as (s2 & E2 & Hl2 & H2).
  rewrite E1, E2. f_equal. apply list_eq. intros i.
  destruct (decide (i < length sieve1)%nat) as [Hi | Hi].
  - specialize (H1 (Z.of_nat i) ltac:(unfold PreSieve.size; lia)).
    specialize (H2 (Z.of_nat i) ltac:(unfold PreSieve.size; lia)).
    rewrite Nat2Z.id in H1, H2. rewrite H1, H2. reflexivity.
  - rewrite !(proj2 (lookup_ge_None _ _)) by lia. reflexivity.
Qed.

Lemma presieve_pass_app ps s1 s2 segmentLow :
  usable ps -> 0 <= segmentLow -> PreSieve.size (s1 ++ s2) + 1001 < 2 ^ 64 ->
  exists s1' s2',
    presieve_pass_of ps s1 segmentLow = Ok s1'
    /\ presieve_pass_of ps s2 (segmentLow + 30 * PreSieve.size s1) = Ok s2'
    /\ length s1' = length s1 /\ length s2' = length s2
    /\ presieve_pass_of ps (s1 ++ s2) segmentLow = Ok (s1' ++ s2').
Proof.
  intros Hps Hlow Hsz. unfold PreSieve.size in Hsz. rewrite length_app in Hsz.
  destruct (presieve_pass_bytes ps s1 segmentLow Hps Hlow) as (s1' & E1 & Hl1 & H1);
    [unfold PreSieve.size; lia|].
  destruct (presieve_pass_bytes ps s2 (segmentLow + 30 * PreSieve.size s1) Hps)
    as (s2' & E2 & Hl2 & H2); [unfold PreSieve.size; lia | unfold PreSieve.size; lia|].
  destruct (presieve_pass_bytes ps (s1 ++ s2) segmentLow Hps Hlow) as (s & E & Hl & H);
    [unfold PreSieve.size; rewrite length_app; lia|].
  exists s1', s2'. split; [exact E1|]. split; [exact E2|]. split; [exact Hl1|].
  split; [exact Hl2|]. rewrite E. f_equal. apply list_eq. intros i.
  rewrite length_app in Hl. unfold PreSieve.size in *.
  destruct (decide (i < length s1)%nat) as [Hi | Hi].
  - rewrite lookup_app_l by lia.
    specialize (H (Z.of_nat i) ltac:(rewrite length_app; lia)).
    specialize (H1 (Z.of_nat i) ltac:(lia)).
    rewrite Nat2Z.id in H, H1. rewrite H, H1. reflexivity.
  - rewrite lookup_app_r by lia.
    destruct (decide (i < length s1 + length s2)%nat) as [Hi2 | Hi2].
    + specialize (H (Z.of_nat i) ltac:(rewrite length_app; lia)).
      specialize (H2 (Z.of_nat (i - length s1'))  ltac:(lia)).
      rewrite Nat2Z.id in H, H2. rewrite H, H2. f_equal. f_equal.
      rewrite (Z.mul_comm 30), Z.div_add by lia. lia.
    + rewrite !(proj2 (lookup_ge_None _ _)) by lia. reflexivity.
Qed.

Ltac split_tests segmentLow :=
  destruct (segmentLow <? 30) eqn:H30; destruct (segmentLow <? 60) eqn:H60;
  destruct (segmentLow <? 90) eqn:H90; destruct (segmentLow <? 120) eqn:H120;
  try (exfalso; lia).

Lemma store_corrections_short s segmentLow :
  0 <= segmentLow -> segmentLow + 30 * PreSieve.size s < 120 ->
  store_corrections segmentLow s = Err (OutOfBounds (PreSieve.size s)).
Proof.
  intros Hlow Hshort. unfold store_corrections, PreSieve.size in *.
  destruct s as [|x0 [|x1 [|x2 [|x3 s]]]]; cbn [length] in Hshort; try lia;
    split_tests segmentLow; reflexivity.
Qed.

Lemma store_corrections_none s segmentLow :
  120 <= segmentLow -> store_corrections segmentLow s = Ok s.
Proof.
  intros Hlow. unfold store_corrections. split_tests segmentLow. reflexivity.
Qed.

Ltac run_stores :=
  cbn [PreSieve.store_if mbind result_bind fst snd];
  repeat (rewrite store_lookup by (rewrite ?length_insert, ?length_app; lia);
          cbn [PreSieve.store_if mbind result_bind fst snd]).

Lemma store_corrections_app a b segmentLow :
  0 <= segmentLow -> 120 <= segmentLow + 30 * PreSieve.size a ->
  exists a',
    store_corrections segmentLow a = Ok a' /\ length a' = length a
    /\ store_corrections segmentLow (a ++ b) = Ok (a' ++ b).
Proof.
  intros Hlow Hlong. unfold store_corrections, PreSieve.size in *.
  split_tests segmentLow;
    (eexists; split; [run_stores; reflexivity|]; split;
     [ rewrite ?length_insert; reflexivity
     | run_stores; rewrite ?insert_app_l by (rewrite ?length_insert; lia); reflexivity ]).
Qed.

(** X10: [preSieve] completes exactly when the sieve reaches the integer
    120: for a sieve with [120 <= segmentLow + 30 * size] it completes and
    the sieve keeps its size; for a shorter one, the empty one at
    [segmentLow < 120] among them, one of the stores [sieve[i++] = ...]
    goes to the index [size], beyond the sieve. *)
Theorem preSieve_completes_iff ps sieve segmentLow :
  usable ps -> 0 <= segmentLow -> PreSieve.size sieve + 1001 < 2 ^ 64 ->
  (120 <= segmentLow + 30 * PreSieve.size sieve ->
   exists sieve', PreSieve.preSieve ps sieve segmentLow = Ok sieve'
                  /\ length sieve' = length sieve)
  /\ (segmentLow + 30 * PreSieve.size sieve < 120 ->
      PreSieve.preSieve ps sieve segmentLow = Err (OutOfBounds (PreSieve.size sieve))).
Proof.
  intros Hps Hlow Hsz. rewrite preSieve_unfold.
  destruct (presieve_pass_bytes ps sieve segmentLow Hps Hlow Hsz) as (s & E & Hlen & _).
  rewrite E. cbn [mbind result_bind].
  assert (PreSieve.size s = PreSieve.size sieve) as Hsize by (unfold PreSieve.size; lia).
  split.
  - intros Hlong.
    destruct (store_corrections_app s [] segmentLow Hlow ltac:(lia)) as (s' & E' & Hlen' & _).
    exists s'. split; [exact E' | lia].
  - intros Hshort. rewrite <- Hsize. apply store_corrections_short; lia.
Qed.

Lemma preSieve_completes_iff_witness :
  (120 <= 60 + 30 * PreSieve.size [0; 0] ->
   exists sieve', PreSieve.preSieve (PreSieve.mk (replicate 8 []) 0 0) [0; 0] 60 = Ok sieve'
                  /\ length sieve' = length [0; 0])
  /\ (60 + 30 * PreSieve.size [0; 0] < 120 ->
      PreSieve.preSieve (PreSieve.mk (replicate 8 []) 0 0) [0; 0] 60
      = Err (OutOfBounds (PreSieve.size [0; 0]))).
Proof.
  apply (preSieve_completes_iff (PreSieve.mk (replicate 8 []) 0 0) [0; 0] 60).
  - left. reflexivity.
  - lia.
  - vm_compute. reflexivity.
Defined.

(** X11: [preSieve] overwrites the whole sieve: on two sieves of the same
    size it gives the same result, whatever they held before. *)
Theorem preSieve_overwrites ps sieve1 sieve2 segmentLow :
  usable ps -> 0 <= segmentLow -> PreSieve.size sieve1 + 1001 < 2 ^ 64 ->
  length sieve1 = length sieve2 ->
  PreSieve.preSieve ps sieve1 segmentLow = PreSieve.preSieve ps sieve2 segmentLow.
Proof.
  intros Hps Hlow Hsz Hlen. rewrite !preSieve_unfold.
  rewrite (presieve_pass_ext ps sieve1 sieve2 segmentLow Hps Hlow Hsz Hlen). reflexivity.
Qed.

Lemma preSieve_overwrites_witness :
  PreSieve.preSieve (PreSieve.mk (replicate 8 []) 0 0) [0; 0; 0; 0; 0] 0
  = PreSieve.preSieve (PreSieve.mk (replicate 8 []) 0 0) [255; 1; 2; 3; 4] 0.
Proof.
  apply (preSieve_overwrites (PreSieve.mk (replicate 8 []) 0 0)
           [0; 0; 0; 0; 0] [255; 1; 2; 3; 4] 0).
  - left. reflexivity.
  - lia.
  - vm_compute. reflexivity.
  - reflexivity.
Defined.

(** X12: consecutive segments: when the first part reaches the integer
    120, [preSieve] over a sieve in two parts is [preSieve] over the first
    part followed by [preSieve] over the second part at
    [segmentLow + 30 * size] of the first; all three calls complete. *)
Theorem preSieve_segments_compose ps s1 s2 segmentLow :
  usable ps -> 0 <= segmentLow -> PreSieve.size (s1 ++ s2) + 1001 < 2 ^ 64 ->
  120 <= segmentLow + 30 * PreSieve.size s1 ->
  exists s1' s2',
    PreSieve.preSieve ps s1 segmentLow = Ok s1'
    /\ PreSieve.preSieve ps s2 (segmentLow + 30 * PreSieve.size s1) = Ok s2'
    /\ PreSieve.preSieve ps (s1 ++ s2) segmentLow = Ok (s1' ++ s2').
Proof.
  intros Hps Hlow Hsz Hlong. rewrite !preSieve_unfold.
  destruct (presieve_pass_app ps s1 s2 segmentLow Hps Hlow Hsz)
    as (p1 & p2 & E1 & E2 & Hl1 & Hl2 & E).
  rewrite E1, E2, E. cbn [mbind result_bind].
  destruct (store_corrections_app p1 p2 segmentLow Hlow
              ltac:(unfold PreSieve.size in *; lia)) as (s1' & C1 & _ & C).
  exists s1', p2. split; [exact C1|].
  split; [apply store_corrections_none; lia | exact C].
Qed.

Lemma preSieve_segments_compose_witness :
  exists s1' s2',
    PreSieve.preSieve (PreSieve.mk (replicate 8 []) 0 0) [0; 0; 0] 30 = Ok s1'
    /\ PreSieve.preSieve (PreSieve.mk (replicate 8 []) 0 0) [0; 0]
         (30 + 30 * PreSieve.size [0; 0; 0]) = Ok s2'
    /\ PreSieve.preSieve (PreSieve.mk (replicate 8 []) 0 0) ([0; 0; 0] ++ [0; 0]) 30
       = Ok (s1' ++ s2').
Proof.
  apply (preSieve_segments_compose (PreSieve.mk (replicate 8 []) 0 0) [0; 0; 0] [0; 0] 30).
  - left. reflexivity.
  - lia.
  - vm_compute. reflexivity.
  - vm_compute. discriminate.
Defined.

(** ** The static buffer *)

(** X13: [buffer_7_11_13] is the sieve of 7, 11 and 13 over one period: it
    has [7 * 11 * 13] bytes, each below 256, and bit [b] of byte [j] is set
    exactly when none of 7, 11 and 13 divides [30 * j + bit_value b]. *)
Theorem static_buffer_sieves_7_11_13 :
  PreSieve.size PreSieve.buffer_7_11_13 = 7 * 11 * 13
  /\ Forall (fun x => 0 <= x < 256) PreSieve.buffer_7_11_13
  /\ forall j b, 0 <= j < 7 * 11 * 13 -> 0 <= b < 8 ->
       (bit_at PreSieve.buffer_7_11_13 j b = true
        <-> ~ (7 | 30 * j + bit_value b) /\ ~ (11 | 30 * j + bit_value b)
            /\ ~ (13 | 30 * j + bit_value b)).
Proof.
  split; [reflexivity|]. split.
  - apply List.Forall_forall. intros x Hx.
    assert (forallb (fun x => (0 <=? x) && (x <? 256)) PreSieve.buffer_7_11_13 = true) as Hall
      by (vm_compute; reflexivity).
    rewrite forallb_forall in Hall. specialize (Hall x Hx). lia.
  - intros j b Hj Hb.
    destruct static_buffer_of as (_ & _ & _ & Hbits).
    rewrite (Hbits j b ltac:(rewrite size_buffer_7_11_13; lia) Hb).
    rewrite !List.Forall_cons_iff. split.
    + intros (H7 & H11 & H13 & _). repeat split; assumption.
    + intros (H7 & H11 & H13). repeat split; try assumption. apply List.Forall_nil.
Qed.

Lemma static_buffer_sieves_7_11_13_witness :
  bit_at PreSieve.buffer_7_11_13 1 4 = true
  <-> ~ (7 | 30 * 1 + bit_value 4) /\ ~ (11 | 30 * 1 + bit_value 4)
      /\ ~ (13 | 30 * 1 + bit_value 4).
Proof.
  apply (proj2 (proj2 static_buffer_sieves_7_11_13) 1 4); lia.
Defined.

(** ** [initBuffers] *)

Lemma initBuffer_sized primes product :
  fold_left (fun product prime => u64 (product * prime)) primes 30 = product ->
  product mod 30 = 0 -> 0 < product -> product * 2 < 2 ^ 64 ->
  List.last primes 0 <= product / 30 * 3 ->
  Forall (fun p => 7 <= p /\ p + 29 < 2 ^ 64 /\ Wheel.coprime30 p = true
                   /\ (p | product / 30)) primes ->
  exists buf,
    PreSieve.initBuffer primes = Ok (buf, List.last primes 0)
    /\ buffer_of primes buf /\ PreSieve.size buf = product / 30.
Proof.
  intros Hprod Hmod Hpos Hlt Hmax Hall.
  destruct (initBuffer_spec primes product Hprod Hmod Hpos Hlt Hmax Hall) as (buf & E & Hbuf).
  exists buf. split; [exact E|]. split; [exact Hbuf|].
  assert (0 < product / 30) as Hsize by (Z.to_euclidean_division_equations; lia).
  assert (product = 30 * (product / 30)) as H30 by (Z.to_euclidean_division_equations; lia).
  revert E. unfold PreSieve.initBuffer. rewrite Hprod.
  remember (replicate (Z.to_nat (product / 30)) 255) as buf0 eqn:Ebuf.
  assert (PreSieve.size buf0 = product / 30) as Hsz0
    by (subst buf0; unfold PreSieve.size; rewrite length_replicate; lia).
  rewrite Hsz0. unfold EratSmall.init.
  rewrite (u64_small (product / 30 * 3)) by lia.
  rewrite Z.gtb_ltb.
  rewrite (proj2 (Z.ltb_ge _ _)) by lia.
  cbn [mbind result_bind EratSmall.primes_ EratSmall.new].
  destruct (add_primes_spec product primes
              (EratSmall.mk true (List.last primes 0) (product / 30)
                 (u64 (product + product)) []))
    as (recs & Eadd & Hrecs & Hmap); try lia.
  { eapply Forall_impl; [exact Hall|]. cbn. tauto. }
  rewrite Eadd. cbn [EratSmall.enabled_ EratSmall.maxPrime_ EratSmall.l1CacheSize_
                        EratSmall.stop_ EratSmall.primes_ app].
  assert (Forall stored recs) as Hst by (eapply Forall_impl; [exact Hrecs|]; cbn; tauto).
  destruct (crossOff_inner_Ok recs buf0 Hst) as (buf1 & recs' & Ein & Hlen & _ & _).
  rewrite (crossOff_vector_whole _ buf0 buf1 recs'); cbn [EratSmall.primes_ EratSmall.l1CacheSize_];
    try assumption; try (unfold PreSieve.size in *; lia).
  2:{ subst buf0. destruct (Z.to_nat (product / 30)) eqn:En; [lia | discriminate]. }
  cbn [mbind result_bind]. intros E. injection E as <-.
  unfold PreSieve.size in *. lia.
Qed.

Ltac sized_buffer_instance :=
  match goal with
  | |- exists buf, PreSieve.initBuffer ?primes = _ /\ _ =>
      let v := eval vm_compute in
        (fold_left (fun product prime => u64 (product * prime)) primes 30) in
      apply (initBuffer_sized primes v);
      [ vm_compute; reflexivity
      | reflexivity
      | lia
      | lia
      | vm_compute; intros H; discriminate H
      | repeat (apply List.Forall_cons;
                [ split; [lia | split; [lia | split; [reflexivity
                  | apply Z.mod_divide; [lia | reflexivity]]]] | ]);
        apply List.Forall_nil ]
  end.

Lemma bufferPrimes_sized_buffers :
  Forall2 (fun primes size =>
             exists buf, PreSieve.initBuffer primes = Ok (buf, List.last primes 0)
                         /\ buffer_of primes buf /\ PreSieve.size buf = size / 30)
    PreSieve.bufferPrimes
    [7 * 67 * 71 * 30; 11 * 41 * 73 * 30; 13 * 43 * 59 * 30; 17 * 37 * 53 * 30;
     19 * 29 * 61 * 30; 23 * 31 * 47 * 30; 79 * 97 * 30; 83 * 89 * 30].
Proof.
  unfold PreSieve.bufferPrimes.
  repeat (apply List.Forall2_cons; [sized_buffer_instance|]). apply List.Forall2_nil.
Qed.

Lemma initBuffers_loop_sized todo : forall sizes i ps,
  length (PreSieve.buffers_ ps) = (i + length todo)%nat ->
  Forall2 (fun primes size =>
             exists buf, PreSieve.initBuffer primes = Ok (buf, List.last primes 0)
                         /\ buffer_of primes buf /\ PreSieve.size buf = size / 30)
    todo sizes ->
  exists ps',
    PreSieve.initBuffers_loop i todo ps = Ok ps'
    /\ PreSieve.totalDist_ ps' = PreSieve.totalDist_ ps
    /\ PreSieve.maxPrime_ ps'
       = fold_left Z.max (map (fun primes => List.last primes 0) todo) (PreSieve.maxPrime_ ps)
    /\ take i (PreSieve.buffers_ ps') = take i (PreSieve.buffers_ ps)
    /\ Forall2 buffer_of todo (drop i (PreSieve.buffers_ ps'))
    /\ map (fun buf => PreSieve.size buf * 30) (drop i (PreSieve.buffers_ ps'))
       = map (fun size => size / 30 * 30) sizes.
Proof.
  induction todo as [|primes todo IH]; intros sizes i ps Hlen Hall.
  - inversion Hall; subst. exists ps. cbn in *.
    split; [reflexivity|]. split; [reflexivity|]. split; [reflexivity|]. split; [reflexivity|].
    rewrite drop_ge by lia. split; [constructor | reflexivity].
  - inversion Hall as [|? size ? sizes' (buf & E & Hbuf & Hsize) Hrest]; subst.
    cbn [PreSieve.initBuffers_loop]. rewrite E. cbn [mbind result_bind].
    cbn [length] in Hlen.
    destruct (IH sizes' (S i)
                (PreSieve.mk (<[i := buf]> (PreSieve.buffers_ ps)) (PreSieve.totalDist_ ps)
                   (Z.max (PreSieve.maxPrime_ ps) (List.last primes 0))))
      as (ps' & E' & Hdist & Hmax & Htake & Hdrop & Hsizes);
      [cbn; rewrite length_insert; lia | exact Hrest |].
    cbn [PreSieve.buffers_ PreSieve.totalDist_ PreSieve.maxPrime_] in *.
    exists ps'. split; [exact E'|]. split; [exact Hdist|]. split; [exact Hmax|].
    assert (PreSieve.buffers_ ps' !! i = Some buf) as Hi.
    { rewrite <- (lookup_take_lt _ (S i)) by lia. rewrite Htake.
      rewrite lookup_take_lt by lia. apply list_lookup_insert_eq. lia. }
    split; [|split].
    + transitivity (take i (take (S i) (PreSieve.buffers_ ps'))).
      { rewrite take_take. f_equal. lia. }
      rewrite Htake, take_take. replace (Nat.min i (S i)) with i by lia.
      apply take_insert_ge. lia.
    + rewrite (drop_S _ _ _ Hi). constructor; assumption.
    + rewrite (drop_S _ _ _ Hi). cbn [map]. rewrite Hsizes, Hsize. reflexivity.
Qed.

(** X14: [initBuffers], with [Wheel::addSievingPrime] as the specification
    describes it: on an instance with eight buffers it completes, leaves
    [totalDist_] as it was and [maxPrime_] at the greater of its value and
    97; buffer [i] has the product of the primes of [bufferPrimes[i]] as its
    size, and bit [b] of its byte [j] is set exactly when none of these
    primes divides [30 * j + bit_value b]; [buffersDist] is the sum over the
    buffers of [30 * size]. *)
Theorem initBuffers_fills ps :
  length (PreSieve.buffers_ ps) = 8%nat ->
  exists ps',
    PreSieve.initBuffers ps = Ok ps'
    /\ PreSieve.totalDist_ ps' = PreSieve.totalDist_ ps
    /\ PreSieve.maxPrime_ ps' = Z.max (PreSieve.maxPrime_ ps) 97
    /\ Forall2 buffer_of PreSieve.bufferPrimes (PreSieve.buffers_ ps')
    /\ map PreSieve.size (PreSieve.buffers_ ps')
       = [7 * 67 * 71; 11 * 41 * 73; 13 * 43 * 59; 17 * 37 * 53;
          19 * 29 * 61; 23 * 31 * 47; 79 * 97; 83 * 89]
    /\ fold_right Z.add 0 (map (fun buf => PreSieve.size buf * 30) (PreSieve.buffers_ ps'))
       = PreSieve.buffersDist.
Proof.
  intros Hlen.
  destruct (initBuffers_loop_sized PreSieve.bufferPrimes _ 0 ps Hlen bufferPrimes_sized_buffers)
    as (ps' & E & Hdist & Hmax & _ & Hb & Hsizes).
  rewrite drop_0 in Hb, Hsizes.
  exists ps'. split; [exact E|]. split; [exact Hdist|]. split.
  { rewrite Hmax. cbn [PreSieve.bufferPrimes map List.last fold_left]. lia. }
  split; [exact Hb|]. split.
  - assert (map (fun x => x / 30) (map (fun buf => PreSieve.size buf * 30) (PreSieve.buffers_ ps'))
            = map PreSieve.size (PreSieve.buffers_ ps')) as <-.
    { rewrite map_map. apply map_ext. intros buf. apply Z.div_mul. lia. }
    rewrite Hsizes. reflexivity.
  - rewrite Hsizes. reflexivity.
Qed.

Lemma initBuffers_fills_witness :
  exists ps',
    PreSieve.initBuffers (PreSieve.mk (replicate 8 []) 5 0) = Ok ps'
    /\ PreSieve.totalDist_ ps' = PreSieve.totalDist_ (PreSieve.mk (replicate 8 []) 5 0)
    /\ PreSieve.maxPrime_ ps' = Z.max (PreSieve.maxPrime_ (PreSieve.mk (replicate 8 []) 5 0)) 97
    /\ Forall2 buffer_of PreSieve.bufferPrimes (PreSieve.buffers_ ps')
    /\ map PreSieve.size (PreSieve.buffers_ ps')
       = [7 * 67 * 71; 11 * 41 * 73; 13 * 43 * 59; 17 * 37 * 53;
          19 * 29 * 61; 23 * 31 * 47; 79 * 97; 83 * 89]
    /\ fold_right Z.add 0 (map (fun buf => PreSieve.size buf * 30) (PreSieve.buffers_ ps'))
       = PreSieve.buffersDist.
Proof.
  apply (initBuffers_fills (PreSieve.mk (replicate 8 []) 5 0)). reflexivity.
Defined.
